(** * A shallow embedding of [lattice.py] (pronunciation-by-analogy lattice)

    The Python class [Lattice] keeps its graph in two dictionaries,
    [self.nodes] and [self.arcs], keyed by the hash of the identity tuples
    [(matched_letter, phoneme, index)] and [(intermediate_phonemes, from_node,
    to_node)].  We key both stores by the identity tuples themselves (no hash
    collisions), and keep them as association lists in insertion order, the
    iteration order of a Python dict.

    Heap objects that the code mutates in place are modelled explicitly:
    - the per-node [visited] flag is the set of node keys whose flag is True;
    - the [count] of an arc object lives in the arc store;
    - [Candidate] objects handed to [decide] live in a heap indexed by [nat]
      references, so that aliasing and in-place updates are visible.

    Python exceptions are the [Raise] outcome of a state-and-exception monad;
    a raising call keeps the state reached so far, as Python does. *)

From Stdlib Require Import String Ascii List ZArith Bool Reals Lia Lra.
Import ListNotations.

(** ** Outcomes and the state-and-exception monad *)

Inductive exn :=
| IndexError        (* s[i] out of range, [self.arcs[-1]] on an empty list *)
| ValueError        (* [min] or [max] of an empty sequence *)
| StatisticsError   (* [statistics.stdev] on fewer than two points *)
| TypeError         (* [len] of an integer that is not an error code *)
| KeyError          (* lookup of a missing dictionary key *)
| SystemExit        (* [exit()] *)
| Dangling          (* a reference to no object: impossible for Python values *)
| OutOfFuel.        (* fuel of the model exhausted: shown unreachable below *)

Inductive res (A : Type) : Type :=
| Ok (a : A)
| Raise (e : exn).
Arguments Ok {A} a.
Arguments Raise {A} e.

Definition ST (S A : Type) : Type := S -> S * res A.

Definition ret {S A} (a : A) : ST S A := fun s => (s, Ok a).
Definition throw {S A} (e : exn) : ST S A := fun s => (s, Raise e).
Definition bind {S A B} (m : ST S A) (k : A -> ST S B) : ST S B :=
  fun s => match m s with
           | (s', Ok a) => k a s'
           | (s', Raise e) => (s', Raise e)
           end.
Definition get {S} : ST S S := fun s => (s, Ok s).
Definition put {S} (s : S) : ST S unit := fun _ => (s, Ok tt).
Definition modify {S} (f : S -> S) : ST S unit := fun s => (f s, Ok tt).
Definition lift_res {S A} (r : res A) : ST S A := fun s => (s, r).

Notation "x <- m ;; k" := (bind m (fun x => k))
  (at level 61, m at next level, right associativity).
Notation "m ;; k" := (bind m (fun _ => k))
  (at level 61, right associativity).

(** [for x in xs: body(x)] *)
Fixpoint for_each {S A} (xs : list A) (body : A -> ST S unit) : ST S unit :=
  match xs with
  | [] => ret tt
  | x :: xs' => body x ;; for_each xs' body
  end.

(** ** Python strings *)

(** [s[i]] for a Python index [i] (negative indices count from the end). *)
Definition py_index (s : string) (i : Z) : res string :=
  let n := Z.of_nat (String.length s) in
  let j := if (i <? 0)%Z then (n + i)%Z else i in
  if ((0 <=? j) && (j <? n))%Z
  then Ok (String.substring (Z.to_nat j) 1 s)
  else Raise IndexError.

(** [s[1:-1]] *)
Definition py_inner (s : string) : string :=
  String.substring 1 (String.length s - 2) s.

(** ** Nodes and arcs *)

Record node := Node {
  matched_letter : string;
  phoneme : string;
  index : Z }.

Record arc := Arc {
  intermediate_phonemes : string;
  from_node : node;
  to_node : node }.

Definition node_eqb (a b : node) : bool :=
  String.eqb (matched_letter a) (matched_letter b) &&
  String.eqb (phoneme a) (phoneme b) && Z.eqb (index a) (index b).

Definition arc_eqb (x y : arc) : bool :=
  String.eqb (intermediate_phonemes x) (intermediate_phonemes y) &&
  node_eqb (from_node x) (from_node y) && node_eqb (to_node x) (to_node y).

Lemma node_eqb_eq a b : node_eqb a b = true <-> a = b.
Proof.
  destruct a as [l p i], b as [l' p' i']; unfold node_eqb; simpl.
  rewrite !andb_true_iff, !String.eqb_eq, Z.eqb_eq.
  split; [intros [[-> ->] ->]; reflexivity | intros H; injection H; auto].
Qed.

Lemma arc_eqb_eq x y : arc_eqb x y = true <-> x = y.
Proof.
  destruct x as [s a b], y as [s' a' b']; unfold arc_eqb; simpl.
  rewrite !andb_true_iff, String.eqb_eq, !node_eqb_eq.
  split; [intros [[-> ->] ->]; reflexivity | intros H; injection H; auto].
Qed.

Lemma node_eq_dec (a b : node) : {a = b} + {a <> b}.
Proof.
  destruct (node_eqb a b) eqn:E.
  - left; apply node_eqb_eq; exact E.
  - right; intros H; apply node_eqb_eq in H; congruence.
Defined.

(** [Arc.structure_component] *)
Definition structure_component (k : arc) : Z :=
  (index (to_node k) - index (from_node k))%Z.

(** [Arc.contains(list_of_nodes)] *)
Definition contains (k : arc) (ns : list node) : bool :=
  existsb (node_eqb (from_node k)) ns || existsb (node_eqb (to_node k)) ns.

(** ** The lattice *)

Record lattice := Lattice {
  letters : string;
  nodes : list node;                 (* self.nodes.values() *)
  arcs : list (arc * nat);           (* self.arcs.values() with their counts *)
  visited : list node;               (* nodes whose [visited] flag is True *)
  unrepresented_bigrams : list (Z * string) }.

Definition START_NODE (g : lattice) : node := Node "" "" (-1).
Definition END_NODE (g : lattice) : node :=
  Node "" "" (Z.of_nat (String.length (letters g))).

(** [Lattice.__init__] *)
Definition init (w : string) : lattice :=
  {| letters := w;
     nodes := [Node "" "" (-1); Node "" "" (Z.of_nat (String.length w))];
     arcs := [];
     visited := [];
     unrepresented_bigrams := [] |}.

Definition set_nodes (g : lattice) ns :=
  Lattice (letters g) ns (arcs g) (visited g) (unrepresented_bigrams g).
Definition set_arcs (g : lattice) as_ :=
  Lattice (letters g) (nodes g) as_ (visited g) (unrepresented_bigrams g).
Definition set_visited (g : lattice) vs :=
  Lattice (letters g) (nodes g) (arcs g) vs (unrepresented_bigrams g).
Definition set_unrepresented (g : lattice) bs :=
  Lattice (letters g) (nodes g) (arcs g) (visited g) bs.

Fixpoint arc_lookup (k : arc) (st : list (arc * nat)) : option nat :=
  match st with
  | [] => None
  | (k', c) :: st' => if arc_eqb k k' then Some c else arc_lookup k st'
  end.

Fixpoint arc_set (k : arc) (c : nat) (st : list (arc * nat)) : list (arc * nat) :=
  match st with
  | [] => []
  | (k', c') :: st' => if arc_eqb k k' then (k', c) :: st' else (k', c') :: arc_set k c st'
  end.

(** [u.to_arcs]: the arcs are appended to [a.to_arcs] exactly when they are
    inserted into [self.arcs], so this list is the store filtered by source. *)
Definition to_arcs (g : lattice) (u : node) : list arc :=
  filter (fun k => node_eqb (from_node k) u) (map fst (arcs g)).

(** Current [count] of an arc object. *)
Definition arc_count (g : lattice) (k : arc) : res nat :=
  match arc_lookup k (arcs g) with
  | Some c => Ok c
  | None => Raise Dangling
  end.

Definition remove_node (u : node) (vs : list node) : list node :=
  filter (fun v => negb (node_eqb v u)) vs.

(** ** [Lattice.add] *)

(** [create_or_iterate_arc(inter, a, b)] *)
Definition create_or_iterate_arc (inter : string) (a b : node) : ST lattice arc :=
  fun g =>
    let k := Arc inter a b in
    match arc_lookup k (arcs g) with
    | Some c =>
        let c' := if contains k [START_NODE g; END_NODE g] then c else S c in
        (set_arcs g (arc_set k c' (arcs g)), Ok k)
    | None => (set_arcs g (arcs g ++ [(k, 1%nat)]), Ok k)
    end.

(** [create_or_find_node(l, p, i)]: a new [Node] starts unvisited. *)
Definition create_or_find_node (l p : string) (i : Z) : ST lattice node :=
  fun g =>
    let n := Node l p i in
    if existsb (node_eqb n) (nodes g) then (g, Ok n)
    else (set_visited (set_nodes g (nodes g ++ [n])) (remove_node n (visited g)), Ok n).

Definition add (sub_letters sub_phones : string) (start_index : Z) : ST lattice unit :=
  g <- get ;;
  l0 <- lift_res (py_index sub_letters 0) ;;
  p0 <- lift_res (py_index sub_phones 0) ;;
  a <- create_or_find_node l0 p0 start_index ;;
  l1 <- lift_res (py_index sub_letters (-1)) ;;
  p1 <- lift_res (py_index sub_phones (-1)) ;;
  b <- create_or_find_node l1 p1
         (start_index + Z.of_nat (String.length sub_letters) - 1)%Z ;;
  _ <- create_or_iterate_arc (py_inner sub_phones) a b ;;
  if (start_index =? 0)%Z then
    (_ <- create_or_iterate_arc "" (START_NODE g) a ;; ret tt)
  else if (start_index + Z.of_nat (String.length sub_letters)
           =? Z.of_nat (String.length (letters g)))%Z then
    (_ <- create_or_iterate_arc "" b (END_NODE g) ;; ret tt)
  else ret tt.

Definition run {S A} (m : ST S A) (s : S) : S := fst (m s).

(** ** Gap repair *)

Definition nodes_at (g : lattice) (i : Z) : list node :=
  filter (fun n => Z.eqb (index n) i) (nodes g).

(** Start positions of the (possibly overlapping) matches of the two-letter
    string [pair] in [w]: [re.finditer('(?=' + pair + ')', w)] for a word
    without regular-expression metacharacters. *)
Definition occurrences (pair w : string) : list Z :=
  map Z.of_nat
    (filter (fun i => String.eqb (String.substring i 2 w) pair)
       (seq 0 (String.length w - 1))).

(** [Lattice.link_silences(furthest)] *)
Definition link_silences (furthest : Z) : ST lattice unit :=
  g <- get ;;
  let link (i : Z) : ST lattice unit :=
    g <- get ;;
    let furthest_reached_nodes := nodes_at g i in
    let nodes_beyond := nodes_at g (i + 1) in
    for_each furthest_reached_nodes (fun from =>
      for_each nodes_beyond (fun to =>
        add (String.append (matched_letter from) (matched_letter to))
            (String.append (phoneme from) (phoneme to)) i)) in
  c0 <- lift_res (py_index (letters g) furthest) ;;
  c1 <- lift_res (py_index (letters g) (furthest + 1)) ;;
  let silent_pair := String.append c0 c1 in
  for_each (occurrences silent_pair (letters g)) link.

(** [Lattice.link_unrepresented()] *)
Definition link_unrepresented : ST lattice unit :=
  g <- get ;;
  for_each (unrepresented_bigrams g) (fun item =>
    g <- get ;;
    let start_index := fst item in
    let end_index := (start_index + 1)%Z in
    let bigram := snd item in
    start_char <- lift_res (py_index bigram 0) ;;
    end_char <- lift_res (py_index bigram 1) ;;
    let nodes_at_start_index := nodes_at g start_index in
    let nodes_at_end_index0 := nodes_at g end_index in
    match nodes_at_start_index with
    | [] => throw SystemExit
    | _ =>
      let nodes_at_end_index :=
        match nodes_at_end_index0 with
        | [] => [Node end_char "-" end_index]
        | _ => nodes_at_end_index0
        end in
      for_each nodes_at_start_index (fun start_node =>
        for_each nodes_at_end_index (fun end_node =>
          add (String.append (matched_letter start_node) (matched_letter end_node))
              (String.append (phoneme start_node) (phoneme end_node)) start_index))
    end).

(** Bigrams [w[k] + w[k+1]] for [k] in [range(0, len(w) - 2)]. *)
Definition scanned_bigrams (w : string) : list (Z * string) :=
  map (fun k => (Z.of_nat k, String.substring k 2 w))
    (seq 0 (String.length w - 2)).

(** [Lattice.flag_unrepresented_bigrams(input_word, database)]; the
    database is given by its list of keys. *)
Definition flag_unrepresented_bigrams (input_word : string)
    (database : list string) : ST lattice unit :=
  let represented_bigrams :=
    flat_map (fun word => map snd (scanned_bigrams word)) database in
  let unrepresented :=
    filter (fun xb => negb (existsb (String.eqb (snd xb)) represented_bigrams))
      (scanned_bigrams input_word) in
  modify (fun g => set_unrepresented g unrepresented).

(** ** Candidates *)

Inductive path_item := PNode (n : node) | PArc (k : arc).

Record candidate := Candidate {
  path : list path_item;
  c_arcs : list arc;
  path_strings : list string;
  pronunciation : string;
  arc_count_sum : Z;
  arc_count_product : nat;
  sum_of_products : nat;
  frequency_of_same_pronunciation : nat;
  length : nat;
  path_structure_standard_deviation : R;
  weakest_link : nat;
  number_of_different_symbols : nat }.

(** [Candidate()] *)
Definition empty_candidate : candidate :=
  Candidate [] [] [] "" 0 1 0 1 0 0%R 0 0.

(** [Candidate(other)]: a copy with [number_of_different_symbols] reset. *)
Definition copy_candidate (o : candidate) : candidate :=
  Candidate (path o) (c_arcs o) (path_strings o) (pronunciation o)
    (arc_count_sum o) (arc_count_product o) (sum_of_products o)
    (frequency_of_same_pronunciation o) (length o)
    (path_structure_standard_deviation o) (weakest_link o) 0.

(** [Candidate.solidify()] *)
Definition solidify (c : candidate) : candidate :=
  Candidate (path c) (c_arcs c) (path_strings c) (String.concat "" (path_strings c))
    (arc_count_sum c) (arc_count_product c) (sum_of_products c)
    (frequency_of_same_pronunciation c) (length c)
    (path_structure_standard_deviation c) (weakest_link c)
    (number_of_different_symbols c).

Definition boundary (g : lattice) : list node := [START_NODE g; END_NODE g].

(** [Candidate.update(parent, arc)], [cnt] being [arc.count]. *)
Definition update (g : lattice) (k : arc) (cnt : nat) (c : candidate) : candidate :=
  let path1 := path c ++ [PNode (from_node k); PArc k] in
  let arcs1 := c_arcs c ++ [k] in
  let strings1 := path_strings c ++ [phoneme (from_node k); intermediate_phonemes k] in
  let sum1 := (arc_count_sum c + if contains k (boundary g) then 0 else Z.of_nat cnt)%Z in
  let first := Nat.eqb (List.length arcs1) 1 in
  Candidate (if first then tl path1 else path1) arcs1
    (if first then tl strings1 else strings1) (pronunciation c)
    sum1 (arc_count_product c) (sum_of_products c)
    (frequency_of_same_pronunciation c) (S (length c))
    (path_structure_standard_deviation c) (weakest_link c)
    (number_of_different_symbols c).

Definition py_drop_last {A} (n : nat) (l : list A) : list A :=
  firstn (List.length l - n) l.

(** [Candidate.pop(parent)] *)
Definition pop (g : lattice) (c : candidate) : res candidate :=
  match rev (c_arcs c) with
  | [] => Raise IndexError
  | removed :: _ =>
      match arc_count g removed with
      | Raise e => Raise e
      | Ok cnt =>
        Ok (Candidate (py_drop_last 2 (path c)) (py_drop_last 1 (c_arcs c))
              (py_drop_last 2 (path_strings c)) (pronunciation c)
              (arc_count_sum c - if contains removed (boundary g) then 0 else Z.of_nat cnt)%Z
              (arc_count_product c) (sum_of_products c)
              (frequency_of_same_pronunciation c) (length c - 1)
              (path_structure_standard_deviation c) (weakest_link c)
              (number_of_different_symbols c))
      end
  end.

(** ** [Lattice.find_all_paths] *)

(** The fixed ceiling on recursive steps. *)
Definition ceiling : Z := 25000000.
(** [sys.maxsize] *)
Definition maxsize : Z := 9223372036854775807.

Definition NO_PATHS_FOUND : Z := 999.
Definition SEARCHED_TOO_LONG : Z := 998.
Definition ERRORS : list Z := [NO_PATHS_FOUND; SEARCHED_TOO_LONG].

(** The variables of [find_all_paths] shared with its closure [util]. *)
Record search := Search {
  sg : lattice;
  min_length : Z;
  furthest_index : Z;
  util_call_count : Z;
  overflow : bool;
  candidates : list candidate;
  candidate_buffer : candidate }.

Definition set_sg s g := Search g (min_length s) (furthest_index s)
  (util_call_count s) (overflow s) (candidates s) (candidate_buffer s).
Definition set_min_length s m := Search (sg s) m (furthest_index s)
  (util_call_count s) (overflow s) (candidates s) (candidate_buffer s).
Definition set_furthest s f := Search (sg s) (min_length s) f
  (util_call_count s) (overflow s) (candidates s) (candidate_buffer s).
Definition set_count s n := Search (sg s) (min_length s) (furthest_index s)
  n (overflow s) (candidates s) (candidate_buffer s).
Definition set_overflow s o := Search (sg s) (min_length s) (furthest_index s)
  (util_call_count s) o (candidates s) (candidate_buffer s).
Definition set_candidates s cs := Search (sg s) (min_length s) (furthest_index s)
  (util_call_count s) (overflow s) cs (candidate_buffer s).
Definition set_buffer s b := Search (sg s) (min_length s) (furthest_index s)
  (util_call_count s) (overflow s) (candidates s) b.

Definition is_visited (g : lattice) (v : node) : bool := existsb (node_eqb v) (visited g).

Definition mark (u : node) (g : lattice) : lattice :=
  set_visited g (if is_visited g u then visited g else u :: visited g).
Definition unmark (u : node) (g : lattice) : lattice :=
  set_visited g (remove_node u (visited g)).

(** [util(u, d, candidate_buffer)], with [d] the END node.  The fuel bounds
    the recursion depth; it is never exhausted when it is at least the
    ceiling minus the counter (lemma [util_total] below). *)
Fixpoint util (fuel : nat) (u : node) : ST search unit :=
  fun s0 =>
  let s1 := set_count s0 (util_call_count s0 + 1)%Z in
  if (util_call_count s1 >? ceiling)%Z then (set_overflow s1 true, Ok tt) else
  match fuel with
  | O => (s1, Raise OutOfFuel)
  | S fuel' =>
    let s2 := set_sg s1 (mark u (sg s1)) in
    let s3 := set_furthest s2 (if (index u >? furthest_index s2)%Z then index u
                               else furthest_index s2) in
    let body : ST search unit :=
      if node_eqb u (END_NODE (sg s3)) then
        fun s =>
          let b := candidate_buffer s in
          let complete_candidate := solidify (copy_candidate b) in
          let s' := set_candidates s (candidates s ++ [complete_candidate]) in
          (if (Z.of_nat (length b) <? min_length s')%Z
           then set_min_length s' (Z.of_nat (length b)) else s', Ok tt)
      else if (Z.of_nat (length (candidate_buffer s3)) <? min_length s3)%Z then
        for_each (to_arcs (sg s3) u) (fun k =>
          fun s =>
            let g := sg s in
            match arc_count g k with
            | Raise e => (s, Raise e)
            | Ok cnt =>
              let s' := set_buffer s (update g k cnt (candidate_buffer s)) in
              let '(s'', r) :=
                if is_visited g (to_node k) then (s', Ok tt)
                else util fuel' (to_node k) s' in
              match r with
              | Raise e => (s'', Raise e)
              | Ok _ =>
                match pop (sg s'') (candidate_buffer s'') with
                | Raise e => (s'', Raise e)
                | Ok b => (set_buffer s'' b, Ok tt)
                end
              end
            end)
      else ret tt in
    match body s3 with
    | (s4, Raise e) => (s4, Raise e)
    | (s4, Ok _) => (set_sg s4 (unmark u (sg s4)), Ok tt)
    end
  end.

(** Result of [find_all_paths]: a candidate list or an error code. *)
Inductive paths := Paths (cs : list candidate) | ErrCode (z : Z).

Definition reset_visited (g : lattice) : lattice :=
  set_visited g (filter (fun v => negb (existsb (node_eqb v) (nodes g))) (visited g)).

(** One search attempt: reset the flags and run [util] from START. *)
Definition attempt : ST search unit :=
  fun s =>
    let s1 := set_buffer (set_sg s (reset_visited (sg s))) empty_candidate in
    util (Z.to_nat ceiling) (START_NODE (sg s1)) s1.

(** The [while] loop of [find_all_paths]; [last_furthest_index] stays [-1]. *)
Fixpoint search_loop (fuel : nat) : ST search paths :=
  fun s =>
  let last_furthest_index := (-1)%Z in
  if ((furthest_index s <? Z.of_nat (String.length (letters (sg s))))%Z
      && negb (overflow s)) then
    if (furthest_index s =? last_furthest_index)%Z then (s, Ok (ErrCode NO_PATHS_FOUND))
    else
    match fuel with
    | O => (s, Raise OutOfFuel)
    | S fuel' =>
      match attempt s with
      | (s1, Raise e) => (s1, Raise e)
      | (s1, Ok _) =>
        match candidates s1 with
        | _ :: _ => search_loop fuel' s1
        | [] =>
          match link_silences (furthest_index s1) (sg s1) with
          | (g2, Raise e) => (set_sg s1 g2, Raise e)
          | (g2, Ok _) => search_loop fuel' (set_sg s1 g2)
          end
        end
      end
    end
  else if overflow s then (s, Ok (ErrCode SEARCHED_TOO_LONG))
  else (s, Ok (Paths (candidates s))).

Definition find_all_paths : ST lattice paths :=
  fun g =>
  match link_unrepresented g with
  | (g1, Raise e) => (g1, Raise e)
  | (g1, Ok _) =>
    let s0 := Search g1 maxsize 0 0 false [] empty_candidate in
    let '(s, r) := search_loop (Z.to_nat ceiling + 2) s0 in
    (sg s, r)
  end.

(** ** Heuristic scoring *)

(** Candidate objects handed to [decide], by reference. *)
Definition heap := list candidate.

Fixpoint list_set {A} (l : list A) (n : nat) (x : A) : list A :=
  match l, n with
  | [], _ => []
  | _ :: t, O => x :: t
  | y :: t, S n' => y :: list_set t n' x
  end.

Definition deref (r : nat) : ST heap candidate :=
  fun h => match nth_error h r with
           | Some c => (h, Ok c)
           | None => (h, Raise Dangling)
           end.

(** [candidates[i].<field> = ...] *)
Definition set_field (r : nat) (f : candidate -> candidate) : ST heap unit :=
  c <- deref r ;; modify (fun h => list_set h r (f c)).

Definition with_arc_count_product (v : nat) (c : candidate) : candidate :=
  Candidate (path c) (c_arcs c) (path_strings c) (pronunciation c)
    (arc_count_sum c) v (sum_of_products c) (frequency_of_same_pronunciation c)
    (length c) (path_structure_standard_deviation c) (weakest_link c)
    (number_of_different_symbols c).
Definition with_psd (v : R) (c : candidate) : candidate :=
  Candidate (path c) (c_arcs c) (path_strings c) (pronunciation c)
    (arc_count_sum c) (arc_count_product c) (sum_of_products c)
    (frequency_of_same_pronunciation c) (length c) v (weakest_link c)
    (number_of_different_symbols c).
Definition with_frequency (v : nat) (c : candidate) : candidate :=
  Candidate (path c) (c_arcs c) (path_strings c) (pronunciation c)
    (arc_count_sum c) (arc_count_product c) (sum_of_products c) v
    (length c) (path_structure_standard_deviation c) (weakest_link c)
    (number_of_different_symbols c).
Definition with_sum_of_products (v : nat) (c : candidate) : candidate :=
  Candidate (path c) (c_arcs c) (path_strings c) (pronunciation c)
    (arc_count_sum c) (arc_count_product c) v (frequency_of_same_pronunciation c)
    (length c) (path_structure_standard_deviation c) (weakest_link c)
    (number_of_different_symbols c).
Definition with_different_symbols (v : nat) (c : candidate) : candidate :=
  Candidate (path c) (c_arcs c) (path_strings c) (pronunciation c)
    (arc_count_sum c) (arc_count_product c) (sum_of_products c)
    (frequency_of_same_pronunciation c) (length c)
    (path_structure_standard_deviation c) (weakest_link c) v.
Definition with_weakest_link (v : nat) (c : candidate) : candidate :=
  Candidate (path c) (c_arcs c) (path_strings c) (pronunciation c)
    (arc_count_sum c) (arc_count_product c) (sum_of_products c)
    (frequency_of_same_pronunciation c) (length c)
    (path_structure_standard_deviation c) v (number_of_different_symbols c).

Fixpoint res_map {A B} (f : A -> res B) (l : list A) : res (list B) :=
  match l with
  | [] => Ok []
  | x :: l' => match f x with
               | Raise e => Raise e
               | Ok y => match res_map f l' with
                         | Raise e => Raise e
                         | Ok ys => Ok (y :: ys)
                         end
               end
  end.

(** [math.prod] *)
Definition prod (l : list nat) : nat := fold_right Nat.mul 1%nat l.

(** [min] of a list of counts. *)
Definition py_min (l : list nat) : res nat :=
  match l with
  | [] => Raise ValueError
  | x :: l' => Ok (fold_left Nat.min l' x)
  end.

Definition sumR (l : list R) : R := fold_right Rplus 0%R l.

(** [statistics.stdev]: the sample standard deviation. *)
Definition stdev (data : list Z) : res R :=
  let n := List.length data in
  if (n <? 2)%nat then Raise StatisticsError
  else
    let xs := map IZR data in
    let xbar := (sumR xs / INR n)%R in
    Ok (sqrt (sumR (map (fun x => (x - xbar) * (x - xbar)) xs) / INR (n - 1)))%R.

(** The population standard deviation ([statistics.pstdev]). *)
Definition pstdev (data : list Z) : R :=
  let n := List.length data in
  let xs := map IZR data in
  let xbar := (sumR xs / INR n)%R in
  sqrt (sumR (map (fun x => (x - xbar) * (x - xbar)) xs) / INR n)%R.

(** A dict with string keys: [d[k] = d.get(k, 0) + v]. *)
Fixpoint dict_add (k : string) (v : nat) (d : list (string * nat)) : list (string * nat) :=
  match d with
  | [] => [(k, v)]
  | (k', v') :: d' => if String.eqb k k' then (k', (v' + v)%nat) :: d'
                      else (k', v') :: dict_add k v d'
  end.

Fixpoint dict_get (k : string) (d : list (string * nat)) : res nat :=
  match d with
  | [] => Raise KeyError
  | (k', v) :: d' => if String.eqb k k' then Ok v else dict_get k d'
  end.

(** [get_frequencies_by_pronunciation(candidate_list)] *)
Definition get_frequencies_by_pronunciation (cands : list nat)
    : ST heap (list (string * nat) * list (string * nat)) :=
  (fix go (l : list nat) (rc sp : list (string * nat)) :=
     match l with
     | [] => ret (rc, sp)
     | r :: l' =>
         c <- deref r ;;
         go l' (dict_add (pronunciation c) 1 rc)
               (dict_add (pronunciation c) (arc_count_product c) sp)
     end) cands [] [].

(** Position-by-position mismatches of [p] against [q] ([q[j]] may raise). *)
Definition mismatches (p q : string) : res nat :=
  (fix go (j : nat) (cs : list ascii) (acc : nat) :=
     match cs with
     | [] => Ok acc
     | ch :: cs' =>
         match py_index q (Z.of_nat j) with
         | Raise e => Raise e
         | Ok s => go (S j) cs'
                     (if String.eqb (String ch EmptyString) s then acc else S acc)
         end
     end) 0%nat (list_ascii_of_string p) 0%nat.

(** [compute_heuristics(candidates)] *)
Definition compute_heuristics (g : lattice) (cands : list nat) : ST heap unit :=
  (* 1. Maximum arc count product *)
  for_each cands (fun r =>
    c <- deref r ;;
    counts <- lift_res (res_map (arc_count g) (c_arcs c)) ;;
    set_field r (with_arc_count_product (prod counts))) ;;
  freqs <- get_frequencies_by_pronunciation cands ;;
  let '(pronunciation_to_repeat_count, pronunciation_to_sum_of_product) := freqs in
  for_each (seq 0 (List.length cands)) (fun i =>
    let r := nth i cands 0%nat in
    c <- deref r ;;
    let p := pronunciation c in
    (* 2. Minimum standard deviation *)
    sd <- lift_res (stdev (map structure_component (c_arcs c))) ;;
    set_field r (with_psd sd) ;;
    (* 3. Maximum frequency of the same pronunciation, and sum of products *)
    fr <- lift_res (dict_get p pronunciation_to_repeat_count) ;;
    set_field r (with_frequency fr) ;;
    sop <- lift_res (dict_get p pronunciation_to_sum_of_product) ;;
    set_field r (with_sum_of_products sop) ;;
    (* 4. Minimum number of different symbols *)
    let other_candidates := firstn i cands ++ skipn (S i) cands in
    nds <- (fix go (l : list nat) (acc : nat) : ST heap nat :=
              match l with
              | [] => ret acc
              | o :: l' =>
                  oc <- deref o ;;
                  m <- lift_res (mismatches p (pronunciation oc)) ;;
                  go l' (acc + m)%nat
              end) other_candidates 0%nat ;;
    set_field r (with_different_symbols nds) ;;
    (* 5. Maximum weakest link *)
    c' <- deref r ;;
    counts <- lift_res (res_map (arc_count g)
                (filter (fun k => negb (contains k (boundary g))) (c_arcs c'))) ;;
    wl <- lift_res (py_min counts) ;;
    set_field r (with_weakest_link wl)).

(** ** Rank fusion *)

(** Attribute value of a referenced candidate.  Every reference reaching the
    ranking has already been dereferenced by [compute_heuristics], so the
    default object is never read. *)
Definition attr_of (h : heap) (attr : candidate -> R) (r : nat) : R :=
  attr (nth r h empty_candidate).

Definition Rleb (x y : R) : bool := if Rle_dec x y then true else false.
Definition Reqb (x y : R) : bool := if Req_dec_T x y then true else false.
Definition Rltb (x y : R) : bool := if Rlt_dec x y then true else false.

(** [list.sort(key=..., reverse=descending)]: a stable insertion sort. *)
Fixpoint insert_by (key : nat -> R) (descending : bool) (x : nat) (l : list nat) : list nat :=
  match l with
  | [] => [x]
  | y :: l' =>
      if (if descending then Rleb (key y) (key x) else Rleb (key x) (key y))
      then x :: y :: l'
      else y :: insert_by key descending x l'
  end.

Definition sort_by (key : nat -> R) (descending : bool) (l : list nat) : list nat :=
  fold_right (insert_by key descending) [] l.

(** A dict keyed by candidate objects: assignment keeps the first position. *)
Fixpoint dset {V} (k : nat) (v : V) (d : list (nat * V)) : list (nat * V) :=
  match d with
  | [] => [(k, v)]
  | (k', v') :: d' => if Nat.eqb k k' then (k', v) :: d' else (k', v') :: dset k v d'
  end.

Fixpoint dget {V} (k : nat) (d : list (nat * V)) : option V :=
  match d with
  | [] => None
  | (k', v) :: d' => if Nat.eqb k k' then Some v else dget k d'
  end.

(** [rank_by_heuristic(candidates, attribute, descending)]: sorts the list in
    place and returns it with the competition ranks. *)
Definition rank_by_heuristic (h : heap) (cands : list nat) (attr : candidate -> R)
    (descending : bool) : res (list nat * list (nat * nat)) :=
  let key := attr_of h attr in
  let sorted := sort_by key descending cands in
  match sorted with
  | [] => Raise IndexError
  | c0 :: _ =>
    let '(m, _, _, _) :=
      fold_left (fun '(m, prev, rank, at_prev) c =>
                   let curr := key c in
                   let '(rank', at_prev') :=
                     if Reqb prev curr then (rank, at_prev) else ((rank + at_prev)%nat, 0%nat) in
                   (dset c rank' m, curr, rank', S at_prev'))
        sorted ([], key c0, 1%nat, 0%nat) in
    Ok (sorted, m)
  end.

(** [rank_to_score(candidate_to_rank_map)]: Borda points, ties sharing. *)
Definition rank_to_score (m : list (nat * nat)) : res (list (nat * R)) :=
  let first := List.length m in
  let '(rank_to_points, _, _, _, _) :=
    fold_left (fun '(rtp, n, prev_rank, buf, at_rank) (rank : nat) =>
                 let '(buf', at_rank') :=
                   if (prev_rank =? Z.of_nat rank)%Z
                   then ((buf + INR first - INR n)%R, S at_rank)
                   else ((INR first - INR n)%R, 1%nat) in
                 (dset rank (buf' / INR at_rank')%R rtp, S n, Z.of_nat rank, buf', at_rank'))
      (map snd m) ([], 0%nat, (-1)%Z, 0%R, 0%nat) in
  res_map (fun '(c, rank) => match dget rank rank_to_points with
                             | Some p => Ok (c, p)
                             | None => Raise KeyError
                             end) m.

(** The five heuristics and their preferred directions. *)
Definition heuristic_attrs : list ((candidate -> R) * bool) :=
  [ (fun c => INR (arc_count_product c), true);
    (path_structure_standard_deviation, false);
    (fun c => INR (frequency_of_same_pronunciation c), true);
    (fun c => INR (number_of_different_symbols c), false);
    (fun c => INR (weakest_link c), true) ].

(** [itertools.product([0, 1], repeat=5)] *)
Definition strategies : list (list bool) :=
  flat_map (fun b0 => flat_map (fun b1 => flat_map (fun b2 => flat_map (fun b3 =>
    map (fun b4 => [b0; b1; b2; b3; b4]) [false; true]) [false; true]) [false; true])
    [false; true]) [false; true].

Definition label_of (strategy : list bool) : string :=
  String.concat ""%string (map (fun b : bool => if b then "1"%string else "0"%string) strategy).

(** [max(totals, key=totals.get)]: the first key of maximal value. *)
Definition dict_argmax (d : list (nat * R)) : res nat :=
  match d with
  | [] => Raise ValueError
  | (k0, v0) :: d' =>
      Ok (fst (fold_left (fun '(bk, bv) '(k, v) => if Rltb bv v then (k, v) else (bk, bv))
                 d' (k0, v0)))
  end.

(** The products of one fusion strategy. *)
Definition fusion_totals (cands : list nat) (columns : list (list (nat * R)))
    (strategy : list bool) : res (list (nat * R)) :=
  fold_left (fun acc '(bit, column) =>
     match acc with
     | Raise e => Raise e
     | Ok totals =>
       if negb bit then Ok totals else
       fold_left (fun acc' c =>
          match acc' with
          | Raise e => Raise e
          | Ok t =>
            match dget c column with
            | None => Raise KeyError
            | Some pts =>
              let prev := match dget c t with Some v => v | None => 1%R end in
              Ok (dset c (prev * pts)%R t)
            end
          end) cands (Ok totals)
     end) (combine strategy columns) (Ok []).

(** [rank_by_heuristics(candidates)]: the list after its five in-place sorts,
    and the winner of each of the 31 fusions. *)
Definition rank_by_heuristics (h : heap) (cands : list nat)
    : res (list nat * list (string * nat)) :=
  let ranked :=
    fold_left (fun acc '(attr, desc) =>
       match acc with
       | Raise e => Raise e
       | Ok (l, maps) =>
         match rank_by_heuristic h l attr desc with
         | Raise e => Raise e
         | Ok (l', m) => Ok (l', maps ++ [m])
         end
       end) heuristic_attrs (Ok (cands, [])) in
  match ranked with
  | Raise e => Raise e
  | Ok (sorted, maps) =>
    match res_map rank_to_score maps with
    | Raise e => Raise e
    | Ok columns =>
      match res_map (fun strategy =>
                       match fusion_totals sorted columns strategy with
                       | Raise e => Raise e
                       | Ok totals =>
                         match dict_argmax totals with
                         | Raise e => Raise e
                         | Ok best => Ok (label_of strategy, best)
                         end
                       end) (tl strategies) with
      | Raise e => Raise e
      | Ok labelled => Ok (sorted, labelled)
      end
    end
  end.

(** ** [Lattice.decide] *)

(** What [decide] is passed: [None], an integer, or a list of candidates. *)
Inductive decide_input := InNone | InCode (z : Z) | InList (rs : list nat).

(** What [decide] returns: [None], an error code, or the labelled winners. *)
Inductive decision := NoDecision | DErrCode (z : Z) | Labelled (m : list (string * nat)).

(** [func_by_attribute(list_, attribute, func)], [func] being [min] when
    [is_min] and [max] otherwise. *)
Definition func_by_attribute (l : list nat) (attr : candidate -> Z) (is_min : bool)
    : ST heap (list nat) :=
  h <- get ;;
  vals <- lift_res (res_map (fun r => match nth_error h r with
                                      | Some c => Ok (r, attr c)
                                      | None => Raise Dangling
                                      end) l) ;;
  match vals with
  | [] => throw ValueError
  | (r0, v0) :: vs =>
    let attr_val :=
      snd (fold_left (fun '(br, bv) '(r, v) =>
                        if (if is_min then (v <? bv)%Z else (bv <? v)%Z)
                        then (r, v) else (br, bv)) vs (r0, v0)) in
    ret (map fst (filter (fun rv => Z.eqb (snd rv) attr_val) vals))
  end.

Definition first_of (l : list nat) : res nat :=
  match l with
  | r :: _ => Ok r
  | [] => Raise IndexError
  end.

Definition decide (g : lattice) (input : decide_input) : ST heap decision :=
  match input with
  | InNone => ret NoDecision
  | InCode z =>
      if existsb (Z.eqb z) ERRORS then ret (DErrCode z) else throw TypeError
  | InList [] => ret NoDecision
  | InList rs =>
    min_lengths <- func_by_attribute rs (fun c => Z.of_nat (length c)) true ;;
    match min_lengths with
    | [r] => ret (Labelled [("min_length"%string, r)])
    | _ =>
      compute_heuristics g min_lengths ;;
      h <- get ;;
      rb <- lift_res (rank_by_heuristics h min_lengths) ;;
      let '(sorted, results) := rb in
      sops <- func_by_attribute sorted (fun c => Z.of_nat (sum_of_products c)) false ;;
      sop <- lift_res (first_of sops) ;;
      acss <- func_by_attribute sorted arc_count_sum false ;;
      acs <- lift_res (first_of acss) ;;
      ret (Labelled (results ++ [("sum_of_products"%string, sop);
                                 ("arc_count_sum"%string, acs)]))
    end
  end.

(** ** Example lattices *)

(** [attempt] with the fuel of its [util] call as a parameter. *)
Definition attempt_with (n : nat) : ST search unit :=
  fun s =>
    let s1 := set_buffer (set_sg s (reset_visited (sg s))) empty_candidate in
    util n (START_NODE (sg s1)) s1.

(** The word "ab" with the single correspondence "a" -> "x" at index 0: no
    node sits at index 1, so no repair by [link_silences] can move the search
    past index 0. *)
Definition stuck_lattice : lattice := run (add "a" "x" 0) (init "ab").

(** The search state between two attempts on [stuck_lattice], after [c]
    calls of [util]. *)
Definition stuck_state (c : Z) : search :=
  Search stuck_lattice maxsize 0 c false [] empty_candidate.

(** [stuck_state c] once the ceiling is passed. *)
Definition stuck_state_over : search :=
  Search stuck_lattice maxsize 0 (ceiling + 1) true [] empty_candidate.

(** ** Minimal-length references *)

(** Length of a referenced candidate. *)
Definition ref_length (h : heap) (r : nat) : option nat := option_map length (nth_error h r).

(** [r] refers to a candidate no longer than any candidate referenced by [rs]. *)
Definition is_min_ref (h : heap) (rs : list nat) (r : nat) : bool :=
  match ref_length h r with
  | None => false
  | Some n =>
      forallb (fun r' => match ref_length h r' with
                         | Some n' => Nat.leb n n'
                         | None => false
                         end) rs
  end.

(** The fields of a candidate other than its six heuristic scores. *)
Definition same_identity (c c' : candidate) : Prop :=
  path c' = path c /\ c_arcs c' = c_arcs c /\ path_strings c' = path_strings c /\
  pronunciation c' = pronunciation c /\ arc_count_sum c' = arc_count_sum c /\
  length c' = length c.

(** ** Objects of the properties *)

(** [h'] differs from [h] only in the heuristic scores of the candidates at
    indices satisfying [P]. *)
Definition frame (P : nat -> Prop) (h h' : heap) : Prop :=
  List.length h' = List.length h /\
  forall i c, nth_error h i = Some c ->
    exists c', nth_error h' i = Some c' /\ same_identity c c' /\ (c' = c \/ P i).

(** [m] raises from every state [P] holds of. *)
Definition raises_from {S A} (P : S -> Prop) (m : ST S A) : Prop :=
  forall s, P s -> exists e, snd (m s) = Raise e.

(** The score [path_structure_standard_deviation] of the candidate at [r] is
    [statistics.stdev] of its arc spans. *)
Definition psd_ok (r : nat) (h : heap) : Prop :=
  exists c, nth_error h r = Some c /\
    stdev (map structure_component (c_arcs c)) = Ok (path_structure_standard_deviation c).

Definition psd_kept (h h' : heap) : Prop := forall r, psd_ok r h -> psd_ok r h'.

(** ** Example inputs *)

(** A candidate of a given length with no path. *)
Definition cand_of_length (n : nat) : candidate :=
  Candidate [] [] [] "" 0 1 0 1 n 0%R 0 0.

(** The word "a" with two pronunciations of its letter; the END connectors
    come from spans "ba" at start index -1, since a span at index 0
    reaching the last letter gets none. *)
Definition one_letter_lattice : lattice :=
  run (add "a" "x" 0 ;; add "a" "y" 0 ;; add "ba" "zx" (-1) ;; add "ba" "zy" (-1)) (init "a").
Definition one_letter_start : search := Search one_letter_lattice maxsize 0 0 false [] empty_candidate.
Definition one_letter_candidates : list candidate :=
  candidates (fst (attempt_with 3 one_letter_start)).

(** The word "abc" read "xyz" or "xwz": arc spans 1, 2 and 1. *)
Definition span_lattice : lattice :=
  run (add "abc" "xyz" 0 ;; add "abc" "xwz" 0 ;; add "bc" "yz" 1) (init "abc").
Definition span_start : search := Search span_lattice maxsize 0 0 false [] empty_candidate.
Definition span_candidates : list candidate := candidates (fst (attempt_with 4 span_start)).

(** The word "ab" with two pronunciations and no END connector, searched
    with three recursive steps left before the ceiling. *)
Definition overflow_lattice : lattice := run (add "ab" "xy" 0 ;; add "ab" "xz" 0) (init "ab").
Definition overflow_start : search :=
  Search overflow_lattice maxsize 0 (ceiling - 3) false [] empty_candidate.

(** * Properties *)

(** ** Relations preserved by monadic code *)

Section Preserves.
Context {S : Type} (R : S -> S -> Prop).
Hypothesis R_refl : forall s, R s s.
Hypothesis R_trans : forall s1 s2 s3, R s1 s2 -> R s2 s3 -> R s1 s3.

Definition preserves {A} (m : ST S A) : Prop := forall s, R s (fst (m s)).

Lemma ret_preserves {A} (a : A) : preserves (ret a).
Proof. intros s; apply R_refl. Qed.

Lemma throw_preserves {A} e : preserves (@throw S A e).
Proof. intros s; apply R_refl. Qed.

Lemma get_preserves : preserves get.
Proof. intros s; apply R_refl. Qed.

Lemma lift_res_preserves {A} (r : res A) : preserves (lift_res r).
Proof. intros s; apply R_refl. Qed.

Lemma bind_preserves {A B} (m : ST S A) (k : A -> ST S B) :
  preserves m -> (forall a, preserves (k a)) -> preserves (bind m k).
Proof.
  intros Hm Hk s; unfold bind; specialize (Hm s).
  destruct (m s) as [s' [a|e]]; simpl in *; [|exact Hm].
  eapply R_trans; [exact Hm | apply Hk].
Qed.

Lemma for_each_preserves {A} (xs : list A) (body : A -> ST S unit) :
  (forall x, In x xs -> preserves (body x)) -> preserves (for_each xs body).
Proof.
  induction xs as [|x xs IH]; intros H; simpl.
  - apply ret_preserves.
  - apply bind_preserves; [apply H; left; reflexivity|].
    intros _; apply IH; intros y Hy; apply H; right; exact Hy.
Qed.
End Preserves.

Create HintDb preserves.
#[export] Hint Resolve ret_preserves throw_preserves get_preserves lift_res_preserves
  : preserves.

(** ** Arc counts never decrease *)

Definition arcs_le (g g' : lattice) : Prop :=
  forall k c, arc_lookup k (arcs g) = Some c ->
    exists c', arc_lookup k (arcs g') = Some c' /\ (c <= c')%nat.

Lemma arcs_le_refl g : arcs_le g g.
Proof. intros k c H; exists c; split; [exact H | lia]. Qed.

Lemma arcs_le_trans g1 g2 g3 : arcs_le g1 g2 -> arcs_le g2 g3 -> arcs_le g1 g3.
Proof.
  intros H12 H23 k c H.
  destruct (H12 k c H) as [c2 [H2 Hle2]]; destruct (H23 k c2 H2) as [c3 [H3 Hle3]].
  exists c3; split; [exact H3 | lia].
Qed.

Lemma arc_lookup_app k st1 st2 :
  arc_lookup k (st1 ++ st2) =
  match arc_lookup k st1 with Some c => Some c | None => arc_lookup k st2 end.
Proof.
  induction st1 as [|[k' c'] st1 IH]; simpl; [reflexivity|].
  destruct (arc_eqb k k'); [reflexivity | exact IH].
Qed.

Lemma arc_lookup_set k k' c st :
  arc_lookup k (arc_set k' c st) =
  if arc_eqb k k' then (match arc_lookup k st with Some _ => Some c | None => None end)
  else arc_lookup k st.
Proof.
  induction st as [|[k'' c''] st IH]; simpl.
  - destruct (arc_eqb k k'); reflexivity.
  - destruct (arc_eqb k' k'') eqn:E1.
    + apply arc_eqb_eq in E1; subst k''; simpl.
      destruct (arc_eqb k k') eqn:E2; reflexivity.
    + simpl; rewrite IH.
      destruct (arc_eqb k k'') eqn:E2, (arc_eqb k k') eqn:E3; try reflexivity.
      apply arc_eqb_eq in E2, E3; subst k'' k'.
      rewrite (proj2 (arc_eqb_eq k k) eq_refl) in E1; discriminate.
Qed.

Lemma create_or_iterate_arc_le inter a b : preserves arcs_le (create_or_iterate_arc inter a b).
Proof.
  intros g; unfold create_or_iterate_arc; simpl.
  destruct (arc_lookup (Arc inter a b) (arcs g)) as [c|] eqn:Hl; simpl;
    unfold set_arcs; intros k c0 Hk; cbn [arcs].
  - rewrite arc_lookup_set.
    destruct (arc_eqb k (Arc inter a b)) eqn:E.
    + apply arc_eqb_eq in E; subst k; rewrite Hk in Hl; injection Hl as ->.
      rewrite Hk; eexists; split; [reflexivity|].
      destruct (contains _ _); lia.
    + rewrite Hk; exists c0; split; [reflexivity | lia].
  - rewrite arc_lookup_app, Hk; exists c0; split; [reflexivity | lia].
Qed.

Lemma create_or_find_node_le l p i : preserves arcs_le (create_or_find_node l p i).
Proof.
  intros g; unfold create_or_find_node; simpl.
  destruct (existsb _ _); simpl; intros k c H; exists c; (split; [exact H | lia]).
Qed.

#[export] Hint Resolve arcs_le_refl arcs_le_trans create_or_iterate_arc_le
  create_or_find_node_le : preserves.

Ltac preserves_step :=
  repeat first
    [ solve [eauto with preserves]
    | apply bind_preserves; [exact arcs_le_trans| |intro]
    | apply for_each_preserves; [exact arcs_le_refl|exact arcs_le_trans|intros ? ?]
    | match goal with |- preserves _ (if ?b then _ else _) => destruct b end ].

Lemma add_le L P s : preserves arcs_le (add L P s).
Proof.
  unfold add. preserves_step.
Qed.

#[export] Hint Resolve add_le : preserves.

Lemma link_silences_le furthest : preserves arcs_le (link_silences furthest).
Proof. unfold link_silences; cbv zeta; preserves_step. Qed.

Lemma link_unrepresented_le : preserves arcs_le link_unrepresented.
Proof.
  unfold link_unrepresented; cbv zeta; preserves_step.
Qed.

Lemma flag_unrepresented_bigrams_le w db : preserves arcs_le (flag_unrepresented_bigrams w db).
Proof. intros g k c H; exists c; split; [exact H | lia]. Qed.

(** ** Frame of the recursive search step [util] *)

(** [util] leaves the graph alone apart from the visited flags, and only
    raises the step counter and the furthest index. *)
Definition util_inv (s s' : search) : Prop :=
  letters (sg s') = letters (sg s) /\ nodes (sg s') = nodes (sg s) /\
  arcs (sg s') = arcs (sg s) /\
  unrepresented_bigrams (sg s') = unrepresented_bigrams (sg s) /\
  (furthest_index s <= furthest_index s')%Z /\
  (util_call_count s <= util_call_count s')%Z.

Lemma util_inv_refl s : util_inv s s.
Proof. repeat split; lia. Qed.

Lemma util_inv_trans s1 s2 s3 : util_inv s1 s2 -> util_inv s2 s3 -> util_inv s1 s3.
Proof.
  unfold util_inv; intros (H1 & H2 & H3 & H4 & H5 & H6) (H1' & H2' & H3' & H4' & H5' & H6').
  repeat split; try congruence; lia.
Qed.

Ltac inv_solve :=
  unfold util_inv, set_sg, set_min_length, set_furthest, set_count, set_overflow,
    set_candidates, set_buffer, mark, unmark, set_visited; simpl;
  repeat split;
  repeat match goal with
         | |- context [if (?a >? ?b)%Z then _ else _] =>
             let E := fresh in destruct (a >? b)%Z eqn:E; [apply Z.gtb_lt in E|]
         end; lia.

Lemma util_inv_holds fuel : forall u s, util_inv s (fst (util fuel u s)).
Proof.
  induction fuel as [|fuel IH]; intros u s; simpl.
  - destruct (_ >? ceiling)%Z; simpl; inv_solve.
  - destruct (_ >? ceiling)%Z eqn:Hc; simpl.
    { inv_solve. }
    set (s3 := set_furthest _ _).
    assert (H3 : util_inv s s3).
    { unfold s3; inv_solve. }
    assert (Hb : forall (m : ST search unit), preserves util_inv m ->
      util_inv s (fst (let (s4, r) := m s3 in
                       match r with
                       | Ok _ => (set_sg s4 (unmark u (sg s4)), Ok tt)
                       | Raise e => (s4, Raise e) end))).
    { intros m Hm; specialize (Hm s3).
      destruct (m s3) as [s4 [x|e]]; simpl in *.
      - eapply util_inv_trans; [exact H3|]; eapply util_inv_trans; [exact Hm|].
        inv_solve.
      - eapply util_inv_trans; eassumption. }
    apply Hb.
    destruct (node_eqb u _).
    + intros s'; simpl.
      destruct (_ <? _)%Z; inv_solve.
    + destruct (_ <? _)%Z; [|apply ret_preserves, util_inv_refl].
      apply for_each_preserves; [exact util_inv_refl | exact util_inv_trans|].
      intros k _ s'.
      destruct (arc_count (sg s') k) as [cnt|e]; [|apply util_inv_refl].
      set (s'' := set_buffer s' _).
      assert (H'' : util_inv s' s'') by (unfold s''; inv_solve).
      destruct (if is_visited _ _ then _ else _) as [t r] eqn:E.
      assert (Ht : util_inv s'' t).
      { destruct (is_visited _ _).
        - injection E as <- <-; apply util_inv_refl.
        - pose proof (IH (to_node k) s'') as Hi; rewrite E in Hi; exact Hi. }
      destruct r as [x|e]; simpl.
      * destruct (pop _ _) as [b|e]; simpl.
        -- eapply util_inv_trans; [exact H''|]; eapply util_inv_trans; [exact Ht|].
           inv_solve.
        -- exact (util_inv_trans _ _ _ H'' Ht).
      * exact (util_inv_trans _ _ _ H'' Ht).
Qed.

(** A loop whose every step succeeds, keeps [P] and advances along [R]. *)
Lemma for_each_ok {S A} (P : S -> Prop) (R : S -> S -> Prop) (xs : list A)
    (body : A -> ST S unit) :
  (forall s, R s s) -> (forall s1 s2 s3, R s1 s2 -> R s2 s3 -> R s1 s3) ->
  (forall x s, In x xs -> P s ->
     snd (body x s) = Ok tt /\ P (fst (body x s)) /\ R s (fst (body x s))) ->
  forall s, P s ->
    snd (for_each xs body s) = Ok tt /\ P (fst (for_each xs body s)) /\
    R s (fst (for_each xs body s)).
Proof.
  intros Hrefl Htrans Hbody; induction xs as [|x xs IH]; intros s Hs; simpl.
  - auto.
  - unfold bind. destruct (Hbody x s (or_introl eq_refl) Hs) as (Hok & HP & HR).
    destruct (body x s) as [s1 r1]; simpl in *; subst r1.
    assert (IH' := IH (fun y s' Hy => Hbody y s' (or_intror Hy)) s1 HP).
    destruct IH' as (Hok' & HP' & HR'); repeat split; auto; eauto.
Qed.

Lemma in_to_arcs_count g u k : In k (to_arcs g u) -> exists c, arc_count g k = Ok c.
Proof.
  unfold to_arcs, arc_count; intros H; apply filter_In in H as [H _].
  apply in_map_iff in H as [[k' c] [Hk Hin]]; simpl in Hk; subst k'.
  induction (arcs g) as [|[k' c'] st IH]; simpl in *; [contradiction|].
  destruct (arc_eqb k k') eqn:E; [eauto|].
  destruct Hin as [Heq | Hin]; [|auto].
  injection Heq as -> ->; rewrite (proj2 (arc_eqb_eq k k) eq_refl) in E; discriminate.
Qed.

Lemma py_drop_last_snoc {A} (l : list A) x : py_drop_last 1 (l ++ [x]) = l.
Proof.
  unfold py_drop_last; rewrite length_app; simpl.
  replace (List.length l + 1 - 1)%nat with (List.length l) by lia.
  rewrite firstn_app, Nat.sub_diag, firstn_all; simpl; apply app_nil_r.
Qed.

Lemma incl_remove_node u l V : incl l (u :: V) -> incl (remove_node u l) V.
Proof.
  intros H v Hv; unfold remove_node in Hv; apply filter_In in Hv as [Hv Hne].
  destruct (H v Hv) as [->|HV]; [|exact HV].
  rewrite (proj2 (node_eqb_eq v v) eq_refl) in Hne; discriminate.
Qed.

(** [util] succeeds, restores the visited flags (it may only clear some) and
    the arcs of the candidate buffer, whenever its fuel covers the ceiling. *)
Lemma util_ok fuel : forall u s,
  (Z.of_nat fuel + util_call_count s >= ceiling)%Z ->
  snd (util fuel u s) = Ok tt /\
  incl (visited (sg (fst (util fuel u s)))) (visited (sg s)) /\
  c_arcs (candidate_buffer (fst (util fuel u s))) = c_arcs (candidate_buffer s).
Proof.
  induction fuel as [|fuel IH]; intros u s Hf; simpl.
  - destruct (_ >? ceiling)%Z eqn:Hc; [simpl; split; [reflexivity | split; [apply incl_refl | reflexivity]]|].
    rewrite Z.gtb_ltb, Z.ltb_ge in Hc; lia.
  - destruct (_ >? ceiling)%Z eqn:Hc.
    { simpl; split; [reflexivity | split; [apply incl_refl | reflexivity]]. }
    rewrite Z.gtb_ltb, Z.ltb_ge in Hc.
    set (s3 := set_furthest _ _).
    set (P := fun s0 : search => arcs (sg s0) = arcs (sg s3) /\
                                 (util_call_count s3 <= util_call_count s0)%Z).
    set (R := fun s0 s1 : search => incl (visited (sg s1)) (visited (sg s0)) /\
                c_arcs (candidate_buffer s1) = c_arcs (candidate_buffer s0)).
    assert (Hb : forall (m : ST search unit),
      (snd (m s3) = Ok tt /\ R s3 (fst (m s3))) ->
      snd (let (s4, r) := m s3 in
           match r with
           | Ok _ => (set_sg s4 (unmark u (sg s4)), Ok tt)
           | Raise e => (s4, Raise e) end) = Ok tt /\
      incl (visited (sg (fst (let (s4, r) := m s3 in
           match r with
           | Ok _ => (set_sg s4 (unmark u (sg s4)), Ok tt)
           | Raise e => (s4, Raise e) end)))) (visited (sg s)) /\
      c_arcs (candidate_buffer (fst (let (s4, r) := m s3 in
           match r with
           | Ok _ => (set_sg s4 (unmark u (sg s4)), Ok tt)
           | Raise e => (s4, Raise e) end))) = c_arcs (candidate_buffer s)).
    { intros m [Hok [Hv Hbuf]]; destruct (m s3) as [s4 r]; simpl in *; subst r.
      split; [reflexivity|]; split; [|exact Hbuf].
      unfold unmark, set_visited; simpl; apply incl_remove_node.
      intros v Hv4; apply Hv in Hv4; unfold s3, mark, set_visited in Hv4; simpl in Hv4.
      destruct (is_visited (sg s) u); [right; exact Hv4 | exact Hv4]. }
    apply Hb; clear Hb.
    destruct (node_eqb u _).
    + simpl; destruct (_ <? _)%Z; (split; [reflexivity | split; [apply incl_refl | reflexivity]]).
    + destruct (_ <? _)%Z; [| simpl; split; [reflexivity | split; [apply incl_refl | reflexivity]]].
      assert (HP3 : P s3) by (split; [reflexivity | lia]).
      assert (Hrefl : forall s0, R s0 s0) by (intros s0; split; [apply incl_refl | reflexivity]).
      assert (Htrans : forall s1 s2 s5, R s1 s2 -> R s2 s5 -> R s1 s5).
      { intros s1 s2 s5 [H1 H2] [H3 H4]; split; [eapply incl_tran; eassumption | congruence]. }
      match goal with |- context [for_each ?xs ?body s3] =>
        assert (Hfe : forall x s0, In x xs -> P s0 ->
                  snd (body x s0) = Ok tt /\ P (fst (body x s0)) /\ R s0 (fst (body x s0)));
        [ | destruct (for_each_ok P R xs body Hrefl Htrans Hfe s3 HP3) as (Hok & _ & HR);
            split; assumption ]
      end.
      intros k s0 Hk [HA Hcnt]; cbv beta.
      destruct (in_to_arcs_count _ _ _ Hk) as [cnt Hcnt0].
      assert (Hc0 : arc_count (sg s0) k = Ok cnt) by (unfold arc_count in *; rewrite HA; exact Hcnt0).
      rewrite Hc0.
      set (s' := set_buffer s0 _).
      assert (Hinv : exists t, (if is_visited (sg s0) (to_node k) then (s', Ok tt)
                                else util fuel (to_node k) s') = (t, Ok tt) /\
                       util_inv s' t /\ incl (visited (sg t)) (visited (sg s')) /\
                       c_arcs (candidate_buffer t) = c_arcs (candidate_buffer s')).
      { destruct (is_visited (sg s0) (to_node k)).
        - exists s'; split; [reflexivity|]; split; [apply util_inv_refl|].
          split; [apply incl_refl | reflexivity].
        - assert (Hf' : (Z.of_nat fuel + util_call_count s' >= ceiling)%Z).
          { unfold s', set_buffer; simpl; unfold s3 in Hcnt; simpl in Hcnt; lia. }
          destruct (IH (to_node k) s' Hf') as (Hok & Hv & Hbuf).
          pose proof (util_inv_holds fuel (to_node k) s') as Hi.
          destruct (util fuel (to_node k) s') as [t r]; simpl in *; subst r.
          exists t; split; [reflexivity|]; split; [exact Hi|]; split; assumption. }
      destruct Hinv as (t & -> & (HL & HN & HA' & HU & HF & HC) & Hv & Hbuf).
      unfold pop.
      assert (Hbt : c_arcs (candidate_buffer t) = c_arcs (candidate_buffer s0) ++ [k])
        by (rewrite Hbuf; reflexivity).
      rewrite Hbt, rev_app_distr; simpl.
      assert (Hct : arc_count (sg t) k = Ok cnt)
        by (unfold arc_count in *; rewrite HA'; exact Hc0).
      rewrite Hct; simpl.
      unfold s', set_buffer in HA', HC, Hv; simpl in HA', HC, Hv.
      split; [reflexivity|]; split; [split|split]; unfold set_buffer; simpl.
      * rewrite HA'; exact HA.
      * unfold s3 in Hcnt; simpl in Hcnt; lia.
      * exact Hv.
      * apply py_drop_last_snoc.
Qed.

(** ** Visited flags *)

(** Every node of the store has its [visited] flag False. *)
Definition all_unvisited (g : lattice) : Prop :=
  forall n, In n (nodes g) -> ~ In n (visited g).

Definition keeps_unvisited (g g' : lattice) : Prop := all_unvisited g -> all_unvisited g'.

Lemma keeps_unvisited_refl g : keeps_unvisited g g.
Proof. intros H; exact H. Qed.

Lemma keeps_unvisited_trans g1 g2 g3 :
  keeps_unvisited g1 g2 -> keeps_unvisited g2 g3 -> keeps_unvisited g1 g3.
Proof. intros H12 H23 H; auto. Qed.

Lemma create_or_find_node_unvisited l p i :
  preserves keeps_unvisited (create_or_find_node l p i).
Proof.
  intros g Hg n Hn Hv; unfold create_or_find_node in *.
  destruct (existsb _ _); simpl in *; [exact (Hg n Hn Hv)|].
  unfold remove_node in Hv; apply filter_In in Hv as [Hv Hne].
  apply in_app_or in Hn as [Hn | [<- | []]]; [exact (Hg n Hn Hv)|].
  rewrite (proj2 (node_eqb_eq _ _) eq_refl) in Hne; discriminate.
Qed.

Lemma create_or_iterate_arc_unvisited inter a b :
  preserves keeps_unvisited (create_or_iterate_arc inter a b).
Proof.
  intros g Hg; unfold create_or_iterate_arc; destruct (arc_lookup _ _); exact Hg.
Qed.

#[export] Hint Resolve keeps_unvisited_refl keeps_unvisited_trans
  create_or_find_node_unvisited create_or_iterate_arc_unvisited : preserves.

Ltac preserves_unvisited :=
  repeat first
    [ solve [eauto with preserves]
    | apply bind_preserves; [exact keeps_unvisited_trans| |intro]
    | apply for_each_preserves;
        [exact keeps_unvisited_refl|exact keeps_unvisited_trans|intros ? ?]
    | match goal with |- preserves _ (if ?b then _ else _) => destruct b end ].

Lemma add_unvisited L P s : preserves keeps_unvisited (add L P s).
Proof. unfold add; preserves_unvisited. Qed.

#[export] Hint Resolve add_unvisited : preserves.

Lemma link_silences_unvisited furthest : preserves keeps_unvisited (link_silences furthest).
Proof. unfold link_silences; cbv zeta; preserves_unvisited. Qed.

Lemma link_unrepresented_unvisited : preserves keeps_unvisited link_unrepresented.
Proof. unfold link_unrepresented; cbv zeta; preserves_unvisited. Qed.

Lemma reset_visited_unvisited g : all_unvisited (reset_visited g).
Proof.
  intros n Hn Hv; unfold reset_visited in *; simpl in *.
  apply filter_In in Hv as [_ Hne].
  assert (existsb (node_eqb n) (nodes g) = true)
    by (apply existsb_exists; exists n; split; [exact Hn | apply node_eqb_eq; reflexivity]).
  rewrite H in Hne; discriminate.
Qed.

(** One attempt succeeds, leaves every node unvisited and the graph as it was. *)
Lemma attempt_ok s :
  (0 <= util_call_count s)%Z ->
  snd (attempt s) = Ok tt /\ all_unvisited (sg (fst (attempt s))) /\
  arcs (sg (fst (attempt s))) = arcs (sg s) /\
  letters (sg (fst (attempt s))) = letters (sg s) /\
  (furthest_index s <= furthest_index (fst (attempt s)))%Z /\
  (util_call_count s <= util_call_count (fst (attempt s)))%Z.
Proof.
  intros H0; unfold attempt.
  set (s1 := set_buffer _ _).
  assert (Hf : (Z.of_nat (Z.to_nat ceiling) + util_call_count s1 >= ceiling)%Z).
  { rewrite Z2Nat.id by (unfold ceiling; lia).
    change (util_call_count s1) with (util_call_count s); lia. }
  destruct (util_ok _ (START_NODE (sg s1)) s1 Hf) as (Hok & Hv & _).
  pose proof (util_inv_holds (Z.to_nat ceiling) (START_NODE (sg s1)) s1)
    as (HL & HN & HA & _ & HF & HC).
  split; [exact Hok|].
  change (arcs (sg s1)) with (arcs (sg s)) in HA.
  change (letters (sg s1)) with (letters (sg s)) in HL.
  change (nodes (sg s1)) with (nodes (sg s)) in HN.
  change (furthest_index s1) with (furthest_index s) in HF.
  change (util_call_count s1) with (util_call_count s) in HC.
  split; [|repeat split; assumption].
  intros n Hn Hvn; rewrite HN in Hn; apply Hv in Hvn.
  exact (reset_visited_unvisited (sg s) n Hn Hvn).
Qed.

(** The loop of [find_all_paths]: flags stay cleared, arc counts only grow,
    and the progress check never fires since the furthest index is never
    below zero. *)
Lemma search_loop_inv fuel : forall s,
  (0 <= furthest_index s)%Z -> (0 <= util_call_count s)%Z -> all_unvisited (sg s) ->
  all_unvisited (sg (fst (search_loop fuel s))) /\
  arcs_le (sg s) (sg (fst (search_loop fuel s))) /\
  snd (search_loop fuel s) <> Ok (ErrCode NO_PATHS_FOUND).
Proof.
  induction fuel as [|fuel IH]; intros s Hf0 Hc0 Hv0; cbn [search_loop].
  - destruct (_ && _); [|destruct (overflow s)].
    + destruct (_ =? _)%Z eqn:E; [apply Z.eqb_eq in E; lia|].
      simpl; split; [exact Hv0|]; split; [apply arcs_le_refl | discriminate].
    + simpl; split; [exact Hv0|]; split; [apply arcs_le_refl|].
      intros H; injection H; unfold SEARCHED_TOO_LONG, NO_PATHS_FOUND; lia.
    + simpl; split; [exact Hv0|]; split; [apply arcs_le_refl | discriminate].
  - destruct (_ && _); [|destruct (overflow s)].
    2: { simpl; split; [exact Hv0|]; split; [apply arcs_le_refl|].
         intros H; injection H; unfold SEARCHED_TOO_LONG, NO_PATHS_FOUND; lia. }
    2: { simpl; split; [exact Hv0|]; split; [apply arcs_le_refl | discriminate]. }
    destruct (_ =? _)%Z eqn:E; [apply Z.eqb_eq in E; lia|].
    destruct (attempt_ok s Hc0) as (Hok & Hv1 & HA1 & _ & HF1 & HC1).
    destruct (attempt s) as [s1 r1]; simpl in *; subst r1.
    assert (Hle1 : arcs_le (sg s) (sg s1)) by (intros k c' Hk; rewrite HA1; exists c'; split; [exact Hk | lia]).
    destruct (candidates s1) as [|c cs].
    + pose proof (link_silences_le (furthest_index s1) (sg s1)) as Hle2.
      pose proof (link_silences_unvisited (furthest_index s1) (sg s1) Hv1) as Hv2.
      destruct (link_silences (furthest_index s1) (sg s1)) as [g2 [x|e]]; simpl in *.
      * destruct (IH (set_sg s1 g2)) as (Hv3 & Hle3 & Hne3); simpl; try lia; [exact Hv2|].
        split; [exact Hv3|]; split; [|exact Hne3].
        eapply arcs_le_trans; [exact Hle1|]; eapply arcs_le_trans; [exact Hle2 | exact Hle3].
      * split; [exact Hv2|]; split; [eapply arcs_le_trans; eassumption | discriminate].
    + destruct (IH s1) as (Hv3 & Hle3 & Hne3); try lia; [exact Hv1|].
      split; [exact Hv3|]; split; [eapply arcs_le_trans; eassumption | exact Hne3].
Qed.

Lemma find_all_paths_inv g :
  all_unvisited g ->
  all_unvisited (fst (find_all_paths g)) /\ arcs_le g (fst (find_all_paths g)) /\
  snd (find_all_paths g) <> Ok (ErrCode NO_PATHS_FOUND).
Proof.
  intros Hv; unfold find_all_paths.
  pose proof (link_unrepresented_le g) as Hle1.
  pose proof (link_unrepresented_unvisited g Hv) as Hv1.
  destruct (link_unrepresented g) as [g1 [x|e]]; cbn [fst snd] in *.
  - set (s0 := Search g1 _ _ _ _ _ _).
    destruct (search_loop_inv (Z.to_nat ceiling + 2) s0) as (Hv2 & Hle2 & Hne2);
      [unfold s0; cbn [furthest_index]; lia | unfold s0; cbn [util_call_count]; lia
      | exact Hv1 |].
    destruct (search_loop _ s0) as [s r]; cbn [fst snd] in *.
    split; [exact Hv2|]; split; [eapply arcs_le_trans; eassumption | exact Hne2].
  - split; [exact Hv1|]; split; [exact Hle1 | discriminate].
Qed.

(** The loop and [find_all_paths] never lower an arc count, whatever the flags. *)
Lemma search_loop_le fuel : forall s,
  (0 <= util_call_count s)%Z -> arcs_le (sg s) (sg (fst (search_loop fuel s))).
Proof.
  induction fuel as [|fuel IH]; intros s Hc0; cbn [search_loop].
  - destruct (_ && _); [destruct (_ =? _)%Z | destruct (overflow s)]; apply arcs_le_refl.
  - destruct (_ && _); [|destruct (overflow s); apply arcs_le_refl].
    destruct (_ =? _)%Z; [apply arcs_le_refl|].
    destruct (attempt_ok s Hc0) as (Hok & _ & HA1 & _ & _ & HC1).
    destruct (attempt s) as [s1 r1]; cbn [fst snd] in *; subst r1.
    assert (Hle1 : arcs_le (sg s) (sg s1))
      by (intros k c' Hk; rewrite HA1; exists c'; split; [exact Hk | lia]).
    destruct (candidates s1) as [|c cs].
    + pose proof (link_silences_le (furthest_index s1) (sg s1)) as Hle2.
      destruct (link_silences (furthest_index s1) (sg s1)) as [g2 [x|e]]; cbn [fst] in *.
      * eapply arcs_le_trans; [exact Hle1|]; eapply arcs_le_trans; [exact Hle2|].
        apply (IH (set_sg s1 g2)); cbn [util_call_count set_sg]; lia.
      * eapply arcs_le_trans; eassumption.
    + eapply arcs_le_trans; [exact Hle1|]; apply IH; lia.
Qed.

Lemma find_all_paths_le : preserves arcs_le find_all_paths.
Proof.
  intros g; unfold find_all_paths.
  pose proof (link_unrepresented_le g) as Hle1.
  destruct (link_unrepresented g) as [g1 [x|e]]; cbn [fst snd] in *; [|exact Hle1].
  set (s0 := Search g1 _ _ _ _ _ _).
  pose proof (search_loop_le (Z.to_nat ceiling + 2) s0) as Hle2.
  destruct (search_loop _ s0) as [s r]; cbn [fst] in *.
  eapply arcs_le_trans; [exact Hle1 | apply Hle2; unfold s0; cbn [util_call_count]; lia].
Qed.

(** ** Re-inserting a correspondence *)

(** The arcs of a store from [a] to [b], with their counts. *)
Definition arcs_between (a b : node) (st : list (arc * nat)) : list (arc * nat) :=
  filter (fun kc => node_eqb (from_node (fst kc)) a && node_eqb (to_node (fst kc)) b) st.

Lemma substring_one n s : (n < String.length s)%nat -> exists ch, String.substring n 1 s = String ch "".
Proof.
  revert n; induction s as [|ch s IH]; intros n H; simpl in H; [lia|].
  destruct n as [|n]; simpl.
  - exists ch; destruct s; reflexivity.
  - apply IH; lia.
Qed.

Lemma py_index_char s i c : py_index s i = Ok c -> exists ch, c = String ch "".
Proof.
  unfold py_index; intros H.
  destruct (_ && _)%bool eqn:E; [|discriminate].
  injection H as <-; apply andb_true_iff in E as [E1 E2].
  apply Z.leb_le in E1; apply Z.ltb_lt in E2.
  apply substring_one; lia.
Qed.

Lemma arc_set_outside k c st : arc_lookup k st = None -> arc_set k c st = st.
Proof.
  induction st as [|[k' c'] st IH]; simpl; [reflexivity|].
  destruct (arc_eqb k k'); [discriminate | intros H; rewrite IH; auto].
Qed.

Lemma arc_lookup_between a b k st :
  (node_eqb (from_node k) a && node_eqb (to_node k) b)%bool = false ->
  arc_lookup k (arcs_between a b st) = None.
Proof.
  intros Hk; induction st as [|[k' c'] st IH]; simpl; [reflexivity|].
  destruct (node_eqb (from_node k') a && node_eqb (to_node k') b) eqn:E; simpl; [|exact IH].
  destruct (arc_eqb k k') eqn:Ek; [|exact IH].
  apply arc_eqb_eq in Ek; subst k'; simpl in E; congruence.
Qed.

Lemma arcs_between_set a b k c st :
  arcs_between a b (arc_set k c st) = arc_set k c (arcs_between a b st).
Proof.
  induction st as [|[k' c'] st IH]; simpl; [reflexivity|].
  destruct (arc_eqb k k') eqn:E; simpl.
  - destruct (_ && _) eqn:Ep; simpl; [rewrite E; reflexivity|].
    apply arc_eqb_eq in E; subst k'.
    symmetry; apply arc_set_outside, arc_lookup_between; exact Ep.
  - destruct (_ && _); simpl; [rewrite E, IH; reflexivity | exact IH].
Qed.

Lemma arc_lookup_between_in a b k st :
  (node_eqb (from_node k) a && node_eqb (to_node k) b)%bool = true ->
  arc_lookup k (arcs_between a b st) = arc_lookup k st.
Proof.
  intros Hk; induction st as [|[k' c'] st IH]; simpl; [reflexivity|].
  destruct (node_eqb (from_node k') a && node_eqb (to_node k') b) eqn:E; simpl.
  - destruct (arc_eqb k k'); [reflexivity | exact IH].
  - destruct (arc_eqb k k') eqn:Ek; [|exact IH].
    apply arc_eqb_eq in Ek; subst k'; simpl in E; congruence.
Qed.

Lemma create_or_iterate_arc_other a b inter x y g :
  (node_eqb x a && node_eqb y b)%bool = false ->
  arcs_between a b (arcs (fst (create_or_iterate_arc inter x y g))) = arcs_between a b (arcs g).
Proof.
  intros H; unfold create_or_iterate_arc; destruct (arc_lookup _ _); simpl.
  - rewrite arcs_between_set, arc_set_outside; [reflexivity|].
    apply arc_lookup_between; exact H.
  - unfold arcs_between; rewrite filter_app; simpl; rewrite H, app_nil_r; reflexivity.
Qed.

Lemma create_or_iterate_arc_span inter a b g :
  contains (Arc inter a b) [START_NODE g; END_NODE g] = false ->
  arcs_between a b (arcs (fst (create_or_iterate_arc inter a b g))) =
  match arc_lookup (Arc inter a b) (arcs g) with
  | Some c => arc_set (Arc inter a b) (S c) (arcs_between a b (arcs g))
  | None => (arcs_between a b (arcs g) ++ [(Arc inter a b, 1%nat)])%list
  end.
Proof.
  intros H; unfold create_or_iterate_arc; destruct (arc_lookup _ _); simpl.
  - rewrite H; apply arcs_between_set.
  - unfold arcs_between; rewrite filter_app; simpl.
    rewrite (proj2 (node_eqb_eq a a) eq_refl), (proj2 (node_eqb_eq b b) eq_refl); reflexivity.
Qed.

Lemma create_or_iterate_arc_ret inter x y g :
  snd (create_or_iterate_arc inter x y g) = Ok (Arc inter x y).
Proof. unfold create_or_iterate_arc; destruct (arc_lookup _ _); reflexivity. Qed.

Lemma create_or_find_node_spec l p i g :
  snd (create_or_find_node l p i g) = Ok (Node l p i) /\
  arcs (fst (create_or_find_node l p i g)) = arcs g /\
  letters (fst (create_or_find_node l p i g)) = letters g.
Proof. unfold create_or_find_node; destruct (existsb _ _); repeat split. Qed.

Lemma add_between L P s g l0 p0 l1 p1 :
  py_index L 0 = Ok l0 -> py_index P 0 = Ok p0 ->
  py_index L (-1) = Ok l1 -> py_index P (-1) = Ok p1 ->
  let a := Node l0 p0 s in
  let b := Node l1 p1 (s + Z.of_nat (String.length L) - 1) in
  let k := Arc (py_inner P) a b in
  snd (add L P s g) = Ok tt /\
  arcs_between a b (arcs (fst (add L P s g))) =
  match arc_lookup k (arcs g) with
  | Some c => arc_set k (S c) (arcs_between a b (arcs g))
  | None => (arcs_between a b (arcs g) ++ [(k, 1%nat)])%list
  end.
Proof.
  intros HL0 HP0 HL1 HP1; cbv zeta.
  destruct (py_index_char _ _ _ HL0) as [c0 E0].
  destruct (py_index_char _ _ _ HL1) as [c1 E1].
  unfold add, bind, get, lift_res; cbv beta iota zeta.
  rewrite HL0, HP0; cbv beta iota.
  destruct (create_or_find_node_spec l0 p0 s g) as (Ra & Aa & La).
  destruct (create_or_find_node l0 p0 s g) as [g1 r1]; cbn [fst snd] in *; subst r1.
  rewrite HL1, HP1; cbv beta iota.
  destruct (create_or_find_node_spec l1 p1 (s + Z.of_nat (String.length L) - 1) g1) as (Rb & Ab & Lb).
  destruct (create_or_find_node l1 p1 _ g1) as [g2 r2]; cbn [fst snd] in *; subst r2.
  set (a := Node l0 p0 s); set (b := Node l1 p1 _); set (k := Arc (py_inner P) a b).
  assert (Hc : contains k [START_NODE g2; END_NODE g2] = false).
  { unfold contains, k, a, b; subst l0 l1; reflexivity. }
  pose proof (create_or_iterate_arc_span (py_inner P) a b g2 Hc) as Hs.
  pose proof (create_or_iterate_arc_ret (py_inner P) a b g2) as R3.
  destruct (create_or_iterate_arc (py_inner P) a b g2) as [g3 r3]; cbn [snd] in R3.
  subst r3; cbv beta iota; cbn [fst] in Hs; rewrite Ab, Aa in Hs.
  change (Arc (py_inner P) a b) with k in Hs; rewrite <- Hs.
  assert (Ha : node_eqb (START_NODE g) a = false) by (unfold a; subst l0; reflexivity).
  assert (Hb : node_eqb (END_NODE g) b = false) by (unfold b; subst l1; reflexivity).
  destruct (s =? 0)%Z; [|destruct (_ =? _)%Z]; [| |split; reflexivity].
  - pose proof (create_or_iterate_arc_other a b "" (START_NODE g) a g3) as Ho.
    rewrite Ha in Ho; specialize (Ho eq_refl).
    pose proof (create_or_iterate_arc_ret "" (START_NODE g) a g3) as R4.
    destruct (create_or_iterate_arc "" (START_NODE g) a g3) as [g4 r4]; cbn [snd] in R4.
    subst r4; split; [reflexivity | exact Ho].
  - pose proof (create_or_iterate_arc_other a b "" b (END_NODE g) g3) as Ho.
    rewrite Hb, andb_false_r in Ho; specialize (Ho eq_refl).
    pose proof (create_or_iterate_arc_ret "" b (END_NODE g) g3) as R4.
    destruct (create_or_iterate_arc "" b (END_NODE g) g3) as [g4 r4]; cbn [snd] in R4.
    subst r4; split; [reflexivity | exact Ho].
Qed.

(** ** Re-running the same [add] *)

Lemma map_fst_arc_set k c st : map fst (arc_set k c st) = map fst st.
Proof.
  induction st as [|[k' c'] st IH]; simpl; [reflexivity|].
  destruct (arc_eqb k k'); simpl; [reflexivity | rewrite IH; reflexivity].
Qed.

Lemma create_or_find_node_present l p i g :
  In (Node l p i) (nodes g) -> create_or_find_node l p i g = (g, Ok (Node l p i)).
Proof.
  intros H; unfold create_or_find_node.
  assert (E : existsb (node_eqb (Node l p i)) (nodes g) = true).
  { apply existsb_exists; exists (Node l p i); split; [exact H | apply node_eqb_eq; reflexivity]. }
  rewrite E; reflexivity.
Qed.

Lemma create_or_find_node_nodes l p i g n :
  In n (nodes g) -> In n (nodes (fst (create_or_find_node l p i g))) /\
  In (Node l p i) (nodes (fst (create_or_find_node l p i g))).
Proof.
  intros H; unfold create_or_find_node.
  destruct (existsb (node_eqb (Node l p i)) (nodes g)) eqn:E; cbn.
  - split; [exact H|]. apply existsb_exists in E as (m & Hm & Em).
    apply node_eqb_eq in Em; subst m; exact Hm.
  - split; apply in_or_app; [left; exact H | right; left; reflexivity].
Qed.

Lemma create_or_iterate_arc_state inter x y g :
  nodes (fst (create_or_iterate_arc inter x y g)) = nodes g /\
  letters (fst (create_or_iterate_arc inter x y g)) = letters g /\
  snd (create_or_iterate_arc inter x y g) = Ok (Arc inter x y) /\
  arc_lookup (Arc inter x y) (arcs (fst (create_or_iterate_arc inter x y g))) <> None.
Proof.
  unfold create_or_iterate_arc.
  destruct (arc_lookup (Arc inter x y) (arcs g)) as [c|] eqn:E; cbn; (split; [reflexivity|]);
    (split; [reflexivity|]); (split; [reflexivity|]).
  - rewrite arc_lookup_set, (proj2 (arc_eqb_eq _ _) eq_refl), E; discriminate.
  - rewrite arc_lookup_app, E; cbn; rewrite (proj2 (arc_eqb_eq _ _) eq_refl); discriminate.
Qed.

Lemma lookup_kept k g g' : arcs_le g g' -> arc_lookup k (arcs g) <> None -> arc_lookup k (arcs g') <> None.
Proof.
  intros H Hk; destruct (arc_lookup k (arcs g)) as [c|] eqn:E; [|congruence].
  destruct (H k c E) as (c' & -> & _); discriminate.
Qed.

Lemma create_or_iterate_arc_keys inter x y g :
  arc_lookup (Arc inter x y) (arcs g) <> None ->
  map fst (arcs (fst (create_or_iterate_arc inter x y g))) = map fst (arcs g).
Proof.
  unfold create_or_iterate_arc; destruct (arc_lookup _ _); [|congruence].
  intros _; apply map_fst_arc_set.
Qed.

(** What the first [add] leaves behind: both end nodes, the span arc and
    the connector arc. *)
Definition add_present (L P : string) (s : Z) (w : string) (g : lattice) (l0 p0 l1 p1 : string) : Prop :=
  let a := Node l0 p0 s in
  let b := Node l1 p1 (s + Z.of_nat (String.length L) - 1) in
  In a (nodes g) /\ In b (nodes g) /\
  arc_lookup (Arc (py_inner P) a b) (arcs g) <> None /\ letters g = w /\
  (if (s =? 0)%Z then arc_lookup (Arc "" (START_NODE g) a) (arcs g) <> None
   else if (s + Z.of_nat (String.length L) =? Z.of_nat (String.length (letters g)))%Z
   then arc_lookup (Arc "" b (END_NODE g)) (arcs g) <> None else True).

Lemma add_makes_present L P s g l0 p0 l1 p1 :
  py_index L 0 = Ok l0 -> py_index P 0 = Ok p0 ->
  py_index L (-1) = Ok l1 -> py_index P (-1) = Ok p1 ->
  add_present L P s (letters g) (fst (add L P s g)) l0 p0 l1 p1.
Proof.
  intros HL0 HP0 HL1 HP1; unfold add_present; cbv zeta.
  unfold add, bind, get, lift_res; cbv beta iota zeta.
  rewrite HL0, HP0; cbv beta iota.
  destruct (create_or_find_node_spec l0 p0 s g) as (Ra & Aa & La).
  assert (Na : In (Node l0 p0 s) (nodes (fst (create_or_find_node l0 p0 s g)))).
  { destruct (nodes g) as [|n ns] eqn:En.
    - unfold create_or_find_node; rewrite En; cbn; left; reflexivity.
    - apply (create_or_find_node_nodes l0 p0 s g n); rewrite En; left; reflexivity. }
  destruct (create_or_find_node l0 p0 s g) as [g1 r1]; cbn [fst snd] in *; subst r1.
  rewrite HL1, HP1; cbv beta iota.
  set (i1 := (s + Z.of_nat (String.length L) - 1)%Z).
  destruct (create_or_find_node_spec l1 p1 i1 g1) as (Rb & Ab & Lb).
  destruct (create_or_find_node_nodes l1 p1 i1 g1 _ Na) as [Na' Nb].
  destruct (create_or_find_node l1 p1 i1 g1) as [g2 r2]; cbn [fst snd] in *; subst r2.
  destruct (create_or_iterate_arc_state (py_inner P) (Node l0 p0 s) (Node l1 p1 i1) g2)
    as (N3 & L3 & R3 & K3).
  pose proof (create_or_iterate_arc_le (py_inner P) (Node l0 p0 s) (Node l1 p1 i1) g2) as Le3.
  destruct (create_or_iterate_arc (py_inner P) (Node l0 p0 s) (Node l1 p1 i1) g2) as [g3 r3].
  cbn [fst snd] in *; subst r3; cbv beta iota.
  assert (Lg : letters g3 = letters g) by congruence.
  destruct (s =? 0)%Z; [|destruct (_ =? _)%Z eqn:Ee].
  - destruct (create_or_iterate_arc_state "" (START_NODE g) (Node l0 p0 s) g3) as (N4 & L4 & R4 & K4).
    pose proof (create_or_iterate_arc_le "" (START_NODE g) (Node l0 p0 s) g3) as Le4.
    destruct (create_or_iterate_arc "" (START_NODE g) (Node l0 p0 s) g3) as [g4 r4].
    cbn [fst snd] in *; subst r4; cbn.
    rewrite N4, N3; split; [exact Na'|]; split; [exact Nb|]; split; [exact (lookup_kept _ _ _ Le4 K3)|].
    split; [congruence|].
    exact K4.
  - destruct (create_or_iterate_arc_state "" (Node l1 p1 i1) (END_NODE g) g3) as (N4 & L4 & R4 & K4).
    pose proof (create_or_iterate_arc_le "" (Node l1 p1 i1) (END_NODE g) g3) as Le4.
    destruct (create_or_iterate_arc "" (Node l1 p1 i1) (END_NODE g) g3) as [g4 r4].
    cbn [fst snd] in *; subst r4; cbn.
    rewrite N4, N3; split; [exact Na'|]; split; [exact Nb|]; split; [exact (lookup_kept _ _ _ Le4 K3)|].
    split; [congruence|].
    unfold END_NODE in *; rewrite L4, Lg, Ee; exact K4.
  - cbn; rewrite N3, Lg, Ee; split; [exact Na'|]; split; [exact Nb|]; split; [exact K3|].
    split; [congruence | exact I].
Qed.

(** On a lattice where the first [add] has left its nodes and arcs, the
    same [add] creates no arc key. *)
Lemma add_on_present L P s g l0 p0 l1 p1 :
  py_index L 0 = Ok l0 -> py_index P 0 = Ok p0 ->
  py_index L (-1) = Ok l1 -> py_index P (-1) = Ok p1 ->
  add_present L P s (letters g) g l0 p0 l1 p1 ->
  map fst (arcs (fst (add L P s g))) = map fst (arcs g).
Proof.
  intros HL0 HP0 HL1 HP1 (Na & Nb & Kk & _ & Kc).
  unfold add, bind, get, lift_res; cbv beta iota zeta.
  rewrite HL0, HP0; cbv beta iota.
  rewrite (create_or_find_node_present _ _ _ _ Na).
  rewrite HL1, HP1; cbv beta iota.
  rewrite (create_or_find_node_present _ _ _ _ Nb).
  destruct (create_or_iterate_arc_state (py_inner P) (Node l0 p0 s)
              (Node l1 p1 (s + Z.of_nat (String.length L) - 1)) g) as (N3 & L3 & R3 & _).
  pose proof (create_or_iterate_arc_keys _ _ _ _ Kk) as K3.
  pose proof (create_or_iterate_arc_le (py_inner P) (Node l0 p0 s)
                (Node l1 p1 (s + Z.of_nat (String.length L) - 1)) g) as Le3.
  destruct (create_or_iterate_arc (py_inner P) (Node l0 p0 s)
              (Node l1 p1 (s + Z.of_nat (String.length L) - 1)) g) as [g3 r3].
  cbn [fst snd] in *; subst r3; cbv beta iota.
  destruct (s =? 0)%Z; [|destruct (_ =? _)%Z].
  - pose proof (create_or_iterate_arc_keys "" (START_NODE g) (Node l0 p0 s) g3
                  (lookup_kept _ _ _ Le3 Kc)) as K4.
    destruct (create_or_iterate_arc_state "" (START_NODE g) (Node l0 p0 s) g3) as (_ & _ & R4 & _).
    destruct (create_or_iterate_arc "" (START_NODE g) (Node l0 p0 s) g3) as [g4 r4].
    cbn [fst snd] in *; subst r4; cbn; congruence.
  - pose proof (create_or_iterate_arc_keys "" (Node l1 p1 (s + Z.of_nat (String.length L) - 1))
                  (END_NODE g) g3 (lookup_kept _ _ _ Le3 Kc)) as K4.
    destruct (create_or_iterate_arc_state "" (Node l1 p1 (s + Z.of_nat (String.length L) - 1))
                (END_NODE g) g3) as (_ & _ & R4 & _).
    destruct (create_or_iterate_arc "" (Node l1 p1 (s + Z.of_nat (String.length L) - 1))
                (END_NODE g) g3) as [g4 r4].
    cbn [fst snd] in *; subst r4; cbn; congruence.
  - cbn; exact K3.
Qed.

Lemma run_add_twice L P s g :
  snd (add L P s g) = Ok tt ->
  run (add L P s ;; add L P s) g = fst (add L P s (fst (add L P s g))).
Proof.
  intros H; unfold run, bind; destruct (add L P s g) as [g1 r1]; cbn in H; subst r1; reflexivity.
Qed.

(** ** The progress check of [find_all_paths] *)

(** [furthest_index] starts at 0 and never decreases, while the variable it is
    compared with, [last_furthest_index], stays -1: the check never fires. *)
Lemma search_loop_never_stuck fuel : forall s,
  (0 <= furthest_index s)%Z -> (0 <= util_call_count s)%Z ->
  snd (search_loop fuel s) <> Ok (ErrCode NO_PATHS_FOUND).
Proof.
  induction fuel as [|fuel IH]; intros s Hf0 Hc0; cbn [search_loop].
  - destruct (_ && _); [|destruct (overflow s)].
    + destruct (_ =? _)%Z eqn:E; [apply Z.eqb_eq in E; lia | discriminate].
    + intros H; injection H; unfold SEARCHED_TOO_LONG, NO_PATHS_FOUND; lia.
    + discriminate.
  - destruct (_ && _); [|destruct (overflow s)].
    2: { intros H; injection H; unfold SEARCHED_TOO_LONG, NO_PATHS_FOUND; lia. }
    2: discriminate.
    destruct (_ =? _)%Z eqn:E; [apply Z.eqb_eq in E; lia|].
    destruct (attempt_ok s Hc0) as (Hok & _ & _ & _ & HF1 & HC1).
    destruct (attempt s) as [s1 r1]; cbn [fst snd] in *; subst r1.
    destruct (candidates s1) as [|c cs]; [|apply IH; lia].
    destruct (link_silences (furthest_index s1) (sg s1)) as [g2 [x|e]]; cbn [snd].
    + apply IH; cbn [furthest_index util_call_count set_sg]; lia.
    + discriminate.
Qed.

Lemma find_all_paths_never_stuck g : snd (find_all_paths g) <> Ok (ErrCode NO_PATHS_FOUND).
Proof.
  unfold find_all_paths.
  destruct (link_unrepresented g) as [g1 [x|e]]; [|discriminate].
  set (s0 := Search g1 _ _ _ _ _ _).
  pose proof (search_loop_never_stuck (Z.to_nat ceiling + 2) s0) as H.
  destruct (search_loop _ s0) as [s r]; cbn [snd] in *.
  apply H; unfold s0; cbn [furthest_index util_call_count]; lia.
Qed.

(** ** A search that makes no progress *)

Lemma attempt_fuel s : attempt s = attempt_with (Z.to_nat ceiling) s.
Proof. unfold attempt, attempt_with; reflexivity. Qed.

Lemma ceiling_fuel : Z.to_nat ceiling = S (S (Z.to_nat (ceiling - 2))).
Proof.
  unfold ceiling; rewrite <- Z2Nat.inj_succ by lia; rewrite <- Z2Nat.inj_succ by lia.
  f_equal.
Qed.

Lemma stuck_lattice_eq :
  stuck_lattice =
  Lattice "ab" [Node "" "" (-1); Node "" "" 2; Node "a" "x" 0]
    [(Arc "" (Node "a" "x" 0) (Node "a" "x" 0), 1%nat);
     (Arc "" (Node "" "" (-1)) (Node "a" "x" 0), 1%nat)] [] [].
Proof. vm_compute; reflexivity. Qed.

(** Each attempt on [stuck_lattice] visits START and the node of "a", and
    stops there. *)
Lemma attempt_stuck n c :
  (0 <= c)%Z -> (c + 2 <= ceiling)%Z ->
  attempt_with (S (S n)) (stuck_state c) = (stuck_state (c + 2), Ok tt).
Proof.
  intros H0 H1.
  assert (E1 : (c + 1 >? ceiling)%Z = false) by (rewrite Z.gtb_ltb; apply Z.ltb_ge; lia).
  assert (E2 : (c + 1 + 1 >? ceiling)%Z = false) by (rewrite Z.gtb_ltb; apply Z.ltb_ge; lia).
  replace (c + 2)%Z with (c + 1 + 1)%Z by lia.
  unfold stuck_state; rewrite stuck_lattice_eq.
  lazy -[ceiling Z.add Z.gtb]. rewrite ?E1, ?E2. lazy -[ceiling Z.add]. reflexivity.
Qed.

Lemma attempt_stuck_over n :
  attempt_with (S (S n)) (stuck_state ceiling) = (stuck_state_over, Ok tt).
Proof. vm_compute; reflexivity. Qed.

Lemma link_silences_stuck : link_silences 0 stuck_lattice = (stuck_lattice, Ok tt).
Proof. vm_compute; reflexivity. Qed.

Lemma link_unrepresented_stuck : link_unrepresented stuck_lattice = (stuck_lattice, Ok tt).
Proof. vm_compute; reflexivity. Qed.

Lemma search_loop_stuck_step f c :
  (0 <= c)%Z -> (c + 2 <= ceiling)%Z ->
  search_loop (S f) (stuck_state c) = search_loop f (stuck_state (c + 2)).
Proof.
  intros H0 H1; cbn [search_loop].
  rewrite attempt_fuel, ceiling_fuel, attempt_stuck by assumption.
  cbn [candidates stuck_state furthest_index sg]. rewrite link_silences_stuck. reflexivity.
Qed.

Lemma search_loop_stuck_steps k : forall f c,
  (0 <= c)%Z -> (c + 2 * Z.of_nat k <= ceiling)%Z ->
  search_loop (k + f) (stuck_state c) = search_loop f (stuck_state (c + 2 * Z.of_nat k)).
Proof.
  induction k as [|k IH]; intros f c H0 H1.
  - cbn [Nat.add]; do 2 f_equal; lia.
  - cbn [Nat.add]; rewrite search_loop_stuck_step by lia; rewrite IH by lia.
    do 2 f_equal; lia.
Qed.

Lemma search_loop_stuck_last f :
  search_loop (S (S f)) (stuck_state ceiling) = (stuck_state_over, Ok (ErrCode SEARCHED_TOO_LONG)).
Proof.
  cbn [search_loop]; rewrite attempt_fuel, ceiling_fuel, attempt_stuck_over.
  cbn [candidates stuck_state_over furthest_index sg]; rewrite link_silences_stuck.
  reflexivity.
Qed.

Lemma find_all_paths_stuck :
  find_all_paths stuck_lattice = (stuck_lattice, Ok (ErrCode SEARCHED_TOO_LONG)).
Proof.
  unfold find_all_paths; rewrite link_unrepresented_stuck.
  assert (E : (Z.to_nat ceiling + 2 = Z.to_nat 12500000 + S (S (Z.to_nat 12500000)))%nat)
    by (unfold ceiling; lia).
  rewrite E; fold (stuck_state 0); rewrite search_loop_stuck_steps by lia.
  replace (0 + 2 * Z.of_nat (Z.to_nat 12500000))%Z with ceiling by (unfold ceiling; lia).
  rewrite search_loop_stuck_last; reflexivity.
Qed.

(** ** The frame of heuristic scoring *)

Lemma same_identity_refl c : same_identity c c.
Proof. unfold same_identity; tauto. Qed.

Lemma same_identity_trans c1 c2 c3 :
  same_identity c1 c2 -> same_identity c2 c3 -> same_identity c1 c3.
Proof.
  unfold same_identity; intros (?&?&?&?&?&?) (?&?&?&?&?&?); repeat split; congruence.
Qed.

Lemma frame_refl P h : frame P h h.
Proof.
  split; [reflexivity|]; intros i c H; exists c; split; [exact H|].
  split; [apply same_identity_refl | left; reflexivity].
Qed.

Lemma frame_trans P h1 h2 h3 : frame P h1 h2 -> frame P h2 h3 -> frame P h1 h3.
Proof.
  intros [L1 F1] [L2 F2]; split; [congruence|]; intros i c H.
  destruct (F1 i c H) as (c2 & H2 & I2 & E2).
  destruct (F2 i c2 H2) as (c3 & H3 & I3 & E3).
  exists c3; split; [exact H3|]; split; [eapply same_identity_trans; eauto|].
  destruct E2 as [->|]; [exact E3 | right; assumption].
Qed.

Lemma list_set_length {A} (l : list A) n x : List.length (list_set l n x) = List.length l.
Proof.
  revert n; induction l as [|y l IH]; intros [|n]; simpl; auto.
Qed.

Lemma nth_error_list_set {A} (l : list A) n x i :
  nth_error (list_set l n x) i =
  if Nat.eqb i n then match nth_error l i with Some _ => Some x | None => None end
  else nth_error l i.
Proof.
  revert n i; induction l as [|y l IH]; intros [|n] [|i]; simpl; auto;
    try (destruct (Nat.eqb _ _); reflexivity).
Qed.

Lemma deref_preserves R r : (forall h, R h h) -> preserves R (deref r).
Proof. intros Hr h; unfold deref; destruct (nth_error h r); apply Hr. Qed.

Lemma set_field_frame (P : nat -> Prop) r f :
  (forall c, same_identity c (f c)) -> P r -> preserves (frame P) (set_field r f).
Proof.
  intros Hf Hr h; unfold set_field, bind, deref.
  destruct (nth_error h r) as [c|] eqn:E; simpl; [|apply frame_refl].
  split; [apply list_set_length|]; intros i c0 H.
  rewrite nth_error_list_set, H.
  destruct (Nat.eqb_spec i r) as [->|Hne].
  - rewrite E in H; injection H as <-.
    eexists; split; [reflexivity|]; split; [apply Hf | right; exact Hr].
  - exists c0; split; [reflexivity|]; split; [apply same_identity_refl | left; reflexivity].
Qed.

Lemma get_frequencies_preserves R l : (forall h, R h h) ->
  preserves R (get_frequencies_by_pronunciation l).
Proof.
  intros Hr h; unfold get_frequencies_by_pronunciation.
  generalize (@nil (string * nat)) at 2 as sp; generalize (@nil (string * nat)) as rc.
  revert h; induction l as [|r l IH]; intros h rc sp; [apply Hr|].
  unfold bind, deref; destruct (nth_error h r); [apply IH | apply Hr].
Qed.

Lemma nds_loop_preserves R (p : string) l acc : (forall h, R h h) ->
  preserves R ((fix go (l : list nat) (acc : nat) : ST heap nat :=
                  match l with
                  | [] => ret acc
                  | o :: l' =>
                      oc <- deref o ;;
                      m <- lift_res (mismatches p (pronunciation oc)) ;;
                      go l' (acc + m)%nat
                  end) l acc).
Proof.
  intros Hr; revert acc; induction l as [|o l IH]; intros acc h; [apply Hr|].
  cbn; unfold bind at 1, deref; destruct (nth_error h o); [|apply Hr].
  unfold bind, lift_res; destruct (mismatches _ _); [apply IH | apply Hr].
Qed.

Ltac heap_frame_step :=
  repeat first
    [ apply set_field_frame;
        [intros ?; unfold same_identity; cbn; repeat split | ]
    | apply bind_preserves; [intros ? ? ?; apply frame_trans| |intros ?]
    | apply deref_preserves; apply frame_refl
    | apply ret_preserves; apply frame_refl
    | apply lift_res_preserves; apply frame_refl
    | apply get_preserves; apply frame_refl
    | apply get_frequencies_preserves; apply frame_refl
    | apply nds_loop_preserves; apply frame_refl
    | match goal with |- forall _ : (_ * _), _ => intros [? ?] end ].

Lemma compute_heuristics_frame g M :
  preserves (frame (fun i => In i M)) (compute_heuristics g M).
Proof.
  unfold compute_heuristics.
  apply bind_preserves; [intros ? ? ?; apply frame_trans| |intros _].
  { apply for_each_preserves; [apply frame_refl | intros ? ? ?; apply frame_trans|].
    intros r Hr. heap_frame_step. exact Hr. }
  apply bind_preserves; [intros ? ? ?; apply frame_trans| |intros [rc sp]].
  { apply get_frequencies_preserves; apply frame_refl. }
  apply for_each_preserves; [apply frame_refl | intros ? ? ?; apply frame_trans|].
  intros i Hi; apply in_seq in Hi.
  assert (HM : In (nth i M 0%nat) M) by (apply nth_In; lia).
  heap_frame_step; exact HM.
Qed.

Lemma func_by_attribute_state l attr b h : fst (func_by_attribute l attr b h) = h.
Proof.
  unfold func_by_attribute, bind, get, lift_res; cbn.
  destruct (res_map _ l) as [vals|e]; [|reflexivity].
  destruct vals as [|[r0 v0] vs]; reflexivity.
Qed.

Lemma res_map_refs h (attr : candidate -> Z) l vals :
  res_map (fun r => match nth_error h r with
                    | Some c => Ok (r, attr c)
                    | None => Raise Dangling
                    end) l = Ok vals ->
  (forall r, In r l -> exists c, nth_error h r = Some c) /\
  vals = map (fun r => (r, match nth_error h r with Some c => attr c | None => 0%Z end)) l.
Proof.
  revert vals; induction l as [|r l IH]; intros vals H; cbn in H.
  - injection H as <-; split; [intros _ []|reflexivity].
  - destruct (nth_error h r) as [c|] eqn:E; [|discriminate].
    destruct (res_map _ l) as [ys|e]; [|discriminate].
    injection H as <-; destruct (IH ys eq_refl) as [H1 H2]; split.
    + intros r' [<-|Hr']; [eauto | auto].
    + cbn; rewrite E, H2; reflexivity.
Qed.

Lemma func_by_attribute_incl l attr b h out :
  snd (func_by_attribute l attr b h) = Ok out -> incl out l.
Proof.
  unfold func_by_attribute, bind, get, lift_res; cbn.
  destruct (res_map _ l) as [vals|e] eqn:E; [|discriminate].
  apply res_map_refs in E as [_ ->].
  destruct l as [|r0 l0] eqn:El; [discriminate|].
  change (map ?f (r0 :: l0)) with (f r0 :: map f l0); cbv beta iota zeta.
  rewrite <- (map_cons (fun r => (r, _)) r0 l0), <- El.
  intros H; injection H as <-.
  intros r Hr; apply in_map_iff in Hr as ([r' v] & <- & Hr).
  apply filter_In in Hr as [Hr _]; cbn.
  apply in_map_iff in Hr as (r'' & E' & Hr''); injection E' as <- _; exact Hr''.
Qed.

(** The running minimum of [func_by_attribute]. *)
Lemma fold_min_spec (vs : list (nat * Z)) : forall p,
  let m := snd (fold_left (fun '(br, bv) '(r, v) =>
                  if (v <? bv)%Z then (r, v) else (br, bv)) vs p) in
  (m <= snd p)%Z /\ (forall x, In x vs -> (m <= snd x)%Z) /\
  (m = snd p \/ exists x, In x vs /\ m = snd x).
Proof.
  induction vs as [|[r v] vs IH]; intros [br bv]; cbn.
  - split; [lia|]; split; [intros _ []| left; reflexivity].
  - destruct (Z.ltb_spec v bv) as [Hlt|Hge].
    + destruct (IH (r, v)) as (H1 & H2 & H3); cbn in *; split; [lia|]; split.
      * intros x [<-|Hx]; [exact H1 | auto].
      * right; destruct H3 as [E|(x & Hx & E)]; [exists (r, v); auto | exists x; auto].
    + destruct (IH (br, bv)) as (H1 & H2 & H3); cbn in *; split; [lia|]; split.
      * intros x [<-|Hx]; [cbn; lia | auto].
      * destruct H3 as [E|(x & Hx & E)]; [left; exact E | right; exists x; auto].
Qed.

Lemma map_fst_filter_map (kv : nat -> nat * Z) (P : nat * Z -> bool) l :
  (forall r, fst (kv r) = r) ->
  map fst (filter P (map kv l)) = filter (fun r => P (kv r)) l.
Proof.
  intros Hkv; induction l as [|r l IH]; cbn; [reflexivity|].
  destruct (P (kv r)); cbn; rewrite ?Hkv, IH; reflexivity.
Qed.

Lemma func_by_attribute_min l h out :
  snd (func_by_attribute l (fun c => Z.of_nat (length c)) true h) = Ok out ->
  out = filter (is_min_ref h l) l.
Proof.
  unfold func_by_attribute, bind, get, lift_res; cbn.
  destruct (res_map _ l) as [vals|e] eqn:E; [|discriminate].
  apply res_map_refs in E as [Hv ->].
  destruct l as [|r0 l0] eqn:El; [discriminate|].
  change (map ?f (r0 :: l0)) with (f r0 :: map f l0); cbv beta iota zeta.
  set (len := fun r => match nth_error h r with
                       | Some c => Z.of_nat (length c) | None => 0%Z end).
  change (fun r : nat => (r, match nth_error h r with
                             | Some c => Z.of_nat (length c) | None => 0%Z end))
    with (fun r => (r, len r)).
  change (r0, match nth_error h r0 with
              | Some c => Z.of_nat (length c) | None => 0%Z end) with (r0, len r0).
  assert (Hm := fold_min_spec (map (fun r => (r, len r)) l0) (r0, len r0)).
  cbv zeta in Hm; cbn [snd] in Hm |- *.
  set (m := snd (fold_left _ (map (fun r => (r, len r)) l0) (r0, len r0))) in *.
  rewrite <- (map_cons (fun r => (r, len r)) r0 l0), <- El.
  intros H; injection H as <-.
  rewrite map_fst_filter_map by reflexivity; cbn [snd].
  assert (Hle : forall r, In r l -> (m <= len r)%Z).
  { rewrite El; intros r [<-|Hr]; [apply Hm|].
    apply (proj1 (proj2 Hm) (r, len r)), in_map_iff; eauto. }
  assert (Hex : exists r, In r l /\ m = len r).
  { destruct Hm as (_ & _ & [Em|([r v] & Hx & Em)]).
    - exists r0; rewrite El; split; [left|]; auto.
    - apply in_map_iff in Hx as (r' & Ex & Hr'); injection Ex as <- <-.
      exists r'; rewrite El; split; [right|]; auto. }
  apply filter_ext_in; intros r Hr; rewrite <- El in Hv.
  unfold is_min_ref, ref_length.
  destruct (Hv r Hr) as [c Hc]; rewrite Hc; cbn [option_map].
  assert (Hlr : len r = Z.of_nat (length c)) by (unfold len; rewrite Hc; reflexivity).
  destruct (Z.eqb_spec (len r) m) as [Eq|Ne].
  - symmetry; apply forallb_forall; intros r' Hr'.
    destruct (Hv r' Hr') as [c' Hc']; rewrite Hc'; cbn.
    specialize (Hle r' Hr'); unfold len in Hle; rewrite Hc' in Hle.
    apply Nat.leb_le; lia.
  - symmetry; apply not_true_iff_false; intros Hall.
    destruct Hex as (r' & Hr' & Em).
    rewrite forallb_forall in Hall; specialize (Hall r' Hr').
    destruct (Hv r' Hr') as [c' Hc']; rewrite Hc' in Hall; cbn in Hall.
    apply Nat.leb_le in Hall.
    specialize (Hle r Hr); unfold len in Em; rewrite Hc' in Em; lia.
Qed.

Lemma res_map_in {A B} (f : A -> res B) l ys :
  res_map f l = Ok ys -> forall y, In y ys -> exists x, In x l /\ f x = Ok y.
Proof.
  revert ys; induction l as [|x l IH]; intros ys H y Hy; cbn in H.
  - injection H as <-; destruct Hy.
  - destruct (f x) as [b|e] eqn:Ef; [|discriminate].
    destruct (res_map f l) as [bs|e]; [|discriminate].
    injection H as <-; destruct Hy as [<-|Hy].
    + exists x; split; [left; reflexivity | assumption].
    + destruct (IH bs eq_refl y Hy) as (x' & ? & ?); exists x'; split; [right|]; assumption.
Qed.

Lemma insert_by_in key d x l y : In y (insert_by key d x l) -> y = x \/ In y l.
Proof.
  induction l as [|z l IH]; cbn; [intros [<-|[]]; auto|].
  destruct (if d then _ else _); cbn.
  - intros [<-|[<-|H]]; auto.
  - intros [<-|H]; [right; left; reflexivity|].
    destruct (IH H) as [->|H']; auto.
Qed.

Lemma sort_by_incl key d l : incl (sort_by key d l) l.
Proof.
  induction l as [|x l IH]; cbn; [intros y []|].
  intros y Hy; destruct (insert_by_in _ _ _ _ _ Hy) as [->|H]; [left; reflexivity|].
  right; apply IH, H.
Qed.

Lemma rank_by_heuristic_incl h l attr d l' m :
  rank_by_heuristic h l attr d = Ok (l', m) -> incl l' l.
Proof.
  unfold rank_by_heuristic.
  destruct (sort_by _ d l) as [|c0 rest] eqn:E; [discriminate|].
  destruct (fold_left _ _ _) as [[[m0 p] rk] ap].
  intros H; injection H as <- _; rewrite <- E; apply sort_by_incl.
Qed.

Lemma dset_keys {V} k (v : V) d x w : In (x, w) (dset k v d) -> x = k \/ exists w', In (x, w') d.
Proof.
  induction d as [|[k' v'] d IH]; cbn.
  - intros [E|[]]; injection E as <- _; auto.
  - destruct (Nat.eqb_spec k k') as [<-|_].
    + intros [E|H]; [injection E as <- _; auto | right; eauto].
    + intros [E|H]; [injection E as <- <-; right; exists v'; left; reflexivity|].
      destruct (IH H) as [->|(w' & Hw)]; [auto | right; eauto].
Qed.

Lemma fusion_totals_keys cands columns strategy totals :
  fusion_totals cands columns strategy = Ok totals ->
  forall x w, In (x, w) totals -> In x cands.
Proof.
  unfold fusion_totals.
  assert (Inv : forall acc, (forall t, acc = Ok t -> forall x w, In (x, w) t -> In x cands) ->
    forall bc, forall t, fold_left (fun acc '(bit, column) =>
       match acc with
       | Raise e => Raise e
       | Ok totals =>
         if negb bit then Ok totals else
         fold_left (fun acc' c =>
            match acc' with
            | Raise e => Raise e
            | Ok t =>
              match dget c column with
              | None => Raise KeyError
              | Some pts =>
                let prev := match dget c t with Some v => v | None => 1%R end in
                Ok (dset c (prev * pts)%R t)
              end
            end) cands (Ok totals)
       end) bc acc = Ok t -> forall x w, In (x, w) t -> In x cands).
  { intros acc Hacc bc; revert acc Hacc; induction bc as [|[bit column] bc IH];
      intros acc Hacc t; cbn; [apply Hacc|].
    apply IH; intros t' Et'.
    destruct acc as [t0|e]; [|discriminate].
    destruct (negb bit); [injection Et' as <-; apply Hacc; reflexivity|].
    revert Et'.
    assert (Inner : forall cs, incl cs cands -> forall a,
      (forall t, a = Ok t -> forall x w, In (x, w) t -> In x cands) ->
      fold_left (fun acc' c =>
            match acc' with
            | Raise e => Raise e
            | Ok t =>
              match dget c column with
              | None => Raise KeyError
              | Some pts =>
                let prev := match dget c t with Some v => v | None => 1%R end in
                Ok (dset c (prev * pts)%R t)
              end
            end) cs a = Ok t' -> forall x w, In (x, w) t' -> In x cands).
    { induction cs as [|c cs IHc]; intros Hincl a Ha; cbn; [apply Ha|].
      apply IHc; [intros y Hy; apply Hincl; right; exact Hy|].
      intros t1 Et1; destruct a as [t2|e]; [|discriminate].
      destruct (dget c column); [|discriminate].
      injection Et1 as <-; intros x w Hx.
      destruct (dset_keys _ _ _ _ _ Hx) as [->|(w' & Hw)].
      - apply Hincl; left; reflexivity.
      - eapply Ha; [reflexivity | exact Hw]. }
    apply Inner; [intros y Hy; exact Hy | exact Hacc]. }
  apply Inv; intros t E x w Hx; injection E as <-; destruct Hx.
Qed.

Lemma dict_argmax_in d best : dict_argmax d = Ok best -> exists v, In (best, v) d.
Proof.
  destruct d as [|[k0 v0] d]; cbn; [discriminate|].
  intros H; injection H as <-.
  assert (Inv : forall p, In p ((k0, v0) :: d) -> forall xs, incl xs d ->
            In (fold_left (fun '(bk, bv) '(k, v) => if Rltb bv v then (k, v) else (bk, bv))
                  xs p) ((k0, v0) :: d)).
  { intros p Hp xs; revert p Hp; induction xs as [|[k v] xs IH]; intros [bk bv] Hp Hx; cbn;
      [exact Hp|].
    apply IH; [|intros y Hy; apply Hx; right; exact Hy].
    destruct (Rltb bv v); [right; apply Hx; left; reflexivity | exact Hp]. }
  specialize (Inv (k0, v0) (or_introl eq_refl) d (fun y Hy => Hy)).
  destruct (fold_left _ d (k0, v0)) as [bk bv]; exists bv; exact Inv.
Qed.

Lemma rank_by_heuristics_incl h M sorted results :
  rank_by_heuristics h M = Ok (sorted, results) ->
  incl sorted M /\ forall l r, In (l, r) results -> In r sorted.
Proof.
  unfold rank_by_heuristics.
  assert (Hfold : forall attrs l0 maps0, incl l0 M ->
    forall s maps, fold_left (fun acc '(attr, desc) =>
       match acc with
       | Raise e => Raise e
       | Ok (l, maps) =>
         match rank_by_heuristic h l attr desc with
         | Raise e => Raise e
         | Ok (l', m) => Ok (l', maps ++ [m])
         end
       end) attrs (Ok (l0, maps0)) = Ok (s, maps) -> incl s M).
  { induction attrs as [|[attr desc] attrs IH]; intros l0 maps0 Hl0 s maps; cbn.
    - intros E; injection E as <- _; exact Hl0.
    - destruct (rank_by_heuristic h l0 attr desc) as [[l' m]|e] eqn:Er.
      + apply IH; intros y Hy; apply Hl0; eapply rank_by_heuristic_incl; eauto.
      + clear; induction attrs as [|[a d] attrs IHa]; cbn; [discriminate | exact IHa]. }
  destruct (fold_left _ heuristic_attrs (Ok (M, []))) as [[s maps]|e] eqn:Ef;
    [|discriminate].
  apply Hfold in Ef; [|intros y Hy; exact Hy].
  destruct (res_map rank_to_score maps) as [columns|e]; [|discriminate].
  destruct (res_map _ (tl strategies)) as [labelled|e] eqn:El; [|discriminate].
  intros H; injection H as <- <-; split; [exact Ef|].
  intros l r Hlr.
  destruct (res_map_in _ _ _ El _ Hlr) as (strategy & _ & Hst).
  destruct (fusion_totals s columns strategy) as [totals|e] eqn:Et; [|discriminate].
  destruct (dict_argmax totals) as [best|e] eqn:Eb; [|discriminate].
  injection Hst as _ <-.
  destruct (dict_argmax_in _ _ Eb) as (v & Hv).
  eapply fusion_totals_keys; eauto.
Qed.

Lemma frame_mono (P Q : nat -> Prop) h h' :
  (forall i, P i -> Q i) -> frame P h h' -> frame Q h h'.
Proof.
  intros HPQ [L F]; split; [exact L|]; intros i c H.
  destruct (F i c H) as (c' & H1 & H2 & H3); exists c'; split; [exact H1|].
  split; [exact H2|]; destruct H3; [left; assumption | right; auto].
Qed.

Lemma func_by_attribute_run l attr b h :
  exists r, func_by_attribute l attr b h = (h, r).
Proof.
  pose proof (func_by_attribute_state l attr b h) as H.
  destruct (func_by_attribute l attr b h) as [h0 r]; cbn in H; subst h0; eauto.
Qed.

Lemma first_of_in l r : first_of l = Ok r -> In r l.
Proof. destruct l; cbn; intros E; [discriminate | injection E as ->; left; reflexivity]. Qed.

(** The scoring branch of [decide], past the length filter. *)
Lemma decide_scoring g M h h' d :
  (compute_heuristics g M ;;
   h <- get ;;
   rb <- lift_res (rank_by_heuristics h M) ;;
   let '(sorted, results) := rb in
   sops <- func_by_attribute sorted (fun c => Z.of_nat (sum_of_products c)) false ;;
   sop <- lift_res (first_of sops) ;;
   acss <- func_by_attribute sorted arc_count_sum false ;;
   acs <- lift_res (first_of acss) ;;
   ret (Labelled (results ++ [("sum_of_products"%string, sop);
                              ("arc_count_sum"%string, acs)]))) h = (h', d) ->
  frame (fun i => In i M) h h' /\
  (forall m, d = Ok (Labelled m) -> forall l r, In (l, r) m -> In r M).
Proof.
  pose proof (compute_heuristics_frame g M h) as Hf.
  unfold bind at 1; destruct (compute_heuristics g M h) as [h1 [[]|e]]; cbn in Hf;
    [|intros E; injection E as <- <-; split; [exact Hf | discriminate]].
  unfold bind, get, lift_res at 1.
  destruct (rank_by_heuristics h1 M) as [[sorted results]|e] eqn:Er;
    [|intros E; injection E as <- <-; split; [exact Hf | discriminate]].
  apply rank_by_heuristics_incl in Er as [Hs Hres].
  destruct (func_by_attribute_run sorted (fun c => Z.of_nat (sum_of_products c)) false h1)
    as [[sops|e] E2]; rewrite E2;
    [|intros E; injection E as <- <-; split; [exact Hf | discriminate]].
  assert (Hsops := func_by_attribute_incl sorted _ false h1 sops ltac:(rewrite E2; reflexivity)).
  unfold lift_res at 1; destruct (first_of sops) as [sop|e] eqn:E3;
    [|intros E; injection E as <- <-; split; [exact Hf | discriminate]].
  destruct (func_by_attribute_run sorted arc_count_sum false h1) as [[acss|e] E4]; rewrite E4;
    [|intros E; injection E as <- <-; split; [exact Hf | discriminate]].
  assert (Hacss := func_by_attribute_incl sorted _ false h1 acss ltac:(rewrite E4; reflexivity)).
  unfold lift_res at 1; destruct (first_of acss) as [acs|e] eqn:E5;
    [|intros E; injection E as <- <-; split; [exact Hf | discriminate]].
  unfold ret; intros E; injection E as <- <-; split; [exact Hf|].
  intros m Em l r Hlr; injection Em as <-.
  apply in_app_or in Hlr as [Hlr|[Hlr|[Hlr|[]]]].
  - apply Hs, (Hres l r Hlr).
  - injection Hlr as _ <-; apply Hs, Hsops, first_of_in, E3.
  - injection Hlr as _ <-; apply Hs, Hacss, first_of_in, E5.
Qed.

Lemma decide_spec g rs h h' d :
  decide g (InList rs) h = (h', d) ->
  frame (fun i => In i rs /\ is_min_ref h rs i = true /\
                  (2 <= List.length (filter (is_min_ref h rs) rs))%nat) h h' /\
  (forall m, d = Ok (Labelled m) -> forall l r, In (l, r) m ->
     In r rs /\ is_min_ref h rs r = true).
Proof.
  destruct rs as [|r0 rs0].
  { cbn; intros E; injection E as <- <-; split; [apply frame_refl | discriminate]. }
  unfold decide; cbv beta iota; set (rs := r0 :: rs0).
  unfold bind at 1.
  destruct (func_by_attribute_run rs (fun c => Z.of_nat (length c)) true h) as [r1 E1].
  rewrite E1.
  destruct r1 as [M|e];
    [|intros E; injection E as <- <-; split; [apply frame_refl | discriminate]].
  assert (HM : M = filter (is_min_ref h rs) rs)
    by (apply (func_by_attribute_min rs h M); rewrite E1; reflexivity).
  assert (HinM : forall i, In i M -> In i rs /\ is_min_ref h rs i = true)
    by (intros i Hi; rewrite HM in Hi; apply filter_In in Hi; exact Hi).
  destruct M as [|x [|y M']] eqn:EM.
  - intros E; apply decide_scoring in E as [Hf Hm]; split.
    + eapply frame_mono; [|exact Hf]; intros i [].
    + intros m Em l r Hlr; destruct (Hm m Em l r Hlr).
  - unfold ret; intros E; injection E as <- <-; split; [apply frame_refl|].
    intros m Em l r Hlr; injection Em as <-; destruct Hlr as [Hlr|[]].
    injection Hlr as _ <-; apply HinM; left; reflexivity.
  - intros E; apply decide_scoring in E as [Hf Hm]; split.
    + eapply frame_mono; [|exact Hf]; intros i Hi.
      destruct (HinM i Hi) as [H1 H2]; split; [exact H1|]; split; [exact H2|].
      rewrite <- HM; cbn; lia.
    + intros m Em l r Hlr; apply HinM, (Hm m Em l r Hlr).
Qed.

Lemma frame_nth P h h' r c' : frame P h h' -> nth_error h' r = Some c' ->
  exists c, nth_error h r = Some c /\ same_identity c c' /\ (c' = c \/ P r).
Proof.
  intros [L F] H.
  destruct (nth_error h r) as [c|] eqn:E.
  - destruct (F r c E) as (c'' & H' & I & Q); rewrite H in H'; injection H' as <-.
    exists c; auto.
  - apply nth_error_None in E; rewrite <- L in E; apply nth_error_None in E; congruence.
Qed.

Lemma frame_ref_length P h h' r : frame P h h' -> ref_length h' r = ref_length h r.
Proof.
  intros Hf; unfold ref_length.
  destruct (nth_error h' r) as [c'|] eqn:E'.
  - destruct (frame_nth _ _ _ _ _ Hf E') as (c & -> & (_&_&_&_&_&Hl) & _); cbn; congruence.
  - destruct Hf as [L _]; apply nth_error_None in E'; rewrite L in E';
      apply nth_error_None in E'; rewrite E'; reflexivity.
Qed.

(** ** Scoring raises on boundary-only candidates *)

Lemma bind_raises {A B} (R : heap -> heap -> Prop) h0 (m : ST heap A) (k : A -> ST heap B) :
  (forall s1 s2 s3, R s1 s2 -> R s2 s3 -> R s1 s3) ->
  preserves R m -> (forall a, raises_from (R h0) (k a)) -> raises_from (R h0) (bind m k).
Proof.
  intros Ht Hm Hk s Hs; unfold bind; specialize (Hm s).
  destruct (m s) as [s' [a|e]]; cbn in *; [|eauto].
  apply Hk; eapply Ht; eauto.
Qed.

Lemma bind_raises_first {A B} (Q : heap -> Prop) (m : ST heap A) (k : A -> ST heap B) :
  raises_from Q m -> raises_from Q (bind m k).
Proof.
  intros Hm s Hs; unfold bind; destruct (Hm s Hs) as [e He].
  destruct (m s) as [s' r]; cbn in He; subst r; cbn; eauto.
Qed.

Lemma filter_negb_forallb {A} (p : A -> bool) l :
  forallb p l = true -> filter (fun x => negb (p x)) l = [].
Proof.
  induction l as [|x l IH]; cbn; [reflexivity|].
  intros H; apply andb_prop in H as [-> H]; cbn; apply IH, H.
Qed.

Lemma compute_heuristics_raises g M h :
  (2 <= List.length M)%nat ->
  (forall r c, In r M -> nth_error h r = Some c ->
     forallb (fun k => contains k (boundary g)) (c_arcs c) = true) ->
  (forall r, In r M -> exists c, nth_error h r = Some c) ->
  exists e, snd (compute_heuristics g M h) = Raise e.
Proof.
  intros HM Hb Hv.
  set (P := fun i => In i M).
  cut (raises_from (frame P h) (compute_heuristics g M)); [intros H; apply H, frame_refl|].
  unfold compute_heuristics.
  apply bind_raises; [intros ? ? ?; apply frame_trans| |intros _].
  { apply for_each_preserves; [apply frame_refl | intros ? ? ?; apply frame_trans|].
    intros r Hr. heap_frame_step. exact Hr. }
  apply bind_raises; [intros ? ? ?; apply frame_trans| |intros [rc sp]].
  { apply get_frequencies_preserves; apply frame_refl. }
  assert (Hx : In (nth 0 M 0%nat) M) by (apply nth_In; lia).
  destruct (seq 0 (List.length M)) as [|i0 rest] eqn:Es.
  { destruct M; cbn in HM; [lia | discriminate]. }
  assert (i0 = 0%nat) as -> by (destruct M; cbn in *; [lia | injection Es as <- _; reflexivity]).
  cbn [for_each]; apply bind_raises_first; cbv zeta.
  set (x := nth 0 M 0%nat) in *.
  do 9 (apply bind_raises;
          [intros ? ? ?; apply frame_trans | heap_frame_step; try exact Hx | intros ?]).
  intros s Hs; unfold bind at 1, deref.
  destruct (Hv x Hx) as [c Hc].
  destruct Hs as [L F]; destruct (F x c Hc) as (c' & Hc' & (_ & Ea & _) & _).
  rewrite Hc'; cbn [lift_res bind].
  rewrite Ea, (filter_negb_forallb _ _ (Hb x c Hx Hc)); cbn.
  eauto.
Qed.

(** ** The structure score of [compute_heuristics] *)

Lemma psd_kept_refl h : psd_kept h h.
Proof. intros r H; exact H. Qed.

Lemma psd_kept_trans h1 h2 h3 : psd_kept h1 h2 -> psd_kept h2 h3 -> psd_kept h1 h3.
Proof. intros H1 H2 r H; auto. Qed.

Lemma set_field_psd_kept r f :
  (forall c, c_arcs (f c) = c_arcs c /\
             path_structure_standard_deviation (f c) = path_structure_standard_deviation c) ->
  preserves psd_kept (set_field r f).
Proof.
  intros Hf h; unfold set_field, bind, deref.
  destruct (nth_error h r) as [c|] eqn:E; cbn; [|apply psd_kept_refl].
  intros y (cy & Hy & Hs); unfold psd_ok.
  rewrite nth_error_list_set, Hy.
  destruct (Nat.eqb_spec y r) as [->|_]; [|eauto].
  rewrite E in Hy; injection Hy as <-.
  exists (f c); split; [reflexivity|]; destruct (Hf c) as [-> ->]; exact Hs.
Qed.

Lemma set_field_psd r sd h h' :
  (forall c, nth_error h r = Some c -> stdev (map structure_component (c_arcs c)) = Ok sd) ->
  set_field r (with_psd sd) h = (h', Ok tt) ->
  psd_ok r h' /\ psd_kept h h'.
Proof.
  intros Hsd; unfold set_field, bind, deref.
  destruct (nth_error h r) as [c|] eqn:E; cbn; [|discriminate].
  intros H; injection H as <-; split.
  - exists (with_psd sd c); rewrite nth_error_list_set, E, Nat.eqb_refl; split;
      [reflexivity | cbn; apply Hsd; reflexivity].
  - intros y (cy & Hy & Hs); unfold psd_ok.
    rewrite nth_error_list_set, Hy.
    destruct (Nat.eqb_spec y r) as [->|_]; [|eauto].
    rewrite E in Hy; injection Hy as <-.
    exists (with_psd sd c); split; [reflexivity|]; cbn; rewrite (Hsd c eq_refl); reflexivity.
Qed.

Lemma psd_segment r (k : candidate -> R -> ST heap unit) :
  (forall c sd, preserves psd_kept (k c sd)) ->
  let seg := c <- deref r ;;
             sd <- lift_res (stdev (map structure_component (c_arcs c))) ;;
             set_field r (with_psd sd) ;;
             k c sd in
  preserves psd_kept seg /\ (forall h h', seg h = (h', Ok tt) -> psd_ok r h').
Proof.
  intros Hk seg; unfold seg; clear seg.
  assert (Step : forall h c sd, nth_error h r = Some c ->
            stdev (map structure_component (c_arcs c)) = Ok sd ->
            exists h1, set_field r (with_psd sd) h = (h1, Ok tt) /\ psd_ok r h1 /\ psd_kept h h1).
  { intros h c sd E Es.
    assert (Ex : exists h1, set_field r (with_psd sd) h = (h1, Ok tt))
      by (unfold set_field, bind, deref, modify; rewrite E; eexists; reflexivity).
    destruct Ex as [h1 E1]; exists h1; split; [exact E1|].
    apply (set_field_psd r sd h h1); [|exact E1].
    intros c' E'; rewrite E in E'; injection E' as <-; exact Es. }
  split.
  - intros h; unfold bind at 1, deref.
    destruct (nth_error h r) as [c|] eqn:E; cbv beta iota; [|apply psd_kept_refl].
    unfold bind at 1, lift_res.
    destruct (stdev (map structure_component (c_arcs c))) as [sd|e] eqn:Es; cbv beta iota;
      [|apply psd_kept_refl].
    unfold bind at 1.
    destruct (Step h c sd E Es) as (h1 & E1 & _ & K1); rewrite E1.
    eapply psd_kept_trans; [exact K1 | apply Hk].
  - intros h h'; unfold bind at 1, deref.
    destruct (nth_error h r) as [c|] eqn:E; cbv beta iota; [|discriminate].
    unfold bind at 1, lift_res.
    destruct (stdev (map structure_component (c_arcs c))) as [sd|e] eqn:Es; cbv beta iota;
      [|discriminate].
    unfold bind at 1.
    destruct (Step h c sd E Es) as (h1 & E1 & P1 & _); rewrite E1.
    intros E2; specialize (Hk c sd h1); rewrite E2 in Hk; apply Hk, P1.
Qed.

Lemma for_each_psd {A} (xs : list A) (f : A -> nat) (body : A -> ST heap unit) :
  (forall x, In x xs -> preserves psd_kept (body x)) ->
  (forall x h h', In x xs -> body x h = (h', Ok tt) -> psd_ok (f x) h') ->
  forall h h', for_each xs body h = (h', Ok tt) -> forall x, In x xs -> psd_ok (f x) h'.
Proof.
  induction xs as [|x xs IH]; intros Hp He h h' E y Hy; [destruct Hy|].
  cbn in E; unfold bind in E.
  destruct (body x h) as [h1 [[]|e]] eqn:E1; [|discriminate].
  destruct Hy as [<-|Hy].
  - assert (K : preserves psd_kept (for_each xs body)).
    { apply for_each_preserves; [apply psd_kept_refl | apply psd_kept_trans|].
      intros z Hz; apply Hp; right; exact Hz. }
    specialize (K h1); rewrite E in K; apply K.
    apply (He x h h1 (or_introl eq_refl) E1).
  - apply (IH (fun z Hz => Hp z (or_intror Hz)) (fun z g g' Hz => He z g g' (or_intror Hz))
             h1 h' E y Hy).
Qed.

Ltac psd_step :=
  repeat first
    [ apply set_field_psd_kept; intros ?; split; reflexivity
    | apply bind_preserves; [apply psd_kept_trans| |intros ?]
    | apply deref_preserves; apply psd_kept_refl
    | apply ret_preserves; apply psd_kept_refl
    | apply lift_res_preserves; apply psd_kept_refl
    | apply nds_loop_preserves; apply psd_kept_refl ].

(** ** Complete paths over a one-letter word *)

Lemma ceiling_fuel3 : Z.to_nat ceiling = S (S (S (Z.to_nat (ceiling - 3)))).
Proof.
  unfold ceiling; rewrite <- !Z2Nat.inj_succ by lia. f_equal.
Qed.

Lemma attempt_one_letter n :
  attempt_with (S (S (S n))) one_letter_start = attempt_with 3 one_letter_start.
Proof. vm_compute; reflexivity. Qed.

Lemma link_unrepresented_one_letter :
  link_unrepresented one_letter_lattice = (one_letter_lattice, Ok tt).
Proof. vm_compute; reflexivity. Qed.

Lemma search_loop_one_letter f :
  search_loop (S f) one_letter_start = (fst (attempt_with 3 one_letter_start), Ok (Paths one_letter_candidates)).
Proof.
  cbn [search_loop].
  rewrite attempt_fuel, ceiling_fuel3, attempt_one_letter.
  generalize (Z.to_nat (ceiling - 3)). intros n.
  destruct f; vm_compute; reflexivity.
Qed.

Lemma find_all_paths_one_letter :
  snd (find_all_paths one_letter_lattice) = Ok (Paths one_letter_candidates).
Proof.
  unfold find_all_paths; rewrite link_unrepresented_one_letter.
  replace (Z.to_nat ceiling + 2)%nat with (S (S (Z.to_nat ceiling))) by lia.
  fold one_letter_start; rewrite search_loop_one_letter; reflexivity.
Qed.

(** ** A search that passes the step ceiling *)

Lemma attempt_overflow_start :
  attempt overflow_start = (fst (attempt_with 3 overflow_start), Ok tt).
Proof.
  rewrite attempt_fuel, ceiling_fuel3; generalize (Z.to_nat (ceiling - 3)); intros n.
  vm_compute; reflexivity.
Qed.

Lemma py_index_past_end s : py_index s (Z.of_nat (String.length s)) = Raise IndexError.
Proof.
  unfold py_index; rewrite (proj2 (Z.ltb_ge _ 0)) by lia.
  rewrite Z.ltb_irrefl, andb_false_r; reflexivity.
Qed.

Lemma link_silences_last g :
  snd (link_silences (Z.of_nat (String.length (letters g)) - 1) g) = Raise IndexError.
Proof.
  unfold link_silences, bind, get, lift_res.
  destruct (py_index _ (_ - 1)) eqn:E.
  - replace (Z.of_nat (String.length (letters g)) - 1 + 1)%Z
      with (Z.of_nat (String.length (letters g))) by lia.
    rewrite py_index_past_end; reflexivity.
  - unfold py_index in E.
    destruct (_ && _)%bool; [discriminate|]. injection E as <-; reflexivity.
Qed.

Lemma res_map_ok {A B} (f : A -> res B) l :
  (forall x, In x l -> exists y, f x = Ok y) -> exists ys, res_map f l = Ok ys.
Proof.
  induction l as [|x l IH]; intros H; simpl; [eauto|].
  destruct (H x (or_introl eq_refl)) as [y ->].
  destruct IH as [ys ->]; [intros z Hz; apply H; right; exact Hz|]; eauto.
Qed.

Lemma func_by_attribute_ok l attr b h :
  l <> [] -> (forall r, In r l -> exists c, nth_error h r = Some c) ->
  exists out, func_by_attribute l attr b h = (h, Ok out).
Proof.
  intros Hne Hr; unfold func_by_attribute, bind, get, lift_res.
  destruct (res_map_ok (fun r => match nth_error h r with
                                 | Some c => Ok (r, attr c)
                                 | None => Raise Dangling end) l) as [vals Ev].
  { intros r Hin; destruct (Hr r Hin) as [c ->]; eauto. }
  rewrite Ev.
  destruct vals as [|[r0 v0] vs]; [|eexists; reflexivity].
  destruct l as [|r l]; [congruence|].
  cbn in Ev; destruct (nth_error h r); [|discriminate].
  destruct (res_map _ l); discriminate.
Qed.

Lemma is_min_ref_resolves h rs r r' :
  is_min_ref h rs r = true -> In r' rs -> exists c, nth_error h r' = Some c.
Proof.
  unfold is_min_ref; destruct (ref_length h r); [|discriminate].
  intros H Hin; rewrite forallb_forall in H; specialize (H r' Hin).
  unfold ref_length in H; destruct (nth_error h r'); [eauto | discriminate].
Qed.

(** ** Further properties *)

(** [add] with an empty letter or phoneme span raises [IndexError] when
    it reads [sub_letters[0]] or [sub_phones[0]], before it touches the
    lattice. *)
Theorem add_empty_span_raises L P s g :
  (L = ""%string \/ P = ""%string) -> add L P s g = (g, Raise IndexError).
Proof.
  intros [-> | ->]; unfold add, bind, get, lift_res; cbn; [reflexivity|].
  unfold py_index; destruct (_ && _)%bool; reflexivity.
Qed.

Lemma add_empty_span_raises_witness :
  ((""%string = ""%string \/ "x"%string = ""%string) /\
   add "" "x" 0 (init "ab") = (init "ab", Raise IndexError)) /\
  (("a"%string = ""%string \/ ""%string = ""%string) /\
   add "a" "" 0 (init "ab") = (init "ab", Raise IndexError)).
Proof.
  split; (split; [auto|]).
  - exact (add_empty_span_raises "" "x" 0 (init "ab") (or_introl eq_refl)).
  - exact (add_empty_span_raises "a" "" 0 (init "ab") (or_intror eq_refl)).
Defined.

(** When no node sits at the index of the first unrepresented bigram,
    [link_unrepresented] calls [exit()] without changing the lattice, and so
    does [find_all_paths], which calls it first. *)
Theorem link_unrepresented_exits g x b rest :
  unrepresented_bigrams g = (x, b) :: rest -> (2 <= String.length b)%nat ->
  nodes_at g x = [] ->
  link_unrepresented g = (g, Raise SystemExit) /\ find_all_paths g = (g, Raise SystemExit).
Proof.
  intros Hu Hb Hx.
  assert (E : link_unrepresented g = (g, Raise SystemExit)).
  { unfold link_unrepresented, bind, get; rewrite Hu; cbn [for_each].
    unfold bind, lift_res; cbn [fst snd].
    destruct b as [|c0 [|c1 b']]; cbn in Hb; try lia.
    assert (E1 : py_index (String c0 (String c1 b')) 1 = Ok (String c1 ""%string)).
    { unfold py_index; cbn [Z.ltb Z.compare].
      rewrite (proj2 (Z.ltb_lt 1 _)) by (cbn [String.length]; lia); destruct b'; reflexivity. }
    cbn; rewrite E1; cbn; rewrite Hx; reflexivity. }
  split; [exact E|]; unfold find_all_paths; rewrite E; reflexivity.
Qed.

Lemma link_unrepresented_exits_witness :
  let g := run (flag_unrepresented_bigrams "abc" []) (init "abc") in
  unrepresented_bigrams g = [(0%Z, "ab"%string)] /\ nodes_at g 0 = [] /\
  find_all_paths g = (g, Raise SystemExit).
Proof.
  cbv zeta.
  assert (H1 : unrepresented_bigrams (run (flag_unrepresented_bigrams "abc" []) (init "abc"))
               = [(0%Z, "ab"%string)]) by (vm_compute; reflexivity).
  assert (H2 : nodes_at (run (flag_unrepresented_bigrams "abc" []) (init "abc")) 0 = [])
    by (vm_compute; reflexivity).
  split; [exact H1|]; split; [exact H2|].
  refine (proj2 (link_unrepresented_exits _ 0 "ab" [] H1 _ H2)); vm_compute; lia.
Defined.

Lemma search_loop_codes fuel : forall s s' z,
  search_loop fuel s = (s', Ok (ErrCode z)) -> In z ERRORS.
Proof.
  induction fuel as [|fuel IH]; intros s s' z; cbn [search_loop].
  - destruct (_ && _); [destruct (_ =? _)%Z | destruct (overflow s)];
      intros H; inversion H; subst; cbn; auto.
  - destruct (_ && _); [|destruct (overflow s); intros H; inversion H; subst; cbn; auto].
    destruct (_ =? _)%Z; [intros H; inversion H; subst; cbn; auto|].
    destruct (attempt s) as [s1 [x|e]]; [|discriminate].
    destruct (candidates s1); [|apply IH].
    destruct (link_silences _ _) as [g2 [y|e]]; [apply IH | discriminate].
Qed.

(** The only error codes [find_all_paths] returns are [NO_PATHS_FOUND] and
    [SEARCHED_TOO_LONG]; [decide] passes these two codes through unchanged
    and raises [TypeError] on any other integer. *)
Theorem decide_error_codes g z h :
  (forall g0 g1 z0, find_all_paths g0 = (g1, Ok (ErrCode z0)) ->
     z0 = NO_PATHS_FOUND \/ z0 = SEARCHED_TOO_LONG) /\
  decide g (InCode z) h =
    (h, if ((z =? NO_PATHS_FOUND) || (z =? SEARCHED_TOO_LONG))%Z
        then Ok (DErrCode z) else Raise TypeError).
Proof.
  split.
  - intros g0 g1 z0; unfold find_all_paths.
    destruct (link_unrepresented g0) as [g2 [x|e]]; [|discriminate].
    destruct (search_loop _ _) as [s r] eqn:E; intros H; injection H as _ ->.
    destruct (search_loop_codes _ _ _ _ E) as [-> | [-> | []]]; auto.
  - unfold decide, ERRORS; cbn [existsb]; rewrite orb_false_r.
    destruct (_ || _); reflexivity.
Qed.

(** When a single candidate has the minimal length, [decide] returns it
    under the one label [min_length] without scoring the candidates. *)
Theorem decide_unique_min g rs h r :
  filter (is_min_ref h rs) rs = [r] ->
  decide g (InList rs) h = (h, Ok (Labelled [("min_length"%string, r)])).
Proof.
  intros Hf.
  assert (Hr : In r rs /\ is_min_ref h rs r = true)
    by (apply filter_In; rewrite Hf; left; reflexivity).
  destruct rs as [|r0 rs0]; [destruct Hr as [[] _]|].
  unfold decide; cbv beta iota; set (rs := r0 :: rs0) in *.
  destruct (func_by_attribute_ok rs (fun c => Z.of_nat (length c)) true h) as [M EM];
    [discriminate | intros r' Hr'; exact (is_min_ref_resolves h rs r r' (proj2 Hr) Hr') |].
  assert (HM : M = filter (is_min_ref h rs) rs)
    by (apply (func_by_attribute_min rs h M); rewrite EM; reflexivity).
  unfold bind at 1; rewrite EM, HM, Hf; reflexivity.
Qed.

Lemma decide_unique_min_witness :
  filter (is_min_ref (map cand_of_length [3; 2; 4]%nat) [0; 1; 2]%nat) [0; 1; 2]%nat = [1%nat] /\
  decide (init "ab") (InList [0; 1; 2]%nat) (map cand_of_length [3; 2; 4]%nat) =
    (map cand_of_length [3; 2; 4]%nat, Ok (Labelled [("min_length"%string, 1%nat)])).
Proof.
  assert (H : filter (is_min_ref (map cand_of_length [3; 2; 4]%nat) [0; 1; 2]%nat) [0; 1; 2]%nat
              = [1%nat]) by (vm_compute; reflexivity).
  split; [exact H | exact (decide_unique_min _ _ _ _ H)].
Defined.

Lemma res_map_labels {A B} (f : A -> res (string * B)) (lab : A -> string) l ys :
  (forall x y, f x = Ok y -> fst y = lab x) -> res_map f l = Ok ys -> map fst ys = map lab l.
Proof.
  intros Hf; revert ys; induction l as [|x l IH]; intros ys; cbn.
  - intros H; injection H as <-; reflexivity.
  - destruct (f x) as [y|e] eqn:Ex; [|discriminate].
    destruct (res_map f l) as [ys'|e]; [|discriminate].
    intros H; injection H as <-; cbn; rewrite (Hf x y Ex), (IH ys' eq_refl); reflexivity.
Qed.

Lemma rank_by_heuristics_labels h M sorted results :
  rank_by_heuristics h M = Ok (sorted, results) -> map fst results = map label_of (tl strategies).
Proof.
  unfold rank_by_heuristics.
  destruct (fold_left _ heuristic_attrs _) as [[l maps]|e]; [|discriminate].
  destruct (res_map rank_to_score maps) as [columns|e]; [|discriminate].
  destruct (res_map _ (tl strategies)) as [labelled|e] eqn:E; [|discriminate].
  intros H; injection H as _ <-.
  refine (res_map_labels _ label_of _ _ _ E).
  intros strategy y; destruct (fusion_totals _ _ _); [|discriminate].
  destruct (dict_argmax _); [|discriminate]; intros H; injection H as <-; reflexivity.
Qed.

(** The labels of the 31 rank fusions. *)
Definition fusion_labels : list string :=
  ["00001"; "00010"; "00011"; "00100"; "00101"; "00110"; "00111"; "01000";
   "01001"; "01010"; "01011"; "01100"; "01101"; "01110"; "01111"; "10000";
   "10001"; "10010"; "10011"; "10100"; "10101"; "10110"; "10111"; "11000";
   "11001"; "11010"; "11011"; "11100"; "11101"; "11110"; "11111"]%string.

Lemma fusion_labels_eq : map label_of (tl strategies) = fusion_labels.
Proof. vm_compute; reflexivity. Qed.

(** When several candidates tie for the minimal length, [decide] labels
    its results with the 31 rank fusions, then [sum_of_products] and
    [arc_count_sum], with no label repeated. *)
Theorem decide_labels g rs h h' m :
  (2 <= List.length (filter (is_min_ref h rs) rs))%nat ->
  decide g (InList rs) h = (h', Ok (Labelled m)) ->
  map fst m = fusion_labels ++ ["sum_of_products"; "arc_count_sum"]%string /\
  NoDup (map fst m).
Proof.
  intros H2 Ed.
  assert (Hnd : NoDup (fusion_labels ++ ["sum_of_products"; "arc_count_sum"]%string)).
  { apply (NoDup_map_inv (fun s => s)); rewrite map_id.
    repeat constructor; cbn; intuition discriminate. }
  cut (map fst m = fusion_labels ++ ["sum_of_products"; "arc_count_sum"]%string);
    [intros E; split; [exact E | rewrite E; exact Hnd]|].
  revert Ed.
  destruct rs as [|r0 rs0]; [cbn in H2; lia|].
  unfold decide; cbv beta iota; set (rs := r0 :: rs0) in *.
  unfold bind at 1.
  destruct (func_by_attribute_run rs (fun c => Z.of_nat (length c)) true h) as [r1 E1].
  rewrite E1; destruct r1 as [M|e]; [|discriminate].
  assert (HM : M = filter (is_min_ref h rs) rs)
    by (apply (func_by_attribute_min rs h M); rewrite E1; reflexivity).
  rewrite <- HM in H2.
  destruct M as [|x [|y M']]; cbn in H2; try lia.
  unfold bind at 1; destruct (compute_heuristics _ _ h) as [h1 [[]|e]]; [|discriminate].
  unfold bind, get, lift_res at 1.
  destruct (rank_by_heuristics h1 _) as [[sorted results]|e] eqn:Er; [|discriminate].
  apply rank_by_heuristics_labels in Er.
  destruct (func_by_attribute_run sorted (fun c => Z.of_nat (sum_of_products c)) false h1)
    as [[sops|e] E2]; rewrite E2; [|discriminate].
  unfold lift_res at 1; destruct (first_of sops) as [sop|e]; [|discriminate].
  destruct (func_by_attribute_run sorted arc_count_sum false h1) as [[acss|e] E4];
    rewrite E4; [|discriminate].
  unfold lift_res at 1; destruct (first_of acss) as [acs|e]; [|discriminate].
  unfold ret; intros E; injection E as _ <-.
  rewrite map_app, Er, fusion_labels_eq; reflexivity.
Qed.

(** Decisions of [Rle_dec], [Rlt_dec] and [Req_dec_T] on closed terms. *)
Ltac rstep :=
  cbv -[Rle_dec Req_dec_T Rlt_dec sqrt Rdiv Rplus Rmult Rminus Ropp IZR INR Rinv];
  match goal with
  | |- context [Rle_dec ?a ?b] =>
      let H := fresh "H" in destruct (Rle_dec a b) as [H|H];
      try solve [exfalso; cbv -[sqrt Rdiv Rplus Rmult Rminus Ropp IZR INR Rinv Rle Rlt not] in H; simpl INR in H; lra]
  | |- context [Rlt_dec ?a ?b] =>
      let H := fresh "H" in destruct (Rlt_dec a b) as [H|H];
      try solve [exfalso; cbv -[sqrt Rdiv Rplus Rmult Rminus Ropp IZR INR Rinv Rle Rlt not] in H; simpl INR in H; lra]
  | |- context [Req_dec_T ?a ?b] =>
      let H := fresh "H" in destruct (Req_dec_T a b) as [H|H];
      try solve [exfalso; cbv -[sqrt Rdiv Rplus Rmult Rminus Ropp IZR INR Rinv Rle Rlt not] in H; simpl INR in H; lra]
  end.

(** [decide] on the two candidates of [span_lattice]: every score ties, so
    every label goes to the first candidate. *)
Lemma decide_span :
  decide span_lattice (InList [0; 1]%nat) span_candidates =
  (fst (decide span_lattice (InList [0; 1]%nat) span_candidates),
   Ok (Labelled (map (fun l => (l, 0%nat)) (fusion_labels ++ ["sum_of_products"; "arc_count_sum"]%string)))).
Proof.
  rewrite (surjective_pairing (decide _ _ _)) at 1; f_equal.
  repeat rstep.
  all: cbv -[Rle_dec Req_dec_T Rlt_dec sqrt Rdiv Rplus Rmult Rminus Ropp IZR INR Rinv].
  reflexivity.
Qed.

Lemma decide_labels_witness :
  (2 <= List.length (filter (is_min_ref span_candidates [0; 1]%nat) [0; 1]%nat))%nat /\
  map fst (map (fun l => (l, 0%nat)) (fusion_labels ++ ["sum_of_products"; "arc_count_sum"]%string)) =
    fusion_labels ++ ["sum_of_products"; "arc_count_sum"]%string /\
  NoDup (map fst (map (fun l => (l, 0%nat)) (fusion_labels ++ ["sum_of_products"; "arc_count_sum"]%string))).
Proof.
  assert (H2 : (2 <= List.length (filter (is_min_ref span_candidates [0; 1]%nat) [0; 1]%nat))%nat)
    by (vm_compute; lia).
  split; [exact H2|].
  exact (decide_labels _ _ _ _ _ H2 decide_span).
Defined.

Lemma dict_add_get k k' v d :
  dict_get k (dict_add k' v d) =
  if String.eqb k k' then Ok (match dict_get k d with Ok x => (x + v)%nat | Raise _ => v end)
  else dict_get k d.
Proof.
  induction d as [|[k'' v''] d IH]; cbn.
  - destruct (String.eqb k k'); reflexivity.
  - destruct (String.eqb_spec k' k'') as [->|Hne]; cbn.
    + destruct (String.eqb_spec k k''); reflexivity.
    + destruct (String.eqb_spec k k'') as [->|Hk].
      * destruct (String.eqb_spec k'' k'); [congruence|reflexivity].
      * rewrite IH; reflexivity.
Qed.

Lemma dict_get_raise k d e : dict_get k d = Raise e -> e = KeyError.
Proof.
  induction d as [|[k' v] d IH]; cbn; [congruence|].
  destruct (String.eqb k k'); [discriminate|exact IH].
Qed.

(** References of [l] whose candidate has pronunciation [p]. *)
Definition same_pronunciation (h : heap) (l : list nat) (p : string) : list nat :=
  filter (fun r => String.eqb (pronunciation (nth r h empty_candidate)) p) l.

Definition dict_find (k : string) (d : list (string * nat)) : option nat :=
  match dict_get k d with Ok x => Some x | Raise _ => None end.

Definition tally (o : option nat) (rs : list nat) (f : nat -> nat) : option nat :=
  match o, rs with
  | None, [] => None
  | _, _ => Some (match o with Some x => x | None => 0 end + list_sum (map f rs))%nat
  end.

Definition frequencies_loop :=
  fix go (l : list nat) (rc sp : list (string * nat)) :=
     match l with
     | [] => ret (rc, sp)
     | r :: l' =>
         c <- deref r ;;
         go l' (dict_add (pronunciation c) 1 rc)
               (dict_add (pronunciation c) (arc_count_product c) sp)
     end.

Lemma frequencies_loop_spec h l : (forall r, In r l -> r < List.length h) ->
  forall rc sp, exists rc' sp', frequencies_loop l rc sp h = (h, Ok (rc', sp')) /\
  forall p, dict_find p rc' = tally (dict_find p rc) (same_pronunciation h l p) (fun _ => 1%nat) /\
            dict_find p sp' = tally (dict_find p sp) (same_pronunciation h l p)
                           (fun r => arc_count_product (nth r h empty_candidate)).
Proof.
  induction l as [|r l IH]; intros Hl rc sp.
  - exists rc, sp; split; [reflexivity|].
    intros p; cbn; unfold tally; cbn.
    split; destruct (dict_find p _); f_equal; lia.
  - assert (Hr : r < List.length h) by (apply Hl; left; reflexivity).
    destruct (nth_error h r) as [c|] eqn:E;
      [|apply nth_error_None in E; lia].
    assert (Ec : nth r h empty_candidate = c) by (apply nth_error_nth; exact E).
    destruct (IH (fun r' H => Hl r' (or_intror H))
                 (dict_add (pronunciation c) 1 rc)
                 (dict_add (pronunciation c) (arc_count_product c) sp))
      as (rc' & sp' & Eg & Hp).
    exists rc', sp'; split.
    + cbn; unfold bind, deref; rewrite E; exact Eg.
    + intros p; destruct (Hp p) as [H1 H2]; rewrite H1, H2.
      unfold same_pronunciation; cbn [filter]; rewrite Ec.
      fold (same_pronunciation h l p).
      unfold dict_find; rewrite !dict_add_get.
      rewrite (String.eqb_sym (pronunciation c) p).
      destruct (String.eqb p (pronunciation c)).
      * unfold tally; cbn [map list_sum]; rewrite Ec.
        split; destruct (dict_get p _); destruct (same_pronunciation h l p); cbn; f_equal; try lia.
      * split; reflexivity.
Qed.

Lemma frequencies_lookup h l :
  (forall r, In r l -> r < List.length h) ->
  exists rc sp, get_frequencies_by_pronunciation l h = (h, Ok (rc, sp)) /\
  forall p,
    dict_get p rc = match same_pronunciation h l p with
                    | [] => Raise KeyError
                    | rs => Ok (List.length rs) end /\
    dict_get p sp = match same_pronunciation h l p with
                    | [] => Raise KeyError
                    | rs => Ok (list_sum (map (fun r => arc_count_product
                                                 (nth r h empty_candidate)) rs)) end.
Proof.
  intros Hl; destruct (frequencies_loop_spec h l Hl [] []) as (rc & sp & E & Hp).
  exists rc, sp; split; [exact E|].
  intros p; destruct (Hp p) as [H1 H2]; unfold dict_find, tally in *; cbn in H1, H2.
  assert (Hlen : forall rs : list nat, list_sum (map (fun _ => 1%nat) rs) = List.length rs)
    by (induction rs as [|? ? IHr]; [reflexivity|simpl; rewrite IHr; reflexivity]).
  split.
  - destruct (dict_get p rc) as [x|e] eqn:Ed; destruct (same_pronunciation h l p) as [|r rs];
      try discriminate; [injection H1 as ->; rewrite Hlen; reflexivity|].
    rewrite (dict_get_raise _ _ _ Ed); reflexivity.
  - destruct (dict_get p sp) as [x|e] eqn:Ed; destruct (same_pronunciation h l p) as [|r rs];
      try discriminate; [injection H2 as ->; reflexivity|].
    rewrite (dict_get_raise _ _ _ Ed); reflexivity.
Qed.

(** [get_frequencies_by_pronunciation] maps each pronunciation that occurs
    among the candidates to its number of occurrences and to the sum of
    their [arc_count_product]s; looking up any other pronunciation raises
    [KeyError]. *)
Theorem frequencies_by_pronunciation_lookup h l :
  (forall r, In r l -> r < List.length h) ->
  exists rc sp, get_frequencies_by_pronunciation l h = (h, Ok (rc, sp)) /\
  forall p,
    dict_get p rc = match same_pronunciation h l p with
                    | [] => Raise KeyError
                    | rs => Ok (List.length rs) end /\
    dict_get p sp = match same_pronunciation h l p with
                    | [] => Raise KeyError
                    | rs => Ok (list_sum (map (fun r => arc_count_product
                                                 (nth r h empty_candidate)) rs)) end.
Proof. exact (frequencies_lookup h l). Qed.

Lemma frequencies_by_pronunciation_lookup_witness :
  (forall r, In r [0; 1; 0]%nat -> r < List.length (map cand_of_length [3; 2]%nat)) /\
  exists rc sp, get_frequencies_by_pronunciation [0; 1; 0]%nat (map cand_of_length [3; 2]%nat)
                = (map cand_of_length [3; 2]%nat, Ok (rc, sp)) /\ True.
Proof.
  assert (H : forall r, In r [0; 1; 0]%nat -> r < List.length (map cand_of_length [3; 2]%nat))
    by (intros r Hr; cbn in Hr; cbn; lia).
  split; [exact H|].
  destruct (frequencies_by_pronunciation_lookup _ _ H) as (rc & sp & E & _).
  exists rc, sp; split; [exact E | exact I].
Defined.

(** [ks] leads from [a] to [b], each arc leaving where the previous one ends. *)
Fixpoint chain (a : node) (ks : list arc) (b : node) : Prop :=
  match ks with
  | [] => a = b
  | k :: ks' => from_node k = a /\ chain (to_node k) ks' b
  end.

(** The strings a sequence of arcs contributes: the first arc its
    intermediate phonemes, every later arc the phoneme of its source node and
    then its intermediate phonemes. *)
Definition arc_strings (ks : list arc) : list string :=
  match ks with
  | [] => []
  | k :: ks' => intermediate_phonemes k ::
      flat_map (fun k' => [phoneme (from_node k'); intermediate_phonemes k']) ks'
  end.

(** The candidate buffer at node [u]. *)
Definition buf_ok (g : lattice) (u : node) (b : candidate) : Prop :=
  chain (START_NODE g) (c_arcs b) u /\
  Forall (fun k => In k (map fst (arcs g))) (c_arcs b) /\
  path_strings b = arc_strings (c_arcs b) /\
  length b = List.length (c_arcs b).

(** A complete path from START to END over the stored arcs. *)
Definition complete_path (g : lattice) (c : candidate) : Prop :=
  chain (START_NODE g) (c_arcs c) (END_NODE g) /\
  Forall (fun k => In k (map fst (arcs g))) (c_arcs c) /\
  path_strings c = arc_strings (c_arcs c) /\
  pronunciation c = String.concat "" (arc_strings (c_arcs c)) /\
  length c = List.length (c_arcs c).

Definition buf_view (b : candidate) : list arc * list string * nat :=
  (c_arcs b, path_strings b, length b).

Lemma chain_snoc a ks b k : chain a ks b -> from_node k = b -> chain a (ks ++ [k]) (to_node k).
Proof.
  revert a; induction ks as [|k' ks IH]; intros a H Hk; cbn in *.
  - subst; split; reflexivity.
  - destruct H as [H1 H2]; split; [exact H1 | apply IH; assumption].
Qed.

Lemma arc_strings_snoc ks k :
  arc_strings (ks ++ [k]) =
  match ks with
  | [] => [intermediate_phonemes k]
  | _ => arc_strings ks ++ [phoneme (from_node k); intermediate_phonemes k]
  end.
Proof.
  destruct ks as [|k0 ks]; [reflexivity|].
  cbn [app arc_strings]; rewrite flat_map_app; reflexivity.
Qed.

Lemma arc_strings_drop ks k : py_drop_last 2 (arc_strings (ks ++ [k])) = arc_strings ks.
Proof.
  rewrite arc_strings_snoc; destruct ks as [|k0 ks]; [reflexivity|].
  unfold py_drop_last; rewrite length_app; cbn [List.length].
  replace (List.length (arc_strings (k0 :: ks)) + 2 - 2)%nat
    with (List.length (arc_strings (k0 :: ks))) by lia.
  rewrite firstn_app, Nat.sub_diag, firstn_all; cbn [firstn]; apply app_nil_r.
Qed.

Lemma update_buf_ok g0 g u b k cnt :
  buf_ok g0 u b -> from_node k = u -> In k (map fst (arcs g0)) ->
  buf_ok g0 (to_node k) (update g k cnt b).
Proof.
  intros (Hc & Hs & Hp & Hl) Hk Hin; unfold update, buf_ok; cbn.
  split; [exact (chain_snoc _ _ u k Hc Hk)|].
  split; [apply Forall_app; split; [exact Hs | constructor; [exact Hin | constructor]]|].
  rewrite length_app; cbn [List.length].
  split; [|rewrite Hl; lia].
  rewrite Hp, arc_strings_snoc.
  destruct (c_arcs b) as [|k0 ks]; cbn; [reflexivity|].
  replace (Datatypes.length ks + 1 =? 0)%nat with false by (symmetry; apply Nat.eqb_neq; lia).
  reflexivity.
Qed.

Lemma for_each_ok_inv {S A} (P : S -> Prop) (xs : list A) (body : A -> ST S unit) :
  (forall x s s', In x xs -> P s -> body x s = (s', Ok tt) -> P s') ->
  forall s s', P s -> for_each xs body s = (s', Ok tt) -> P s'.
Proof.
  induction xs as [|x xs IH]; intros Hb s s' Hs E; cbn in E.
  - injection E as <-; exact Hs.
  - unfold bind in E; destruct (body x s) as [s1 [[]|e]] eqn:E1; [|discriminate].
    apply (IH (fun y t t' Hy => Hb y t t' (or_intror Hy)) s1 s'); [|exact E].
    exact (Hb x s s1 (or_introl eq_refl) Hs E1).
Qed.

Lemma in_to_arcs g u k : In k (to_arcs g u) -> from_node k = u /\ In k (map fst (arcs g)).
Proof.
  unfold to_arcs; intros H; apply filter_In in H as [H1 H2].
  split; [apply node_eqb_eq; exact H2 | exact H1].
Qed.

(** A successful [util] adds only complete paths and gives the buffer back. *)
Lemma util_paths g0 fuel : forall u s s',
  util fuel u s = (s', Ok tt) ->
  letters (sg s) = letters g0 -> arcs (sg s) = arcs g0 ->
  buf_ok g0 u (candidate_buffer s) -> Forall (complete_path g0) (candidates s) ->
  letters (sg s') = letters g0 /\ arcs (sg s') = arcs g0 /\
  Forall (complete_path g0) (candidates s') /\
  buf_view (candidate_buffer s') = buf_view (candidate_buffer s).
Proof.
  induction fuel as [|fuel IH]; intros u s s' E HL HA Hb Hc; cbn [util] in E.
  - destruct (_ >? ceiling)%Z; [|discriminate].
    injection E as <-; cbn; auto.
  - destruct (_ >? ceiling)%Z.
    { injection E as <-; cbn; auto. }
    set (s3 := set_furthest _ _) in E.
    assert (H3 : letters (sg s3) = letters g0 /\ arcs (sg s3) = arcs g0 /\
                 Forall (complete_path g0) (candidates s3) /\
                 buf_view (candidate_buffer s3) = buf_view (candidate_buffer s))
      by (cbn; auto).
    set (P := fun t => letters (sg t) = letters g0 /\ arcs (sg t) = arcs g0 /\
                 Forall (complete_path g0) (candidates t) /\
                 buf_view (candidate_buffer t) = buf_view (candidate_buffer s)).
    assert (Hfin : forall t, P t -> (set_sg t (unmark u (sg t)), Ok tt) = (s', Ok tt) -> P s').
    { intros t Ht Et; injection Et as <-; exact Ht. }
    match type of E with
    | (match ?m s3 with _ => _ end) = _ =>
        destruct (m s3) as [s4 [x|e]] eqn:Eb; [|discriminate];
        apply (Hfin s4); [|exact E]; clear E; revert Eb
    end.
    destruct (node_eqb u (END_NODE (sg s3))) eqn:Eu.
    + intros Eb; injection Eb as Eb _; subst s4.
      apply node_eqb_eq in Eu.
      destruct H3 as (L3 & A3 & C3 & V3).
      assert (Hnew : complete_path g0 (solidify (copy_candidate (candidate_buffer s3)))).
      { destruct Hb as (Hch & Hs & Hp & Hl).
        change (candidate_buffer s3) with (candidate_buffer s).
        unfold complete_path, solidify, copy_candidate; cbn.
        split; [|split; [exact Hs | split; [exact Hp | split; [rewrite Hp; reflexivity | exact Hl]]]].
        unfold END_NODE in *; rewrite <- L3; rewrite <- Eu; exact Hch. }
      destruct (_ <? _)%Z; (split; [exact L3|]); (split; [exact A3|]);
        cbn; (split; [apply Forall_app; split; [exact C3 | constructor; [exact Hnew | constructor]]
                     | exact V3]).
    + destruct (_ <? _)%Z; [|intros Eb; injection Eb as <- _; exact H3].
      intros Eb; destruct x; refine (for_each_ok_inv P _ _ _ s3 s4 H3 Eb).
      clear Eb; intros k t t' Hk (Lt & At & Ct & Vt) Et; cbv beta in Et.
      destruct (in_to_arcs _ _ _ Hk) as [Hfrom Hin].
      change (arcs (sg s3)) with (arcs (sg s)) in Hin; rewrite HA in Hin.
      destruct (arc_count (sg t) k) as [cnt|e] eqn:Ec; [|discriminate].
      set (t1 := set_buffer t _) in Et.
      assert (Hb1 : buf_ok g0 (to_node k) (candidate_buffer t1)).
      { unfold t1; cbn; apply (update_buf_ok g0 _ u); [|exact Hfrom | exact Hin].
        destruct Hb as (Hch & Hs & Hp & Hl).
        unfold buf_view in Vt; injection Vt as V1 V2 V3.
        unfold buf_ok; rewrite V1, V2, V3; auto. }
      destruct (if is_visited (sg t) (to_node k) then (t1, Ok tt)
                else util fuel (to_node k) t1) as [t2 [[]|e]] eqn:E2; [|discriminate].
      assert (H2 : letters (sg t2) = letters g0 /\ arcs (sg t2) = arcs g0 /\
                   Forall (complete_path g0) (candidates t2) /\
                   buf_view (candidate_buffer t2) = buf_view (candidate_buffer t1)).
      { destruct (is_visited (sg t) (to_node k)).
        - injection E2 as <-; cbn; auto.
        - apply (IH (to_node k) t1 t2 E2); cbn; assumption. }
      destruct H2 as (L2 & A2 & C2 & V2).
      unfold buf_view, t1 in V2; cbn [candidate_buffer set_buffer] in V2.
      injection V2 as W1 W2 W3.
      change (c_arcs (update (sg t) k cnt (candidate_buffer t)))
        with (c_arcs (candidate_buffer t) ++ [k]) in W1.
      unfold pop in Et; rewrite W1, rev_app_distr in Et; cbn in Et.
      assert (Ec2 : arc_count (sg t2) k = Ok cnt)
        by (unfold arc_count in *; rewrite A2, <- At; exact Ec).
      rewrite Ec2 in Et; injection Et as <-.
      unfold P; cbn; split; [exact L2|]; split; [exact A2|]; split; [exact C2|].
      destruct Hb1 as (_ & _ & Hp1 & Hl1).
      unfold t1 in Hp1, Hl1; cbn [candidate_buffer set_buffer] in Hp1, Hl1.
      change (c_arcs (update (sg t) k cnt (candidate_buffer t)))
        with (c_arcs (candidate_buffer t) ++ [k]) in Hp1, Hl1.
      rewrite <- Vt; unfold buf_view; cbn [c_arcs path_strings length].
      assert (Hps : path_strings (candidate_buffer t2) = arc_strings (c_arcs (candidate_buffer t) ++ [k]))
        by (rewrite W2; exact Hp1).
      assert (Hlt : length (candidate_buffer t2) = List.length (c_arcs (candidate_buffer t) ++ [k]))
        by (rewrite W3; exact Hl1).
      rewrite Hps, Hlt, py_drop_last_snoc, arc_strings_drop, length_app; cbn [List.length].
      destruct Hb as (Hch & Hs & Hp & Hl).
      unfold buf_view in Vt; injection Vt as V1 V2 V3.
      f_equal; [f_equal|].
      * rewrite V2, Hp, V1; reflexivity.
      * rewrite V3, Hl, V1; lia.
Qed.

Lemma in_map_fst_lookup k st : In k (map fst st) -> exists c, arc_lookup k st = Some c.
Proof.
  induction st as [|[k' c'] st IH]; cbn; [intros []|].
  destruct (arc_eqb k k') eqn:E; [eauto|].
  intros [->|H]; [rewrite (proj2 (arc_eqb_eq k k) eq_refl) in E; discriminate | auto].
Qed.

Lemma lookup_in_map_fst k st c : arc_lookup k st = Some c -> In k (map fst st).
Proof.
  induction st as [|[k' c'] st IH]; cbn; [discriminate|].
  destruct (arc_eqb k k') eqn:E; [apply arc_eqb_eq in E; subst; left; reflexivity|].
  intros H; right; auto.
Qed.

Lemma complete_path_grow g g' c :
  letters g' = letters g -> arcs_le g g' -> complete_path g c -> complete_path g' c.
Proof.
  intros HL Hle (Hch & Hs & Hrest); split; [unfold END_NODE; rewrite HL; exact Hch|].
  split; [|exact Hrest].
  eapply Forall_impl; [|exact Hs]; intros k Hk.
  destruct (in_map_fst_lookup _ _ Hk) as [c0 Hc0].
  destruct (Hle k c0 Hc0) as [c1 [Hc1 _]]; exact (lookup_in_map_fst _ _ _ Hc1).
Qed.

Lemma arcs_eq_le g g' : arcs g' = arcs g -> arcs_le g g'.
Proof. intros HA k c Hk; rewrite HA; exists c; split; [exact Hk | lia]. Qed.

Lemma attempt_paths s s1 :
  attempt s = (s1, Ok tt) -> Forall (complete_path (sg s)) (candidates s) ->
  letters (sg s1) = letters (sg s) /\ arcs (sg s1) = arcs (sg s) /\
  Forall (complete_path (sg s1)) (candidates s1).
Proof.
  unfold attempt; intros E Hc.
  destruct (util_paths (sg s) _ _ _ _ E) as (L1 & A1 & C1 & _); cbn; try reflexivity.
  - unfold buf_ok; cbn; repeat split; constructor.
  - exact Hc.
  - split; [exact L1|]; split; [exact A1|].
    eapply Forall_impl; [|exact C1]; intros c.
    apply complete_path_grow; [exact L1 | apply arcs_eq_le; exact A1].
Qed.

Lemma search_loop_paths fuel : forall s s' cs,
  search_loop fuel s = (s', Ok (Paths cs)) -> (0 <= util_call_count s)%Z ->
  Forall (complete_path (sg s)) (candidates s) -> Forall (complete_path (sg s')) cs.
Proof.
  induction fuel as [|fuel IH]; intros s s' cs E Hc0 Hc; cbn [search_loop] in E.
  - destruct (_ && _); [destruct (_ =? _)%Z; discriminate|].
    destruct (overflow s); [discriminate|].
    injection E as <- <-; exact Hc.
  - destruct (_ && _).
    2: { destruct (overflow s); [discriminate|]. injection E as <- <-; exact Hc. }
    destruct (_ =? _)%Z; [discriminate|].
    destruct (attempt_ok s Hc0) as (Hok & _ & _ & _ & _ & HC1).
    destruct (attempt s) as [s1 r1] eqn:Ea; cbn [fst snd] in Hok, HC1; subst r1.
    destruct (attempt_paths s s1 Ea Hc) as (_ & _ & C1).
    destruct (candidates s1) as [|c cs1] eqn:Ecs.
    + destruct (link_silences (furthest_index s1) (sg s1)) as [g2 [x|e]] eqn:El;
        [|discriminate].
      apply (IH (set_sg s1 g2) s' cs E); cbn; [lia|].
      rewrite Ecs; constructor.
    + apply (IH s1 s' cs E); [lia|].
      rewrite Ecs; exact C1.
Qed.

(** Every candidate that [find_all_paths] returns is a complete path: its
    arcs lead from START to END, each is an arc of the returned graph, its
    [path_strings] and [pronunciation] are read off its arcs (the first
    arc's intermediate phonemes, then each further arc's source phoneme and
    intermediate phonemes), and its [length] is its number of arcs. *)
Theorem find_all_paths_candidates_are_paths g g' cs :
  find_all_paths g = (g', Ok (Paths cs)) -> Forall (complete_path g') cs.
Proof.
  unfold find_all_paths; intros E.
  destruct (link_unrepresented g) as [g1 [x|e]]; [|discriminate].
  destruct (search_loop _ _) as [s r] eqn:Es; injection E as <- ->.
  apply (search_loop_paths _ _ _ _ Es); cbn; [lia | constructor].
Qed.

Lemma find_all_paths_candidates_are_paths_witness :
  find_all_paths one_letter_lattice =
    (fst (find_all_paths one_letter_lattice), Ok (Paths one_letter_candidates)) /\
  Forall (complete_path (fst (find_all_paths one_letter_lattice))) one_letter_candidates.
Proof.
  assert (H : find_all_paths one_letter_lattice =
    (fst (find_all_paths one_letter_lattice), Ok (Paths one_letter_candidates)))
    by (rewrite <- find_all_paths_one_letter; apply surjective_pairing).
  split; [exact H | exact (find_all_paths_candidates_are_paths _ _ _ H)].
Defined.

(** The two scores the candidate at [r] takes from the pronunciation
    dictionaries [rc] and [sp]. *)
Definition fs_cand (rc sp : list (string * nat)) (c : candidate) : Prop :=
  dict_get (pronunciation c) rc = Ok (frequency_of_same_pronunciation c) /\
  dict_get (pronunciation c) sp = Ok (sum_of_products c).

Definition fs_ok rc sp (r : nat) (h : heap) : Prop :=
  exists c, nth_error h r = Some c /\ fs_cand rc sp c.

Definition fs_kept rc sp (h h' : heap) : Prop := forall r, fs_ok rc sp r h -> fs_ok rc sp r h'.

(** Pronunciation and arc count product of every candidate. *)
Definition pa (c : candidate) : string * nat := (pronunciation c, arc_count_product c).

Definition pa_same (h h' : heap) : Prop :=
  forall y, option_map pa (nth_error h' y) = option_map pa (nth_error h y).

Lemma fs_kept_refl rc sp h : fs_kept rc sp h h.
Proof. intros r H; exact H. Qed.

Lemma fs_kept_trans rc sp h1 h2 h3 :
  fs_kept rc sp h1 h2 -> fs_kept rc sp h2 h3 -> fs_kept rc sp h1 h3.
Proof. intros H1 H2 r H; auto. Qed.

Lemma pa_same_refl h : pa_same h h.
Proof. intros y; reflexivity. Qed.

Lemma pa_same_trans h1 h2 h3 : pa_same h1 h2 -> pa_same h2 h3 -> pa_same h1 h3.
Proof. intros H1 H2 y; rewrite H2; apply H1. Qed.

Lemma set_field_at r f h c : nth_error h r = Some c -> set_field r f h = (list_set h r (f c), Ok tt).
Proof. intros E; unfold set_field, bind, deref, modify; rewrite E; reflexivity. Qed.

Lemma fs_kept_list_set rc sp h r c c' :
  nth_error h r = Some c -> (fs_cand rc sp c -> fs_cand rc sp c') ->
  fs_kept rc sp h (list_set h r c').
Proof.
  intros E Hc y (cy & Hy & Hs); unfold fs_ok.
  rewrite nth_error_list_set, Hy.
  destruct (Nat.eqb_spec y r) as [->|_]; [|eauto].
  rewrite E in Hy; injection Hy as <-; eauto.
Qed.

Lemma set_field_fs_kept rc sp r f :
  (forall c, pronunciation (f c) = pronunciation c /\
             frequency_of_same_pronunciation (f c) = frequency_of_same_pronunciation c /\
             sum_of_products (f c) = sum_of_products c) ->
  preserves (fs_kept rc sp) (set_field r f).
Proof.
  intros Hf h; unfold set_field, bind, deref.
  destruct (nth_error h r) as [c|] eqn:E; cbn; [|apply fs_kept_refl].
  apply (fs_kept_list_set _ _ _ _ c); [exact E|].
  destruct (Hf c) as (H1 & H2 & H3); unfold fs_cand; rewrite H1, H2, H3; auto.
Qed.

Lemma set_field_pa r f : (forall c, pa (f c) = pa c) -> preserves pa_same (set_field r f).
Proof.
  intros Hf h y; unfold set_field, bind, deref.
  destruct (nth_error h r) as [c|] eqn:E; cbn; [|reflexivity].
  rewrite nth_error_list_set.
  destruct (Nat.eqb_spec y r) as [->|_]; [rewrite E; cbn; f_equal; apply Hf | reflexivity].
Qed.

Lemma fs_segment rc sp r
    (k : candidate -> R -> nat -> nat -> ST heap unit) :
  (forall c sd fr sop, preserves (fs_kept rc sp) (k c sd fr sop)) ->
  let seg := c <- deref r ;;
             sd <- lift_res (stdev (map structure_component (c_arcs c))) ;;
             set_field r (with_psd sd) ;;
             fr <- lift_res (dict_get (pronunciation c) rc) ;;
             set_field r (with_frequency fr) ;;
             sop <- lift_res (dict_get (pronunciation c) sp) ;;
             set_field r (with_sum_of_products sop) ;;
             k c sd fr sop in
  preserves (fs_kept rc sp) seg /\ (forall h h', seg h = (h', Ok tt) -> fs_ok rc sp r h').
Proof.
  intros Hk seg.
  assert (Run : forall h, exists h3,
    fs_kept rc sp h h3 /\
    ((exists e, seg h = (h3, Raise e)) \/
     (fs_ok rc sp r h3 /\ exists c sd fr sop, seg h = k c sd fr sop h3))).
  { intros h; unfold seg; clear seg; unfold bind, deref, lift_res.
    destruct (nth_error h r) as [c|] eqn:E; cbv beta iota;
      [|exists h; split; [apply fs_kept_refl | left; eauto]].
    destruct (stdev _) as [sd|e]; cbv beta iota;
      [|exists h; split; [apply fs_kept_refl | left; eauto]].
    rewrite (set_field_at _ _ _ _ E).
    set (h1 := list_set h r (with_psd sd c)).
    assert (K1 : fs_kept rc sp h h1) by (apply (fs_kept_list_set _ _ _ _ c); [exact E | auto]).
    assert (E1 : nth_error h1 r = Some (with_psd sd c))
      by (unfold h1; rewrite nth_error_list_set, Nat.eqb_refl, E; reflexivity).
    destruct (dict_get (pronunciation c) rc) as [fr|e] eqn:Efr; cbv beta iota;
      [|exists h1; split; [exact K1 | left; eauto]].
    rewrite (set_field_at _ _ _ _ E1).
    set (h2 := list_set h1 r (with_frequency fr (with_psd sd c))).
    assert (K2 : fs_kept rc sp h1 h2).
    { apply (fs_kept_list_set _ _ _ _ _ _ E1).
      intros [_ H2]; split; [exact Efr | exact H2]. }
    assert (E2 : nth_error h2 r = Some (with_frequency fr (with_psd sd c)))
      by (unfold h2; rewrite nth_error_list_set, Nat.eqb_refl, E1; reflexivity).
    destruct (dict_get (pronunciation c) sp) as [sop|e] eqn:Esop; cbv beta iota;
      [|exists h2; split; [exact (fs_kept_trans _ _ _ _ _ K1 K2) | left; eauto]].
    rewrite (set_field_at _ _ _ _ E2).
    set (h3 := list_set h2 r _).
    exists h3; split.
    - apply (fs_kept_trans _ _ _ _ _ (fs_kept_trans _ _ _ _ _ K1 K2)).
      apply (fs_kept_list_set _ _ _ _ _ _ E2); intros _; split; assumption.
    - right; split; [|do 4 eexists; reflexivity].
      eexists; split; [unfold h3; rewrite nth_error_list_set, Nat.eqb_refl, E2; reflexivity|].
      split; assumption. }
  split.
  - intros h; destruct (Run h) as (h3 & K3 & [[e Eq] | (_ & c & sd & fr & sop & Eq)]);
      rewrite Eq; [exact K3|].
    eapply fs_kept_trans; [exact K3 | apply Hk].
  - intros h h' Eh; destruct (Run h) as (h3 & K3 & [[e Eq] | (O3 & c & sd & fr & sop & Eq)]);
      rewrite Eq in Eh; [discriminate|].
    specialize (Hk c sd fr sop h3); rewrite Eh in Hk; apply Hk, O3.
Qed.

Lemma for_each_fs {A} rc sp (xs : list A) (f : A -> nat) (body : A -> ST heap unit) :
  (forall x, In x xs -> preserves (fs_kept rc sp) (body x)) ->
  (forall x h h', In x xs -> body x h = (h', Ok tt) -> fs_ok rc sp (f x) h') ->
  forall h h', for_each xs body h = (h', Ok tt) -> forall x, In x xs -> fs_ok rc sp (f x) h'.
Proof.
  induction xs as [|x xs IH]; intros Hp He h h' E y Hy; [destruct Hy|].
  cbn in E; unfold bind in E.
  destruct (body x h) as [h1 [[]|e]] eqn:E1; [|discriminate].
  destruct Hy as [<-|Hy].
  - assert (K : preserves (fs_kept rc sp) (for_each xs body)).
    { apply for_each_preserves; [apply fs_kept_refl | apply fs_kept_trans|].
      intros z Hz; apply Hp; right; exact Hz. }
    specialize (K h1); rewrite E in K; apply K.
    apply (He x h h1 (or_introl eq_refl) E1).
  - apply (IH (fun z Hz => Hp z (or_intror Hz)) (fun z g g' Hz => He z g g' (or_intror Hz))
             h1 h' E y Hy).
Qed.

Ltac fs_step :=
  repeat first
    [ apply set_field_fs_kept; intros ?; split; [|split]; reflexivity
    | apply bind_preserves; [apply fs_kept_trans| |intros ?]
    | apply deref_preserves; apply fs_kept_refl
    | apply ret_preserves; apply fs_kept_refl
    | apply lift_res_preserves; apply fs_kept_refl
    | apply nds_loop_preserves; apply fs_kept_refl ].

Ltac pa_step :=
  repeat first
    [ apply set_field_pa; intros ?; reflexivity
    | apply bind_preserves; [apply pa_same_trans| |intros ?]
    | apply deref_preserves; apply pa_same_refl
    | apply ret_preserves; apply pa_same_refl
    | apply lift_res_preserves; apply pa_same_refl
    | apply nds_loop_preserves; apply pa_same_refl ].

Lemma frequencies_loop_resolves l : forall h rc sp h' x,
  frequencies_loop l rc sp h = (h', Ok x) -> forall r, In r l -> r < List.length h.
Proof.
  induction l as [|r0 l IH]; intros h rc sp h' x E r Hr; [destruct Hr|].
  cbn in E; unfold bind, deref in E.
  destruct (nth_error h r0) as [c|] eqn:E0; [|discriminate].
  destruct Hr as [<-|Hr].
  - apply nth_error_Some; rewrite E0; discriminate.
  - exact (IH _ _ _ _ _ E r Hr).
Qed.

Lemma pa_same_nth h h' : pa_same h h' -> forall r,
  pa (nth r h' empty_candidate) = pa (nth r h empty_candidate).
Proof.
  intros H r; specialize (H r).
  destruct (nth_error h r) as [c|] eqn:E; destruct (nth_error h' r) as [c'|] eqn:E';
    cbn [option_map] in H; try discriminate.
  - rewrite (nth_error_nth _ _ _ E), (nth_error_nth _ _ _ E').
    apply (f_equal (fun o => match o with Some x => x | None => pa empty_candidate end)) in H.
    exact H.
  - apply nth_error_None in E, E'; rewrite !nth_overflow by assumption; reflexivity.
Qed.

(** After a successful [compute_heuristics], each candidate of the list has
    as [frequency_of_same_pronunciation] the number of entries of the list
    with its pronunciation, and as [sum_of_products] the sum of their
    [arc_count_product]s. *)
Theorem compute_heuristics_pronunciation_scores g M h h' :
  compute_heuristics g M h = (h', Ok tt) ->
  forall r, In r M -> exists c, nth_error h' r = Some c /\
    frequency_of_same_pronunciation c = List.length (same_pronunciation h' M (pronunciation c)) /\
    sum_of_products c =
      list_sum (map (fun r' => arc_count_product (nth r' h' empty_candidate))
                    (same_pronunciation h' M (pronunciation c))).
Proof.
  intros E r Hr.
  unfold compute_heuristics in E; unfold bind at 1 in E.
  destruct (for_each M _ h) as [h1 [[]|e]]; [|discriminate].
  unfold bind at 1 in E.
  destruct (get_frequencies_by_pronunciation M h1) as [h2 [[rc sp]|e]] eqn:Eg; [|discriminate].
  assert (Hres : forall r, In r M -> r < List.length h1)
    by exact (frequencies_loop_resolves M h1 [] [] h2 (rc, sp) Eg).
  destruct (frequencies_lookup h1 M Hres) as (rc' & sp' & Eg' & Hlk).
  rewrite Eg' in Eg; injection Eg as <- <- <-.
  cbv beta iota in E.
  assert (Hall : forall i, In i (seq 0 (List.length M)) -> fs_ok rc' sp' (nth i M 0%nat) h').
  { refine (for_each_fs _ _ _ (fun i => nth i M 0%nat) _ _ _ h1 h' E); intros i.
    - intros _; cbv zeta. apply (fun Hk => proj1 (fs_segment _ _ _ _ Hk)).
      intros c sd fr sop; cbv beta; fs_step.
    - intros g1 g1' _; cbv zeta. apply (fun Hk => proj2 (fs_segment _ _ _ _ Hk)).
      intros c sd fr sop; cbv beta; fs_step. }
  assert (Hpa : pa_same h1 h').
  { match type of E with for_each ?xs ?body _ = _ =>
      assert (P : preserves pa_same (for_each xs body))
        by (apply for_each_preserves; [apply pa_same_refl | apply pa_same_trans |];
            intros i _; cbv zeta; pa_step)
    end.
    specialize (P h1); rewrite E in P; exact P. }
  destruct (In_nth M r 0%nat Hr) as (i & Hi & Ei).
  destruct (Hall i (proj2 (in_seq _ _ _) (conj (Nat.le_0_l i) Hi))) as (c & Hc & Hf & Hs).
  rewrite Ei in Hc.
  assert (Hsp : forall p, same_pronunciation h' M p = same_pronunciation h1 M p).
  { intros p; unfold same_pronunciation; apply filter_ext; intros y.
    pose proof (pa_same_nth _ _ Hpa y) as Hy; unfold pa in Hy; injection Hy as -> _; reflexivity. }
  exists c; split; [exact Hc|]; rewrite !Hsp.
  destruct (Hlk (pronunciation c)) as [H1 H2].
  rewrite Hf in H1; rewrite Hs in H2.
  split.
  - destruct (same_pronunciation h1 M (pronunciation c)); [discriminate|].
    injection H1 as ->; reflexivity.
  - rewrite (map_ext (fun r' => arc_count_product (nth r' h' empty_candidate))
                      (fun r' => arc_count_product (nth r' h1 empty_candidate)))
      by (intros y; pose proof (pa_same_nth _ _ Hpa y) as Hy; unfold pa in Hy;
          injection Hy as _ ->; reflexivity).
    destruct (same_pronunciation h1 M (pronunciation c)) as [|r0 rs]; [discriminate|].
    injection H2 as ->; reflexivity.
Qed.

Lemma compute_heuristics_pronunciation_scores_witness :
  compute_heuristics span_lattice [0; 1]%nat span_candidates =
    (fst (compute_heuristics span_lattice [0; 1]%nat span_candidates), Ok tt) /\
  exists c, nth_error (fst (compute_heuristics span_lattice [0; 1]%nat span_candidates)) 0 = Some c /\
    frequency_of_same_pronunciation c =
      List.length (same_pronunciation (fst (compute_heuristics span_lattice [0; 1]%nat span_candidates))
                     [0; 1]%nat (pronunciation c)) /\
    sum_of_products c =
      list_sum (map (fun r' => arc_count_product
                      (nth r' (fst (compute_heuristics span_lattice [0; 1]%nat span_candidates))
                         empty_candidate))
                    (same_pronunciation (fst (compute_heuristics span_lattice [0; 1]%nat span_candidates))
                       [0; 1]%nat (pronunciation c))).
Proof.
  assert (E : compute_heuristics span_lattice [0; 1]%nat span_candidates =
    (fst (compute_heuristics span_lattice [0; 1]%nat span_candidates), Ok tt)).
  { rewrite (surjective_pairing (compute_heuristics _ _ _)) at 1; f_equal; vm_compute; reflexivity. }
  split; [exact E|].
  exact (compute_heuristics_pronunciation_scores _ _ _ _ E 0%nat (or_introl eq_refl)).
Defined.

(** Adding a correspondence counts its span arc once more; a new arc starts
    at 1. *)
Theorem add_counts_span_arc L P s g l0 p0 l1 p1 :
  py_index L 0 = Ok l0 -> py_index P 0 = Ok p0 ->
  py_index L (-1) = Ok l1 -> py_index P (-1) = Ok p1 ->
  let k := Arc (py_inner P) (Node l0 p0 s) (Node l1 p1 (s + Z.of_nat (String.length L) - 1)) in
  snd (add L P s g) = Ok tt /\
  arc_lookup k (arcs (fst (add L P s g))) =
    Some (match arc_lookup k (arcs g) with Some c => S c | None => 1%nat end).
Proof.
  intros HL0 HP0 HL1 HP1 k.
  destruct (add_between L P s g l0 p0 l1 p1 HL0 HP0 HL1 HP1) as (Hok & Hb); cbv zeta in Hb.
  split; [exact Hok|].
  assert (Hk : (node_eqb (from_node k) (Node l0 p0 s) &&
                node_eqb (to_node k) (Node l1 p1 (s + Z.of_nat (String.length L) - 1)))%bool = true)
    by (cbn [k from_node to_node]; rewrite !(proj2 (node_eqb_eq _ _) eq_refl); reflexivity).
  rewrite <- (arc_lookup_between_in _ _ _ _ Hk); fold k in Hb; rewrite Hb.
  rewrite <- (arc_lookup_between_in _ _ _ (arcs g) Hk).
  destruct (arc_lookup k (arcs_between _ _ (arcs g))) as [c|] eqn:E.
  - rewrite arc_lookup_set, (proj2 (arc_eqb_eq k k) eq_refl), E; reflexivity.
  - rewrite arc_lookup_app, E; cbn; rewrite (proj2 (arc_eqb_eq k k) eq_refl); reflexivity.
Qed.

Lemma add_counts_span_arc_witness :
  (py_index "ab" 0 = Ok "a"%string /\ py_index "xy" 0 = Ok "x"%string /\
   py_index "ab" (-1) = Ok "b"%string /\ py_index "xy" (-1) = Ok "y"%string) /\
  let k := Arc (py_inner "xy") (Node "a" "x" 0) (Node "b" "y" (0 + Z.of_nat (String.length "ab") - 1)) in
  snd (add "ab" "xy" 0 (init "ab")) = Ok tt /\
  arc_lookup k (arcs (fst (add "ab" "xy" 0 (init "ab")))) =
    Some (match arc_lookup k (arcs (init "ab")) with Some c => S c | None => 1%nat end).
Proof.
  split; [repeat split; reflexivity|].
  exact (add_counts_span_arc "ab" "xy" 0 (init "ab") "a" "x" "b" "y"
           eq_refl eq_refl eq_refl eq_refl).
Defined.

(** Positions where two strings differ, over the length of the first, read
    while both have characters. *)
Fixpoint differing (p q : string) : nat :=
  match p, q with
  | String a p', String b q' => ((if Ascii.eqb a b then 0 else 1) + differing p' q')%nat
  | _, _ => 0%nat
  end.

Definition mismatches_loop (q : string) :=
  fix go (j : nat) (cs : list ascii) (acc : nat) :=
     match cs with
     | [] => Ok acc
     | ch :: cs' =>
         match py_index q (Z.of_nat j) with
         | Raise e => Raise e
         | Ok s => go (S j) cs'
                     (if String.eqb (String ch EmptyString) s then acc else S acc)
         end
     end.

Lemma py_index_shift b q j : py_index (String b q) (Z.of_nat (S j)) = py_index q (Z.of_nat j).
Proof.
  unfold py_index; cbn [String.length].
  replace (Z.of_nat (S j) <? 0)%Z with false by (symmetry; apply Z.ltb_ge; lia).
  replace (Z.of_nat j <? 0)%Z with false by (symmetry; apply Z.ltb_ge; lia).
  replace ((0 <=? Z.of_nat (S j)) && (Z.of_nat (S j) <? Z.of_nat (S (String.length q))))%Z
    with ((0 <=? Z.of_nat j) && (Z.of_nat j <? Z.of_nat (String.length q)))%Z.
  - destruct (_ && _)%bool; [|reflexivity].
    rewrite !Nat2Z.id; reflexivity.
  - destruct (Z.leb_spec 0 (Z.of_nat j)), (Z.leb_spec 0 (Z.of_nat (S j))),
      (Z.ltb_spec (Z.of_nat j) (Z.of_nat (String.length q))),
      (Z.ltb_spec (Z.of_nat (S j)) (Z.of_nat (S (String.length q)))); cbn; lia.
Qed.

Lemma mismatches_loop_shift b q cs : forall j acc,
  mismatches_loop (String b q) (S j) cs acc = mismatches_loop q j cs acc.
Proof.
  induction cs as [|ch cs IH]; intros j acc; [reflexivity|].
  cbn [mismatches_loop]; rewrite py_index_shift.
  destruct (py_index q (Z.of_nat j)); [apply IH | reflexivity].
Qed.

Lemma mismatches_loop_spec p : forall q acc,
  mismatches_loop q 0 (list_ascii_of_string p) acc =
  if (String.length p <=? String.length q)%nat
  then Ok (acc + differing p q)%nat else Raise IndexError.
Proof.
  induction p as [|a p IH]; intros q acc; [cbn; f_equal; lia|].
  destruct q as [|b q].
  - reflexivity.
  - cbn [list_ascii_of_string mismatches_loop].
    change (Z.of_nat 0) with 0%Z.
    replace (py_index (String b q) 0) with (Ok (String b "") : res string)
      by (unfold py_index; cbn; destruct q; reflexivity).
    change 1%nat with (S 0); rewrite mismatches_loop_shift, IH.
    cbn [String.length differing Nat.leb].
    destruct (String.length p <=? String.length q)%nat; [|reflexivity].
    f_equal.
    replace (String.eqb (String a "") (String b "")) with (Ascii.eqb a b)
      by (cbn; destruct (Ascii.eqb a b); reflexivity).
    destruct (Ascii.eqb a b); lia.
Qed.

Lemma mismatches_eq p q :
  mismatches p q = if (String.length p <=? String.length q)%nat
                   then Ok (differing p q) else Raise IndexError.
Proof.
  change (mismatches p q) with (mismatches_loop q 0 (list_ascii_of_string p) 0%nat).
  apply mismatches_loop_spec.
Qed.

(** [mismatches p q] counts the positions of [p] where [q] has another
    character, and raises [IndexError] exactly when [q] is shorter than [p]. *)
Theorem mismatches_spec p q :
  mismatches p q = if (String.length p <=? String.length q)%nat
                   then Ok (differing p q) else Raise IndexError.
Proof. exact (mismatches_eq p q). Qed.

Lemma bind_ok_inv {S A B} (m : ST S A) (k : A -> ST S B) s s' b :
  bind m k s = (s', Ok b) -> exists s1 a, m s = (s1, Ok a) /\ k a s1 = (s', Ok b).
Proof.
  unfold bind; destruct (m s) as [s1 [a|e]]; [intros E; eauto | discriminate].
Qed.

Lemma for_each_each {S A} (R : S -> S -> Prop) (xs : list A) (body : A -> ST S unit) :
  (forall s, R s s) -> (forall s1 s2 s3, R s1 s2 -> R s2 s3 -> R s1 s3) ->
  (forall x, In x xs -> preserves R (body x)) ->
  forall s s', for_each xs body s = (s', Ok tt) ->
  forall x, In x xs -> exists t t', R s t /\ body x t = (t', Ok tt).
Proof.
  intros Hrefl Htrans; induction xs as [|x xs IH]; intros Hp s s' E y Hy; [destruct Hy|].
  cbn in E; destruct (bind_ok_inv _ _ _ _ _ E) as (s1 & [] & E1 & E2).
  destruct Hy as [<-|Hy]; [exists s, s1; split; [apply Hrefl | exact E1]|].
  destruct (IH (fun z Hz => Hp z (or_intror Hz)) s1 s' E2 y Hy) as (t & t' & Ht & Et).
  exists t, t'; split; [|exact Et].
  apply (Htrans _ s1); [|exact Ht].
  specialize (Hp x (or_introl eq_refl) s); rewrite E1 in Hp; exact Hp.
Qed.

Lemma nds_loop_ok (p : string) l : forall acc h h' n,
  (fix go (l : list nat) (acc : nat) : ST heap nat :=
     match l with
     | [] => ret acc
     | o :: l' =>
         oc <- deref o ;;
         m <- lift_res (mismatches p (pronunciation oc)) ;;
         go l' (acc + m)%nat
     end) l acc h = (h', Ok n) ->
  forall o, In o l -> exists oc, nth_error h o = Some oc /\
    (String.length p <= String.length (pronunciation oc))%nat.
Proof.
  induction l as [|o l IH]; intros acc h h' n E y Hy; [destruct Hy|].
  destruct (bind_ok_inv _ _ _ _ _ E) as (h1 & oc & E1 & E2).
  unfold deref in E1; destruct (nth_error h o) as [c|] eqn:Eo; [|discriminate].
  injection E1; intros; subst.
  destruct (bind_ok_inv _ _ _ _ _ E2) as (h2 & m & E3 & E4).
  unfold lift_res in E3; injection E3 as <- Em.
  destruct Hy as [<-|Hy].
  - exists oc; split; [exact Eo|].
    rewrite mismatches_eq in Em.
    destruct (String.length p <=? String.length (pronunciation oc))%nat eqn:El; [|discriminate].
    apply Nat.leb_le; exact El.
  - exact (IH _ _ _ _ E4 y Hy).
Qed.

Lemma set_field_pa_ok r f h h' :
  (forall c, pa (f c) = pa c) -> set_field r f h = (h', Ok tt) -> pa_same h h'.
Proof. intros Hf E; pose proof (set_field_pa r f Hf h) as H; rewrite E in H; exact H. Qed.

Lemma pa_same_sym h h' : pa_same h h' -> pa_same h' h.
Proof. intros H y; symmetry; apply H. Qed.

Lemma pa_same_pron h h' r : pa_same h h' ->
  pronunciation (nth r h' empty_candidate) = pronunciation (nth r h empty_candidate).
Proof. intros H; pose proof (pa_same_nth _ _ H r) as E; unfold pa in E; congruence. Qed.

Lemma in_others (M : list nat) i j :
  (i < List.length M)%nat -> (j < List.length M)%nat -> i <> j ->
  In (nth j M 0%nat) (firstn i M ++ skipn (S i) M).
Proof.
  intros Hi Hj Hne; apply in_or_app.
  destruct (Nat.lt_ge_cases j i) as [Hl|Hl].
  - left.
    assert (Hb : (j <? i)%nat = true) by (apply Nat.ltb_lt; exact Hl).
    replace (nth j M 0%nat) with (nth j (firstn i M) 0%nat) by (rewrite nth_firstn, Hb; reflexivity).
    apply nth_In; rewrite length_firstn; lia.
  - right.
    replace (nth j M 0%nat) with (nth (j - S i) (skipn (S i) M) 0%nat)
      by (rewrite nth_skipn; f_equal; lia).
    apply nth_In; rewrite length_skipn; lia.
Qed.

Lemma bind_ok_pa {A B} (m : ST heap A) (k : A -> ST heap B) s s' b :
  preserves pa_same m -> bind m k s = (s', Ok b) ->
  exists s1 a, pa_same s s1 /\ k a s1 = (s', Ok b).
Proof.
  intros Hm E; destruct (bind_ok_inv _ _ _ _ _ E) as (s1 & a & E1 & E2).
  exists s1, a; split; [|exact E2].
  specialize (Hm s); rewrite E1 in Hm; exact Hm.
Qed.

Ltac peel_pa E :=
  let Hs := fresh "Hs" in let E' := fresh "F" in
  let Hm := fresh "Hm" in
  match type of E with bind ?m ?k ?s = _ =>
    assert (Hm : preserves pa_same m) by pa_step;
    destruct (bind_ok_pa m k _ _ _ Hm E) as (? & ? & Hs & E'); clear Hm
  end;
  cbv beta in E'; clear E; rename E' into E.

(** After a successful [compute_heuristics], all candidates of the list have
    pronunciations of the same length: counting the different symbols of
    one candidate reads the other candidates' pronunciations at each of its
    positions, which raises [IndexError] on a shorter one. *)
Theorem compute_heuristics_same_length g M h h' :
  compute_heuristics g M h = (h', Ok tt) ->
  forall r r', In r M -> In r' M ->
    String.length (pronunciation (nth r h' empty_candidate)) =
    String.length (pronunciation (nth r' h' empty_candidate)).
Proof.
  intros E.
  unfold compute_heuristics in E; unfold bind at 1 in E.
  destruct (for_each M _ h) as [h1 [[]|e]]; [|discriminate].
  unfold bind at 1 in E.
  destruct (get_frequencies_by_pronunciation M h1) as [h2 [[rc sp]|e]] eqn:Eg; [|discriminate].
  assert (Hres : forall r, In r M -> r < List.length h1)
    by exact (frequencies_loop_resolves M h1 [] [] h2 (rc, sp) Eg).
  destruct (frequencies_lookup h1 M Hres) as (rc' & sp' & Eg' & _).
  rewrite Eg' in Eg; injection Eg as <- <- <-.
  cbv beta iota in E.
  assert (Hpa : pa_same h1 h').
  { match type of E with for_each ?xs ?body _ = _ =>
      assert (P : preserves pa_same (for_each xs body))
        by (apply for_each_preserves; [apply pa_same_refl | apply pa_same_trans |];
            intros i _; cbv zeta; pa_step)
    end.
    specialize (P h1); rewrite E in P; exact P. }
  assert (Hpron : forall y, pronunciation (nth y h' empty_candidate) =
                            pronunciation (nth y h1 empty_candidate))
    by (intros y; exact (pa_same_pron _ _ y Hpa)).
  assert (Hle : forall i j, (i < List.length M)%nat -> (j < List.length M)%nat -> i <> j ->
    (String.length (pronunciation (nth (nth i M 0%nat) h' empty_candidate)) <=
     String.length (pronunciation (nth (nth j M 0%nat) h' empty_candidate)))%nat).
  { intros i j Hi Hj Hne.
    match type of E with for_each ?xs ?body _ = _ =>
      assert (Pb : forall x, In x xs -> preserves pa_same (body x))
        by (intros x _; cbv zeta; pa_step)
    end.
    destruct (for_each_each pa_same _ _ pa_same_refl pa_same_trans Pb h1 h' E i
                ltac:(apply in_seq; lia)) as (t & t' & Ht & Eb).
    cbv beta zeta in Eb.
    destruct (bind_ok_inv _ _ _ _ _ Eb) as (t1 & c & Ed & F); clear Eb; cbv beta in F.
    unfold deref in Ed; destruct (nth_error t (nth i M 0%nat)) as [c0|] eqn:Ec; [|discriminate].
    injection Ed as <- <-.
    do 6 peel_pa F.
    destruct (bind_ok_inv _ _ _ _ _ F) as (t4 & n & En & _).
    pose proof (nds_loop_ok _ _ _ _ _ _ En (nth j M 0%nat) (in_others M i j Hi Hj Hne))
      as (oc & Eoc & Hoc).
    rewrite !Hpron.
    match type of Eoc with nth_error ?s _ = _ =>
      assert (Htt : pa_same t s)
        by (repeat (eapply pa_same_trans; [eassumption|]); apply pa_same_refl)
    end.
    rewrite <- (pa_same_pron _ _ (nth i M 0%nat) Ht), (nth_error_nth _ _ _ Ec).
    rewrite <- (pa_same_pron _ _ (nth j M 0%nat) (pa_same_trans _ _ _ Ht Htt)),
      (nth_error_nth _ _ _ Eoc).
    exact Hoc. }
  intros r r' Hr Hr'.
  destruct (In_nth M r 0%nat Hr) as (i & Hi & <-).
  destruct (In_nth M r' 0%nat Hr') as (j & Hj & <-).
  destruct (Nat.eq_dec i j) as [<-|Hne]; [reflexivity|].
  apply Nat.le_antisymm; apply Hle; auto.
Qed.

Lemma compute_heuristics_same_length_witness :
  compute_heuristics span_lattice [0; 1]%nat span_candidates =
    (fst (compute_heuristics span_lattice [0; 1]%nat span_candidates), Ok tt) /\
  String.length (pronunciation (nth 0 (fst (compute_heuristics span_lattice [0; 1]%nat span_candidates))
                                  empty_candidate)) =
  String.length (pronunciation (nth 1 (fst (compute_heuristics span_lattice [0; 1]%nat span_candidates))
                                  empty_candidate)).
Proof.
  assert (E : compute_heuristics span_lattice [0; 1]%nat span_candidates =
    (fst (compute_heuristics span_lattice [0; 1]%nat span_candidates), Ok tt)).
  { rewrite (surjective_pairing (compute_heuristics _ _ _)) at 1; f_equal; vm_compute; reflexivity. }
  split; [exact E|].
  exact (compute_heuristics_same_length _ _ _ _ E 0%nat 1%nat (or_introl eq_refl)
           (or_intror (or_introl eq_refl))).
Defined.

(** ** Claims *)

(** C2 (the stuck-search error).  The error [NO_PATHS_FOUND] is never
    returned: the variable [last_furthest_index] it is compared against is -1
    and never updated.  On [stuck_lattice] two consecutive retries both end at
    furthest index 0 with no candidate, yet the loop goes on retrying until
    the step counter passes its ceiling and [find_all_paths] returns
    [SEARCHED_TOO_LONG]. *)
Theorem find_all_paths_no_paths_found_unreachable :
  (forall g, snd (find_all_paths g) <> Ok (ErrCode NO_PATHS_FOUND)) /\
  attempt (stuck_state 0) = (stuck_state 2, Ok tt) /\
  attempt (stuck_state 2) = (stuck_state 4, Ok tt) /\
  (forall f, search_loop (S (S f)) (stuck_state 0) = search_loop f (stuck_state 4)) /\
  find_all_paths stuck_lattice = (stuck_lattice, Ok (ErrCode SEARCHED_TOO_LONG)).
Proof.
  split; [exact find_all_paths_never_stuck|].
  split; [rewrite attempt_fuel, ceiling_fuel; apply attempt_stuck; unfold ceiling; lia|].
  split; [rewrite attempt_fuel, ceiling_fuel; apply attempt_stuck; unfold ceiling; lia|].
  split; [|exact find_all_paths_stuck].
  intros f; rewrite search_loop_stuck_step by (unfold ceiling; lia).
  rewrite search_loop_stuck_step by (unfold ceiling; lia); reflexivity.
Qed.

(** C3 (END connector of a span reaching the last letter).  Adding the span
    "ab" -> "xy" at index 0 to the word "ab" creates the START connector but
    no arc at all out of the node of the last letter, so no connector to END:
    the END case is an [elif] of the [start_index == 0] case. *)
Theorem add_whole_word_no_end_connector :
  let g := run (add "ab" "xy" 0) (init "ab") in
  arc_lookup (Arc "" (START_NODE g) (Node "a" "x" 0)) (arcs g) = Some 1%nat /\
  arc_lookup (Arc "" (Node "b" "y" 1) (END_NODE g)) (arcs g) = None /\
  to_arcs g (Node "b" "y" 1) = [].
Proof. vm_compute; repeat split. Qed.

(** C4 (bigrams flagged).  [range(0, len(word) - 2)] stops one bigram short,
    for the lexicon and for the target word: the last bigram of the target is
    never flagged, and with the lexicon ["ab"] the target "abc" gets "ab"
    flagged (the lexicon's last pair is not collected) and "bc" not. *)
Theorem flag_unrepresented_bigrams_skips_last :
  (forall w db g x b,
     In (x, b) (unrepresented_bigrams (run (flag_unrepresented_bigrams w db) g)) ->
     (x + 2 < Z.of_nat (String.length w))%Z) /\
  unrepresented_bigrams (run (flag_unrepresented_bigrams "abc" ["ab"%string]) (init "abc"))
    = [(0%Z, "ab"%string)].
Proof.
  split; [|vm_compute; reflexivity].
  intros w db g x b H; unfold run, flag_unrepresented_bigrams, modify in H; cbn in H.
  apply filter_In in H as [H _]; unfold scanned_bigrams in H.
  apply in_map_iff in H as (k & Hk & Hin); injection Hk as <- _.
  apply in_seq in Hin; lia.
Qed.

(** C7 (visited flags).  Every attempt starts [util] from a graph in which
    no node is visited, and when [find_all_paths] returns, on every outcome
    (candidates, an error code, an exception), no node is visited, provided
    none was on entry, as for every graph built by [add]. *)
Theorem find_all_paths_clears_visited g :
  all_unvisited g ->
  (forall s, all_unvisited (sg (set_buffer (set_sg s (reset_visited (sg s))) empty_candidate))) /\
  all_unvisited (fst (find_all_paths g)).
Proof.
  intros Hv; split.
  - intros s; exact (reset_visited_unvisited (sg s)).
  - exact (proj1 (find_all_paths_inv g Hv)).
Qed.

Lemma find_all_paths_clears_visited_witness :
  all_unvisited (init "ab") /\
  ((forall s, all_unvisited (sg (set_buffer (set_sg s (reset_visited (sg s))) empty_candidate))) /\
   all_unvisited (fst (find_all_paths (init "ab")))).
Proof.
  assert (H : all_unvisited (init "ab")) by (cbn; intros n _ []).
  split; [exact H | apply (find_all_paths_clears_visited (init "ab")); exact H].
Defined.

(** C8 (re-inserting a correspondence).  On any graph, the second of two
    identical [add]s creates no arc: the arc keys of the store stay those the
    first call left, and between the two end nodes of the span the second
    call only raises the count of the span arc by one.  On a fresh graph this
    leaves exactly one arc between the two end nodes, with count 2.  No
    operation on the graph lowers the count of an arc. *)
Theorem add_twice_single_arc L P s g l0 p0 l1 p1 :
  py_index L 0 = Ok l0 -> py_index P 0 = Ok p0 ->
  py_index L (-1) = Ok l1 -> py_index P (-1) = Ok p1 ->
  let a := Node l0 p0 s in
  let b := Node l1 p1 (s + Z.of_nat (String.length L) - 1) in
  let k := Arc (py_inner P) a b in
  (exists c, arc_lookup k (arcs (run (add L P s) g)) = Some c /\
     arcs_between a b (arcs (run (add L P s ;; add L P s) g)) =
     arc_set k (S c) (arcs_between a b (arcs (run (add L P s) g)))) /\
  map fst (arcs (run (add L P s ;; add L P s) g)) = map fst (arcs (run (add L P s) g)) /\
  (forall w, arcs_between a b (arcs (run (add L P s ;; add L P s) (init w))) = [(k, 2%nat)]) /\
  (forall L' P' s' g, arcs_le g (fst (add L' P' s' g))) /\
  (forall f g, arcs_le g (fst (link_silences f g))) /\
  (forall g, arcs_le g (fst (link_unrepresented g))) /\
  (forall w' db g, arcs_le g (fst (flag_unrepresented_bigrams w' db g))) /\
  (forall g, arcs_le g (fst (find_all_paths g))).
Proof.
  intros HL0 HP0 HL1 HP1 a b k.
  split; [|split; [|split; [|split; [intros; apply add_le|split; [intros; apply link_silences_le|]]]]].
  4: split; [intros; apply link_unrepresented_le|].
  4: split; [intros; apply flag_unrepresented_bigrams_le | intros; apply find_all_paths_le].
  - destruct (add_between L P s g l0 p0 l1 p1 HL0 HP0 HL1 HP1) as (R1 & _).
    pose proof (add_makes_present L P s g l0 p0 l1 p1 HL0 HP0 HL1 HP1) as (_ & _ & Kk & _).
    rewrite (run_add_twice _ _ _ _ R1).
    destruct (add_between L P s (fst (add L P s g)) l0 p0 l1 p1 HL0 HP0 HL1 HP1) as (_ & B2).
    fold a b k in Kk, B2 |- *; unfold run.
    destruct (arc_lookup k (arcs (fst (add L P s g)))) as [c|]; [|congruence].
    exists c; split; [reflexivity | exact B2].
  - destruct (add_between L P s g l0 p0 l1 p1 HL0 HP0 HL1 HP1) as (R1 & _).
    rewrite (run_add_twice _ _ _ _ R1); unfold run.
    apply (add_on_present L P s _ l0 p0 l1 p1 HL0 HP0 HL1 HP1).
    pose proof (add_makes_present L P s g l0 p0 l1 p1 HL0 HP0 HL1 HP1) as Hp.
    destruct Hp as (Na & Nb & Kk & _ & Kc).
    split; [exact Na|]; split; [exact Nb|]; split; [exact Kk|]; split; [reflexivity | exact Kc].
  - intros w.
    destruct (add_between L P s (init w) l0 p0 l1 p1 HL0 HP0 HL1 HP1) as (R1 & B1).
    rewrite (run_add_twice _ _ _ _ R1); unfold run.
    destruct (add_between L P s (fst (add L P s (init w))) l0 p0 l1 p1 HL0 HP0 HL1 HP1) as (_ & B2).
    fold a b k in B1, B2; rewrite B2.
    set (g1 := fst (add L P s (init w))) in *.
    change (arcs (init w)) with (@nil (arc * nat)) in B1.
    cbn [arc_lookup arcs_between filter app] in B1.
    assert (Hk : arc_lookup k (arcs g1) = Some 1%nat).
    { rewrite <- arc_lookup_between_in with (a := a) (b := b), B1; cbn [arc_lookup].
      - rewrite (proj2 (arc_eqb_eq k k) eq_refl); reflexivity.
      - unfold k; cbn [from_node to_node].
        rewrite (proj2 (node_eqb_eq a a) eq_refl), (proj2 (node_eqb_eq b b) eq_refl); reflexivity. }
    rewrite Hk, B1; cbn [arc_set]; rewrite (proj2 (arc_eqb_eq k k) eq_refl); reflexivity.
Qed.

Lemma add_twice_single_arc_witness :
  py_index "ab" 0 = Ok "a"%string /\ py_index "xy" 0 = Ok "x"%string /\
  py_index "ab" (-1) = Ok "b"%string /\ py_index "xy" (-1) = Ok "y"%string /\
  exists c,
    arc_lookup (Arc (py_inner "xy") (Node "a" "x" 0) (Node "b" "y" (0 + Z.of_nat (String.length "ab") - 1)))
      (arcs (run (add "ab" "xy" 0) overflow_lattice)) = Some c /\
    arcs_between (Node "a" "x" 0) (Node "b" "y" (0 + Z.of_nat (String.length "ab") - 1))
      (arcs (run (add "ab" "xy" 0 ;; add "ab" "xy" 0) overflow_lattice)) =
    arc_set (Arc (py_inner "xy") (Node "a" "x" 0) (Node "b" "y" (0 + Z.of_nat (String.length "ab") - 1)))
      (S c)
      (arcs_between (Node "a" "x" 0) (Node "b" "y" (0 + Z.of_nat (String.length "ab") - 1))
        (arcs (run (add "ab" "xy" 0) overflow_lattice))).
Proof.
  assert (H0 : py_index "ab" 0 = Ok "a"%string) by reflexivity.
  assert (H1 : py_index "xy" 0 = Ok "x"%string) by reflexivity.
  assert (H2 : py_index "ab" (-1) = Ok "b"%string) by reflexivity.
  assert (H3 : py_index "xy" (-1) = Ok "y"%string) by reflexivity.
  split; [exact H0|]; split; [exact H1|]; split; [exact H2|]; split; [exact H3|].
  exact (proj1 (add_twice_single_arc "ab" "xy" 0 overflow_lattice "a" "x" "b" "y" H0 H1 H2 H3)).
Defined.


(** C1 (minimality of [decide]).  Every candidate [decide] returns under
    any label is one of the input references, and its length (unchanged by
    the call) is at most the length of every input candidate. *)
Theorem decide_returns_min_length g rs h h' m :
  decide g (InList rs) h = (h', Ok (Labelled m)) ->
  forall l r, In (l, r) m ->
    In r rs /\
    exists n, ref_length h r = Some n /\ ref_length h' r = Some n /\
      forall r', In r' rs -> exists n', ref_length h r' = Some n' /\ (n <= n')%nat.
Proof.
  intros E l r Hlr.
  destruct (decide_spec g rs h h' _ E) as [Hf Hm].
  destruct (Hm m eq_refl l r Hlr) as [Hr Hmin]; split; [exact Hr|].
  unfold is_min_ref in Hmin; destruct (ref_length h r) as [n|] eqn:Ehr; [|discriminate].
  exists n; split; [reflexivity|]; split; [rewrite (frame_ref_length _ _ _ _ Hf); exact Ehr|].
  intros r' Hr'; rewrite forallb_forall in Hmin; specialize (Hmin r' Hr').
  destruct (ref_length h r') as [n'|]; [|discriminate].
  exists n'; split; [reflexivity | apply Nat.leb_le, Hmin].
Qed.

Lemma decide_returns_min_length_witness :
  decide (init "ab") (InList [0; 1; 2]%nat) (map cand_of_length [3; 2; 4]%nat) =
    (map cand_of_length [3; 2; 4]%nat, Ok (Labelled [("min_length"%string, 1%nat)])) /\
  (In 1%nat [0; 1; 2]%nat /\
   exists n, ref_length (map cand_of_length [3; 2; 4]%nat) 1 = Some n /\
     ref_length (map cand_of_length [3; 2; 4]%nat) 1 = Some n /\
     forall r', In r' [0; 1; 2]%nat ->
       exists n', ref_length (map cand_of_length [3; 2; 4]%nat) r' = Some n' /\ (n <= n')%nat).
Proof.
  assert (E : decide (init "ab") (InList [0; 1; 2]%nat) (map cand_of_length [3; 2; 4]%nat) =
    (map cand_of_length [3; 2; 4]%nat, Ok (Labelled [("min_length"%string, 1%nat)])))
    by (vm_compute; reflexivity).
  split; [exact E|].
  exact (decide_returns_min_length _ _ _ _ _ E "min_length"%string 1%nat (or_introl eq_refl)).
Defined.

(** C10 (frame of [decide]).  [decide] keeps the number of candidates and,
    for every candidate, its path, arcs, path strings, pronunciation,
    arc-count sum and length; a candidate changes at all only if it is a
    minimal-length input and at least two inputs have minimal length.  The
    graph is an input of [decide], not part of its state, so it is unchanged. *)
Theorem decide_heuristics_frame g rs h :
  let h' := fst (decide g (InList rs) h) in
  List.length h' = List.length h /\
  forall i c, nth_error h i = Some c ->
    exists c', nth_error h' i = Some c' /\
      path c' = path c /\ c_arcs c' = c_arcs c /\ path_strings c' = path_strings c /\
      pronunciation c' = pronunciation c /\ arc_count_sum c' = arc_count_sum c /\
      length c' = length c /\
      (c' = c \/
       (In i rs /\ is_min_ref h rs i = true /\
        (2 <= List.length (filter (is_min_ref h rs) rs))%nat)).
Proof.
  cbv zeta.
  destruct (decide g (InList rs) h) as [h' d] eqn:E; cbn [fst].
  destruct (decide_spec g rs h h' d E) as [[L F] _]; split; [exact L|].
  intros i c Hc; destruct (F i c Hc) as (c' & H1 & (I1&I2&I3&I4&I5&I6) & H3).
  exists c'; repeat split; assumption.
Qed.

(** C9 (boundary-only candidates).  If at least two inputs have minimal
    length and every arc of each of them touches START or END, [decide]
    raises an error instead of returning its mapping. *)
Theorem decide_boundary_candidates_raise g rs h :
  (2 <= List.length (filter (is_min_ref h rs) rs))%nat ->
  (forall r c, In r rs -> is_min_ref h rs r = true -> nth_error h r = Some c ->
     forallb (fun k => contains k (boundary g)) (c_arcs c) = true) ->
  exists e, snd (decide g (InList rs) h) = Raise e.
Proof.
  intros H2 Hb.
  destruct rs as [|r0 rs0]; [cbn in H2; lia|].
  unfold decide; cbv beta iota; set (rs := r0 :: rs0) in *.
  unfold bind at 1.
  destruct (func_by_attribute_run rs (fun c => Z.of_nat (length c)) true h) as [r1 E1].
  rewrite E1; destruct r1 as [M|e]; [|cbn; eauto].
  assert (HM : M = filter (is_min_ref h rs) rs)
    by (apply (func_by_attribute_min rs h M); rewrite E1; reflexivity).
  assert (HinM : forall i, In i M -> In i rs /\ is_min_ref h rs i = true)
    by (intros i Hi; rewrite HM in Hi; apply filter_In in Hi; exact Hi).
  assert (Hr : exists e, snd (compute_heuristics g M h) = Raise e).
  { apply compute_heuristics_raises.
    - rewrite HM; exact H2.
    - intros r c Hr Hc; destruct (HinM r Hr); eauto.
    - intros r Hr; destruct (HinM r Hr) as [_ Hm]; unfold is_min_ref, ref_length in Hm.
      destruct (nth_error h r); [eauto | discriminate]. }
  rewrite <- HM in H2.
  destruct M as [|x [|y M']]; cbn in H2; [lia | lia|].
  destruct Hr as [e He]; unfold bind at 1.
  destruct (compute_heuristics g (x :: y :: M') h) as [h1 r]; cbn in He; subst r; cbn; eauto.
Qed.

Lemma decide_boundary_candidates_raise_witness :
  snd (find_all_paths one_letter_lattice) = Ok (Paths one_letter_candidates) /\
  (2 <= List.length (filter (is_min_ref one_letter_candidates [0; 1]%nat) [0; 1]%nat))%nat /\
  (forall r c, In r [0; 1]%nat -> is_min_ref one_letter_candidates [0; 1]%nat r = true ->
     nth_error one_letter_candidates r = Some c ->
     forallb (fun k => contains k (boundary one_letter_lattice)) (c_arcs c) = true) /\
  exists e, snd (decide one_letter_lattice (InList [0; 1]%nat) one_letter_candidates) = Raise e.
Proof.
  assert (H1 : (2 <= List.length (filter (is_min_ref one_letter_candidates [0; 1]%nat) [0; 1]%nat))%nat)
    by (vm_compute; lia).
  assert (H2 : forall r c, In r [0; 1]%nat -> is_min_ref one_letter_candidates [0; 1]%nat r = true ->
     nth_error one_letter_candidates r = Some c ->
     forallb (fun k => contains k (boundary one_letter_lattice)) (c_arcs c) = true).
  { intros r c [<-|[<-|[]]] _ Hc; vm_compute in Hc; injection Hc as <-; vm_compute; reflexivity. }
  split; [exact find_all_paths_one_letter|].
  split; [exact H1|]; split; [exact H2|].
  exact (decide_boundary_candidates_raise _ _ _ H1 H2).
Defined.

(** C6 (structure score).  For every candidate scored by a run of
    [compute_heuristics] that returns normally, the candidate has at least
    two arcs and the score [path_structure_standard_deviation] is the sample
    standard deviation ([statistics.stdev], divisor n - 1) of the
    candidate's arc spans. *)
Theorem compute_heuristics_psd_sample g M h h' :
  compute_heuristics g M h = (h', Ok tt) ->
  forall r, In r M -> exists c c', nth_error h r = Some c /\ nth_error h' r = Some c' /\
    (2 <= List.length (c_arcs c))%nat /\
    stdev (map structure_component (c_arcs c)) = Ok (path_structure_standard_deviation c').
Proof.
  intros E r Hr.
  assert (Hf := compute_heuristics_frame g M h); rewrite E in Hf; cbn [fst] in Hf.
  unfold compute_heuristics in E; unfold bind at 1 in E.
  destruct (for_each M _ h) as [h1 [[]|e]]; [|discriminate].
  unfold bind at 1 in E.
  destruct (get_frequencies_by_pronunciation M h1) as [h2 [[rc sp]|e]]; [|discriminate].
  cbv beta iota in E.
  assert (Hall : forall i, In i (seq 0 (List.length M)) -> psd_ok (nth i M 0%nat) h').
  { refine (for_each_psd _ (fun i => nth i M 0%nat) _ _ _ h2 h' E); intros i.
    - intros _; cbv zeta. apply (fun Hk => proj1 (psd_segment _ _ Hk)). intros c sd; cbv beta; psd_step.
    - intros g1 g1' _; cbv zeta. apply (fun Hk => proj2 (psd_segment _ _ Hk)). intros c sd; cbv beta; psd_step. }
  destruct (In_nth M r 0%nat Hr) as (i & Hi & Ei).
  destruct (Hall i (proj2 (in_seq _ _ _) (conj (Nat.le_0_l i) Hi))) as (c' & Hc' & Hs).
  rewrite Ei in Hc'.
  destruct (frame_nth _ _ _ _ _ Hf Hc') as (c & Hc & (_ & Ea & _) & _).
  exists c, c'; split; [exact Hc|]; split; [exact Hc'|]; rewrite <- Ea.
  split; [|exact Hs].
  unfold stdev in Hs; rewrite length_map in Hs.
  destruct (List.length (c_arcs c') <? 2)%nat eqn:El; [discriminate|].
  apply Nat.ltb_ge in El; exact El.
Qed.

Lemma compute_heuristics_psd_sample_witness :
  compute_heuristics span_lattice [0; 1]%nat span_candidates =
    (fst (compute_heuristics span_lattice [0; 1]%nat span_candidates), Ok tt) /\
  exists c c', nth_error span_candidates 0 = Some c /\
    nth_error (fst (compute_heuristics span_lattice [0; 1]%nat span_candidates)) 0 = Some c' /\
    (2 <= List.length (c_arcs c))%nat /\
    stdev (map structure_component (c_arcs c)) = Ok (path_structure_standard_deviation c').
Proof.
  assert (E : compute_heuristics span_lattice [0; 1]%nat span_candidates =
    (fst (compute_heuristics span_lattice [0; 1]%nat span_candidates), Ok tt)).
  { rewrite (surjective_pairing (compute_heuristics _ _ _)) at 1; f_equal; vm_compute; reflexivity. }
  split; [exact E|].
  exact (compute_heuristics_psd_sample _ _ _ _ E 0%nat (or_introl eq_refl)).
Defined.

Lemma compute_heuristics_psd_not_population :
  snd (compute_heuristics span_lattice [0; 1]%nat span_candidates) = Ok tt /\
  exists c c', nth_error span_candidates 0 = Some c /\
    nth_error (fst (compute_heuristics span_lattice [0; 1]%nat span_candidates)) 0 = Some c' /\
    path_structure_standard_deviation c' <> pstdev (map structure_component (c_arcs c)).
Proof.
  split; [vm_compute; reflexivity|].
  eexists _, _; split; [vm_compute; reflexivity|]; split.
  { cbv -[sqrt Rdiv Rplus Rmult Rminus Ropp IZR INR Rinv]; reflexivity. }
  cbv -[sqrt Rdiv Rplus Rmult Rminus Ropp IZR INR Rinv].
  match goal with |- sqrt ?a = sqrt ?b -> False =>
    replace a with (1 / 3)%R by (simpl; field); replace b with (2 / 9)%R by (simpl; field) end.
  intros H; apply sqrt_inj in H; lra.
Qed.

(** C5 (the step ceiling).  When an attempt passes the ceiling, the loop
    returns [SEARCHED_TOO_LONG] if that attempt found a candidate; if it found
    none and reached the last letter, the gap repair [link_silences] runs
    first and raises [IndexError] before the ceiling is checked. *)
Theorem search_loop_overflow fuel s s1 :
  ((furthest_index s <? Z.of_nat (String.length (letters (sg s))))%Z
     && negb (overflow s)) = true ->
  furthest_index s <> (-1)%Z ->
  attempt s = (s1, Ok tt) -> overflow s1 = true ->
  (candidates s1 <> [] -> snd (search_loop (S (S fuel)) s) = Ok (ErrCode SEARCHED_TOO_LONG)) /\
  (candidates s1 = [] ->
   furthest_index s1 = (Z.of_nat (String.length (letters (sg s1))) - 1)%Z ->
   snd (search_loop (S (S fuel)) s) = Raise IndexError).
Proof.
  intros Hg Hf Ha Ho.
  assert (Hf' : (furthest_index s =? -1)%Z = false) by (apply Z.eqb_neq; exact Hf).
  cbn [search_loop]; rewrite Hg, Hf', Ha; split.
  - intros Hc; destruct (candidates s1) as [|c cs]; [congruence|].
    cbn [search_loop]; rewrite Ho, andb_false_r; reflexivity.
  - intros Hc Hfi; rewrite Hc, Hfi.
    pose proof (link_silences_last (sg s1)) as E.
    destruct (link_silences _ _) as [g2 r]; cbn [snd] in E; subst r; reflexivity.
Qed.

Lemma search_loop_overflow_witness :
  ((furthest_index overflow_start <? Z.of_nat (String.length (letters (sg overflow_start))))%Z
     && negb (overflow overflow_start)) = true /\
  furthest_index overflow_start <> (-1)%Z /\
  attempt overflow_start = (fst (attempt_with 3 overflow_start), Ok tt) /\
  overflow (fst (attempt_with 3 overflow_start)) = true /\
  candidates (fst (attempt_with 3 overflow_start)) = [] /\
  furthest_index (fst (attempt_with 3 overflow_start)) =
    (Z.of_nat (String.length (letters (sg (fst (attempt_with 3 overflow_start))))) - 1)%Z /\
  snd (search_loop 2 overflow_start) = Raise IndexError.
Proof.
  assert (H1 : ((furthest_index overflow_start <? Z.of_nat (String.length (letters (sg overflow_start))))%Z
     && negb (overflow overflow_start)) = true) by (vm_compute; reflexivity).
  assert (H2 : furthest_index overflow_start <> (-1)%Z) by (vm_compute; discriminate).
  assert (H3 := attempt_overflow_start).
  assert (H4 : overflow (fst (attempt_with 3 overflow_start)) = true) by (vm_compute; reflexivity).
  assert (H5 : candidates (fst (attempt_with 3 overflow_start)) = []) by (vm_compute; reflexivity).
  assert (H6 : furthest_index (fst (attempt_with 3 overflow_start)) =
    (Z.of_nat (String.length (letters (sg (fst (attempt_with 3 overflow_start))))) - 1)%Z)
    by (vm_compute; reflexivity).
  do 6 (split; [assumption|]).
  exact (proj2 (search_loop_overflow 0 _ _ H1 H2 H3 H4) H5 H6).
Defined.

